(** * NHL play-by-play scraper: presence reconciliation and Corsi aggregation

    A shallow embedding of [nhl_ice_players_parser.py] (clock conversion,
    on-ice query, event enrichment) and of [player_corsi_analysis.py]
    (situation filter, Corsi aggregation, finalisation), followed by the
    properties established about them.

    Conventions of the embedding.
    - Python integers are [Z]; Python strings are [string] (the ASCII range).
    - A cell that pandas reports as missing ([None]/[NaN], [pd.isna]) is
      [None] of an [option].
    - A Python exception is the left injection of [result]; outside the
      two fetch functions the code under study never catches one, so an
      exception aborts the enclosing call.
    - A data frame is the list of its rows, in row order. *)

From Stdlib Require Import ZArith List String Ascii Bool Lia Permutation Sorted.
From Stdlib Require Import SpecFloat.
Import ListNotations.

Local Open Scope string_scope.
Local Open Scope list_scope.
Local Open Scope Z_scope.

(** ** Exceptions *)

Inductive exn : Type :=
| ValueError   (* int() on a non-numeric field *)
| TypeError    (* ordering None against a number, or [in] on a missing cell *)
| IndexError   (* unique()[k] beyond the number of teams *)
| KeyError     (* a column that the frame does not have *)
| ZeroDivisionError.

Inductive result (A : Type) : Type :=
| Ok (a : A)
| Raise (e : exn).
Arguments Ok {A} a.
Arguments Raise {A} e.

Definition bind {A B : Type} (r : result A) (k : A -> result B) : result B :=
  match r with
  | Ok a => k a
  | Raise e => Raise e
  end.

Declare Scope py_scope.
Delimit Scope py_scope with py.
Notation "x <- c1 ;; c2" := (bind c1 (fun x => c2))
  (at level 61, c1 at next level, right associativity) : py_scope.
Local Open Scope py_scope.

Definition returns {A : Type} (r : result A) : Prop := exists a, r = Ok a.
Definition raises {A : Type} (r : result A) : Prop := exists e, r = Raise e.

(** ** Strings: [str.split(':')] and [int(str)] *)

Definition colon : ascii := ":"%char.

(** [split_colon s] is [s.split(':')]: the maximal colon-free pieces of
    [s], of which there is always at least one. *)
Fixpoint split_colon (s : string) : list string :=
  match s with
  | EmptyString => [EmptyString]
  | String c s' =>
      if Ascii.eqb c colon then EmptyString :: split_colon s'
      else match split_colon s' with
           | [] => [String c EmptyString]
           | p :: ps => String c p :: ps
           end
  end.

(** White space that [int] strips on both sides of an ASCII string: TAB..CR
    and SPACE (the separators FS..US are stripped from a string that is not
    ASCII only). *)
Definition is_space (c : ascii) : bool :=
  let n := N_of_ascii c in
  (((9 <=? n) && (n <=? 13)) || (n =? 32))%N.

Definition is_digit (c : ascii) : bool :=
  let n := N_of_ascii c in ((48 <=? n) && (n <=? 57))%N.

Definition digit_val (c : ascii) : Z := Z.of_N (N_of_ascii c) - 48.

Fixpoint lstrip (s : list ascii) : list ascii :=
  match s with
  | c :: s' => if is_space c then lstrip s' else s
  | [] => []
  end.

Definition strip (s : list ascii) : list ascii :=
  rev (lstrip (rev (lstrip s))).

(** Decimal digits, where single underscores may separate digits;
    [prev] tells whether the previous character was a digit. *)
Fixpoint digits_value (acc : Z) (prev : bool) (s : list ascii) : option Z :=
  match s with
  | [] => if prev then Some acc else None
  | c :: s' =>
      if is_digit c then digits_value (acc * 10 + digit_val c) true s'
      else if Ascii.eqb c "_"%char then
             (if prev then digits_value acc false s' else None)
      else None
  end.

(** The number of digits beyond which [int] refuses a decimal string
    ([sys.int_info.default_max_str_digits]). *)
Definition max_str_digits : Z := 4300.

(** [py_int s] is [int(s)] for a string: optional surrounding white space,
    an optional sign, then at most [max_str_digits] decimal digits; anything
    else is a ValueError. *)
Definition py_int (s : string) : result Z :=
  let body := strip (list_ascii_of_string s) in
  let signed :=
    match body with
    | c :: rest =>
        if Ascii.eqb c "-"%char then (true, rest)
        else if Ascii.eqb c "+"%char then (false, rest)
        else (false, body)
    | [] => (false, [])
    end in
  match digits_value 0 false (snd signed) with
  | Some n =>
      if max_str_digits <? Z.of_nat (List.length (filter is_digit (snd signed)))
      then Raise ValueError
      else Ok (if fst signed then - n else n)
  | None => Raise ValueError
  end.

(** ** Time converter ([convert_time_to_seconds]) *)

Definition convert_time_to_seconds (time_str : option string) : result (option Z) :=
  match time_str with
  | None => Ok None
  | Some s =>
      match split_colon s with
      | [minutes; seconds] =>
          m <- py_int minutes ;;
          sec <- py_int seconds ;;
          Ok (Some (m * 60 + sec))
      | _ => Ok None
      end
  end.

(** ** Shift rows and the on-ice query ([get_players_on_ice]) *)

Record shift : Type := mkShift {
  playerId : Z;
  teamAbbrev : string;
  period : Z;
  startTime : option string;
  endTime : option string;
  shiftTypeCode : Z
}.

(** Python's [<] and [<=] between two values that are an int or None. *)
Definition py_lt (a b : option Z) : result bool :=
  match a, b with
  | Some x, Some y => Ok (x <? y)
  | _, _ => Raise TypeError
  end.

Definition py_le (a b : option Z) : result bool :=
  match a, b with
  | Some x, Some y => Ok (x <=? y)
  | _, _ => Raise TypeError
  end.

(** The chained comparison [a < b <= c]: the second test is evaluated only
    when the first one holds. *)
Definition py_lt_le (a b c : option Z) : result bool :=
  lt <- py_lt a b ;;
  if lt then py_le b c else Ok false.

(** Truthiness of the optional [team] argument: None and the empty string
    do not filter. *)
Definition team_filter (team : option string) (sh : shift) : bool :=
  match team with
  | None => true
  | Some EmptyString => true
  | Some t => String.eqb (teamAbbrev sh) t
  end.

Definition period_shifts (shifts_df : list shift) (per : Z)
    (team : option string) : list shift :=
  filter (team_filter team) (filter (fun sh => period sh =? per) shifts_df).

(** The body of the [for _, shift in period_shifts.iterrows()] loop. *)
Fixpoint scan_shifts (time_seconds : option Z) (rows : list shift)
    (players_on_ice : list Z) : result (list Z) :=
  match rows with
  | [] => Ok players_on_ice
  | sh :: rest =>
      if shiftTypeCode sh =? 505 then
        scan_shifts time_seconds rest players_on_ice
      else
        start_seconds <- convert_time_to_seconds (startTime sh) ;;
        end_seconds <- convert_time_to_seconds (endTime sh) ;;
        on <- py_lt_le start_seconds time_seconds end_seconds ;;
        scan_shifts time_seconds rest
          (if on then players_on_ice ++ [playerId sh] else players_on_ice)
  end.

Definition get_players_on_ice (shifts_df : list shift) (per : Z)
    (time_in_period : option string) (team : option string) : result (list Z) :=
  time_seconds <- convert_time_to_seconds time_in_period ;;
  scan_shifts time_seconds (period_shifts shifts_df per team) [].

(** ** Event enrichment ([combine_pbp_with_shifts]) *)

(** A row of the play-by-play frame, with the columns the analysis reads. *)
Record play : Type := mkPlay {
  periodNumber : option Z;
  timeInPeriod : option string;
  typeCode : Z;
  situationCode : Z;
  shootingPlayerId : option Z
}.

(** The same row once the four on-ice columns are added.  The two list
    columns start as None and the two counts as 0; the lists are written
    with [str] and read back with [ast.literal_eval], which is the identity
    on a list of integers, so the column holds the list itself here. *)
Record enriched : Type := mkEnriched {
  base : play;
  homePlayersOnIce : option (list Z);
  awayPlayersOnIce : option (list Z);
  homePlayersCount : Z;
  awayPlayersCount : Z
}.

(** [Series.unique()]: the distinct values in order of first appearance. *)
Fixpoint unique_from (seen : list string) (l : list string) : list string :=
  match l with
  | [] => []
  | x :: xs =>
      if existsb (String.eqb x) seen then unique_from seen xs
      else x :: unique_from (x :: seen) xs
  end.

Definition unique (l : list string) : list string := unique_from [] l.

(** [shifts_df['teamAbbrev'].unique()[k]]: a frame built from no record has
    no column at all, and an index beyond the teams seen is out of range. *)
Definition team_at (shifts_df : list shift) (k : nat) : result string :=
  match shifts_df with
  | [] => Raise KeyError
  | _ => match nth_error (unique (map teamAbbrev shifts_df)) k with
         | Some t => Ok t
         | None => Raise IndexError
         end
  end.

(** One turn of the [for idx, play in pbp_df.iterrows()] loop. *)
Definition enrich_play (shifts_df : list shift) (home_team away_team : string)
    (p : play) : result enriched :=
  match timeInPeriod p, periodNumber p with
  | Some _, Some per =>
      home_players <-
        get_players_on_ice shifts_df per (timeInPeriod p) (Some home_team) ;;
      away_players <-
        get_players_on_ice shifts_df per (timeInPeriod p) (Some away_team) ;;
      Ok (mkEnriched p (Some home_players) (Some away_players)
            (Z.of_nat (List.length home_players))
            (Z.of_nat (List.length away_players)))
  | _, _ => Ok (mkEnriched p None None 0 0)
  end.

Fixpoint enrich_rows (shifts_df : list shift) (home_team away_team : string)
    (pbp_df : list play) : result (list enriched) :=
  match pbp_df with
  | [] => Ok []
  | p :: rest =>
      e <- enrich_play shifts_df home_team away_team p ;;
      es <- enrich_rows shifts_df home_team away_team rest ;;
      Ok (e :: es)
  end.

(** [combine_pbp_with_shifts], as a function of what the two fetches
    returned (None when a fetch failed); the result is None in that case. *)
Definition combine_pbp_with_shifts (pbp_df : option (list play))
    (shift_data : option (list shift)) : result (option (list enriched)) :=
  match pbp_df with
  | None => Ok None
  | Some plays =>
      match shift_data with
      | None => Ok None
      | Some shifts_df =>
          home_team <- team_at shifts_df 0 ;;
          away_team <- team_at shifts_df 1 ;;
          rows <- enrich_rows shifts_df home_team away_team plays ;;
          Ok (Some rows)
      end
  end.

(** ** Situation filter ([corsi_events] of [analyze_player_corsi_5v5]) *)

Definition shot_attempt_events : list Z := [505; 506; 507; 508].

(** [Series.isin(values)] on one cell. *)
Definition isin (x : Z) (values : list Z) : bool := existsb (Z.eqb x) values.

Definition is_corsi_event (e : enriched) : bool :=
  isin (typeCode (base e)) shot_attempt_events
  && (situationCode (base e) =? 1551)
  && (homePlayersCount e =? 6)
  && (awayPlayersCount e =? 6).

Definition corsi_events (pbp_df : list enriched) : list enriched :=
  filter is_corsi_event pbp_df.

(** ** Corsi aggregation (the loop over [corsi_events]) *)

Record stats : Type := mkStats {
  CF : Z;
  CA : Z;
  TOI_events : Z
}.

(** [player_stats] is a Python dict: its keys are distinct and it iterates
    in insertion order, so it is the list of its items in that order. *)
Definition player_stats_t : Type := list (Z * stats).

Fixpoint lookup (player_stats : player_stats_t) (player_id : Z) : option stats :=
  match player_stats with
  | [] => None
  | (k, s) :: rest => if k =? player_id then Some s else lookup rest player_id
  end.

(** [player_stats[player_id] = f(player_stats[player_id])] on a present key. *)
Fixpoint update (player_stats : player_stats_t) (player_id : Z)
    (f : stats -> stats) : player_stats_t :=
  match player_stats with
  | [] => []
  | (k, s) :: rest =>
      if k =? player_id then (k, f s) :: rest
      else (k, s) :: update rest player_id f
  end.

Inductive side : Type := home | away.

Definition side_eqb (a b : side) : bool :=
  match a, b with
  | home, home | away, away => true
  | _, _ => false
  end.

(** The body of either inner loop: [own] is the side whose list is being
    walked, [shooting_team] the side that took the shot. *)
Definition credit (shooting_team own : side) (player_stats : player_stats_t)
    (player_id : Z) : player_stats_t :=
  let player_stats :=
    match lookup player_stats player_id with
    | Some _ => player_stats
    | None => player_stats ++ [(player_id, mkStats 0 0 0)]
    end in
  update player_stats player_id (fun s =>
    let s := if side_eqb shooting_team own
             then mkStats (CF s + 1) (CA s) (TOI_events s)
             else mkStats (CF s) (CA s + 1) (TOI_events s) in
    mkStats (CF s) (CA s) (TOI_events s + 1)).

Definition credit_event (shooting_team : side) (home_players away_players : list Z)
    (player_stats : player_stats_t) : player_stats_t :=
  fold_left (credit shooting_team away)
    away_players
    (fold_left (credit shooting_team home) home_players player_stats).

(** [x in l] for a list of integers. *)
Definition mem (x : Z) (l : list Z) : bool := existsb (Z.eqb x) l.

(** How one event is handled: [None] when the event is skipped (no shooter
    id, or the shooter is in neither list), otherwise the shooting side and
    the two lists.  Testing membership in a missing list is a TypeError. *)
Definition shooting_team_of (event : enriched)
    : result (option (side * list Z * list Z)) :=
  match shootingPlayerId (base event) with
  | None => Ok None
  | Some shooter_id =>
      match homePlayersOnIce event, awayPlayersOnIce event with
      | Some home_players, Some away_players =>
          if mem shooter_id home_players then
            Ok (Some (home, home_players, away_players))
          else if mem shooter_id away_players then
            Ok (Some (away, home_players, away_players))
          else Ok None
      | _, _ => Raise TypeError
      end
  end.

Definition process_event (player_stats : player_stats_t) (event : enriched)
    : result player_stats_t :=
  r <- shooting_team_of event ;;
  match r with
  | None => Ok player_stats
  | Some (shooting_team, home_players, away_players) =>
      Ok (credit_event shooting_team home_players away_players player_stats)
  end.

Fixpoint aggregate (events : list enriched) (player_stats : player_stats_t)
    : result player_stats_t :=
  match events with
  | [] => Ok player_stats
  | event :: rest =>
      player_stats <- process_event player_stats event ;;
      aggregate rest player_stats
  end.

(** ** Floating point: binary64 values and the operations the analysis uses *)

Definition float : Type := spec_float.
Definition prec : Z := 53.
Definition emax : Z := 1024.

Definition fmul : float -> float -> float := SFmul prec emax.
Definition fdiv : float -> float -> float := SFdiv prec emax.
Definition fadd : float -> float -> float := SFadd prec emax.
Definition fsub : float -> float -> float := SFsub prec emax.
Definition fleb : float -> float -> bool := SFleb.
Definition nan : float := S754_nan.

Definition is_nan (x : float) : bool :=
  match x with
  | S754_nan => true
  | _ => false
  end.

(** An integer as a float datum (mantissa [|z|], exponent 0).  It is only
    ever an operand of [fdiv] or [fmul], which round the exact quotient or
    product to binary64, as [int / int] and [float * int] do. *)
Definition float_of_int (z : Z) : float :=
  match z with
  | Z0 => S754_zero false
  | Zpos p => S754_finite false p 0
  | Zneg p => S754_finite true p 0
  end.

(** [a / b] on two Python integers. *)
Definition py_true_div (a b : Z) : result float :=
  if b =? 0 then Raise ZeroDivisionError
  else Ok (fdiv (float_of_int a) (float_of_int b)).

(** The integer nearest to [n / d], ties to the even one ([0 <= n], [0 < d]). *)
Definition round_half_even_div (n d : Z) : Z :=
  let q := n / d in
  match (2 * (n mod d) ?= d) with
  | Lt => q
  | Gt => q + 1
  | Eq => if Z.even q then q else q + 1
  end.

(** [tenths x] is the integer nearest to [10 * |x|] for a finite [x]. *)
Definition tenths (m : positive) (e : Z) : Z :=
  if 0 <=? e then 10 * Zpos m * 2 ^ e
  else round_half_even_div (10 * Zpos m) (2 ^ (- e)).

(** The builtin [round(x, 1)] on a float: the exact value of [x] is rounded
    to the nearest multiple of one tenth (ties to even), and that decimal is
    converted back to the nearest binary64. *)
Definition py_round1 (x : float) : float :=
  match x with
  | S754_finite s m e =>
      match tenths m e with
      | Zpos k => fdiv (S754_finite s k 0) (float_of_int 10)
      | _ => S754_zero s
      end
  | _ => x
  end.

(** [numpy.rint]: the nearest integral float, ties to even. *)
Definition rint (x : float) : float :=
  match x with
  | S754_finite s m e =>
      if 0 <=? e then x
      else match round_half_even_div (Zpos m) (2 ^ (- e)) with
           | Zpos k => binary_round prec emax s k 0
           | _ => S754_zero s
           end
  | _ => x
  end.

(** [round(series, 1)] on one cell of a float64 column, which numpy
    computes as [rint(x * 10) / 10]. *)
Definition np_round1 (x : float) : float :=
  fdiv (rint (fmul x (float_of_int 10))) (float_of_int 10).

(** ** Finalisation (the second half of [analyze_player_corsi_5v5]) *)

(** An entry of the player dictionary; [fullName] may be missing, in which
    case [get_player_name] falls back on a fixed label. *)
Record info : Type := mkInfo {
  fullName : option string;
  team : string
}.

(** The player dictionary is only ever looked up, so it is its lookup. *)
Definition player_dict_t : Type := Z -> option info.

Definition get_player_name (player_id : Z) (player_dict : player_dict_t) : string :=
  match player_dict player_id with
  | Some i => match fullName i with
              | Some name => name
              | None => "Unknown Player"
              end
  | None => "Unknown Player"
  end.

(** An element of [results]. *)
Record stat_row : Type := mkStatRow {
  res_playerId : Z;
  res_playerName : string;
  res_CF : Z;
  res_CA : Z;
  res_CF_plus_CA : Z;
  res_Corsi_pct : float;
  res_TOI_events : Z
}.

(** [(cf / total_attempts * 100) if total_attempts > 0 else 0]; the integer
    0 of the else branch is 0.0 in the float column. *)
Definition corsi_pct_of (cf total_attempts : Z) : result float :=
  if 0 <? total_attempts then
    q <- py_true_div cf total_attempts ;;
    Ok (fmul q (float_of_int 100))
  else Ok (S754_zero false).

Definition finalize_player (player_dict : player_dict_t) (item : Z * stats)
    : result stat_row :=
  let '(player_id, st) := item in
  let cf := CF st in
  let ca := CA st in
  let total_attempts := cf + ca in
  corsi_pct <- corsi_pct_of cf total_attempts ;;
  Ok (mkStatRow player_id (get_player_name player_id player_dict)
        cf ca total_attempts (py_round1 corsi_pct) (TOI_events st)).

Fixpoint finalize (player_dict : player_dict_t) (items : player_stats_t)
    : result (list stat_row) :=
  match items with
  | [] => Ok []
  | item :: rest =>
      r <- finalize_player player_dict item ;;
      rs <- finalize player_dict rest ;;
      Ok (r :: rs)
  end.

(** A row of the frame that [analyze_player_corsi_5v5] returns; [row_team]
    is missing for a player the dictionary does not know. *)
Record corsi_row : Type := mkCorsiRow {
  row_playerId : Z;
  row_playerName : string;
  row_team : option string;
  row_CF : Z;
  row_CA : Z;
  row_CF_plus_CA : Z;
  row_Corsi_pct : float;
  row_Corsi_rel : float;
  row_TOI_events : Z
}.

(** Fancy indexing [rows[indexer]]. *)
Definition take {A : Type} (rows : list A) (indexer : list nat) : list A :=
  flat_map (fun i => match nth_error rows i with
                     | Some r => [r]
                     | None => []
                     end) indexer.

Definition team_eqb (a b : option string) : bool :=
  match a, b with
  | Some x, Some y => String.eqb x y
  | _, _ => false
  end.

Section Pandas.

(** Two library routines whose algorithm is not part of the program:
    [ndarray.argsort(kind='quicksort')], the default kind that
    [sort_values] asks for, and the mean of one [groupby] group. *)
Variable argsort : list float -> list nat.
Variable mean : list float -> float.

(** [nargsort(items, kind='quicksort', ascending=False, na_position='last')]:
    the cells that are not NaN are reversed, sorted in ascending order,
    and the indexer is reversed again; the NaN cells go last. *)
Definition nargsort_desc (items : list float) : list nat :=
  let cells := combine (seq 0 (List.length items)) items in
  let nonnan_cells := filter (fun c => negb (is_nan (snd c))) cells in
  let nan_idx := map fst (filter (fun c => is_nan (snd c)) cells) in
  let nonnan := rev (map snd nonnan_cells) in
  let nonnan_idx := rev (map fst nonnan_cells) in
  let indexer := take nonnan_idx (argsort nonnan) in
  rev indexer ++ nan_idx.

(** [corsi_df.sort_values('Corsi_pct', ascending=False)] *)
Definition sort_values_desc (corsi_df : list stat_row) : list stat_row :=
  take corsi_df (nargsort_desc (map res_Corsi_pct corsi_df)).

Definition team_of (player_dict : player_dict_t) (player_id : Z) : option string :=
  match player_dict player_id with
  | Some i => Some (team i)
  | None => None
  end.

(** [corsi_df['team'].map(team_averages)] on one cell: the mean of the
    percentages of the rows of that team, and NaN for a missing team. *)
Definition team_avg_corsi (player_dict : player_dict_t)
    (corsi_df : list stat_row) (t : option string) : float :=
  match t with
  | None => nan
  | Some _ =>
      mean (map res_Corsi_pct
              (filter (fun r => team_eqb (team_of player_dict (res_playerId r)) t)
                 corsi_df))
  end.

Definition add_team_columns (player_dict : player_dict_t)
    (corsi_df : list stat_row) (r : stat_row) : corsi_row :=
  let t := team_of player_dict (res_playerId r) in
  mkCorsiRow (res_playerId r) (res_playerName r) t
    (res_CF r) (res_CA r) (res_CF_plus_CA r) (res_Corsi_pct r)
    (np_round1 (fsub (res_Corsi_pct r) (team_avg_corsi player_dict corsi_df t)))
    (res_TOI_events r).

(** [analyze_player_corsi_5v5] as a function of the frame read from the
    CSV file and of the dictionary.  A frame built from an empty
    [results] has no column to sort by. *)
Definition analyze_player_corsi_5v5 (pbp_df : list enriched)
    (player_dict : player_dict_t) : result (list corsi_row) :=
  player_stats <- aggregate (corsi_events pbp_df) [] ;;
  results <- finalize player_dict (player_stats) ;;
  match results with
  | [] => Raise KeyError
  | _ =>
      let corsi_df := sort_values_desc results in
      Ok (map (add_team_columns player_dict corsi_df) corsi_df)
  end.

End Pandas.

(** ** Instances of the two library routines *)

(** What [argsort] promises on cells that are not NaN: a permutation of
    the positions that lists the cells in ascending order.  The default
    kind promises nothing on the order of equal cells. *)
Definition argsort_spec (argsort : list float -> list nat) : Prop :=
  forall items, Forall (fun v => is_nan v = false) items ->
    Permutation (argsort items) (seq 0 (List.length items)) /\
    StronglySorted (fun a b => fleb a b = true) (take items (argsort items)).

(** A sort by insertion, which meets the contract; it serves to run the
    analysis on small examples and shows that the contract can be met.
    Insertion of position [i] into a sorted indexer: with [strict] the new
    position goes after the equal cells (a stable sort); without it, before
    them. *)
Definition goes_before (strict : bool) (x y : float) : bool :=
  if strict then negb (fleb y x) else fleb x y.

Fixpoint insert_pos (strict : bool) (items : list float) (i : nat)
    (indexer : list nat) : list nat :=
  match indexer with
  | [] => [i]
  | j :: rest =>
      if goes_before strict (nth i items nan) (nth j items nan)
      then i :: indexer
      else j :: insert_pos strict items i rest
  end.

Definition insertion_argsort (strict : bool) (items : list float) : list nat :=
  fold_left (fun indexer i => insert_pos strict items i indexer)
    (seq 0 (List.length items)) [].

(** ** NumPy's argsort of kind 'quicksort' for doubles

    [sort_values] hands the column to [ndarray.argsort(kind='quicksort')],
    which for doubles runs [aquicksort_] of NumPy's npysort: an introsort
    on the array [tosort] of positions, with a median of three as pivot,
    insertion sort for partitions of at most 17 cells and heap sort when
    the depth budget is used up.  (A build of NumPy that hands this call to
    vectorised code sorts by other means; that kind does not promise to
    keep equal cells in order either.)  The array of positions is a list;
    [pl], [pr], [pi], [pj] are positions in it. *)





Section NpySort.

Variable v : list float.















End NpySort.


(** The compensated sum that [groupby(...).mean()] accumulates, divided by
    the number of cells. *)
Definition kahan_step (acc : float * float) (val : float) : float * float :=
  let '(sumx, compensation) := acc in
  let y := fsub val compensation in
  let t := fadd sumx y in
  (t, fsub (fsub t sumx) y).

Definition group_mean (vals : list float) : float :=
  match vals with
  | [] => nan
  | _ => fdiv (fst (fold_left kahan_step vals (S754_zero false, S754_zero false)))
           (float_of_int (Z.of_nat (List.length vals)))
  end.

(** ** Vocabulary of the properties *)

(** A shift row read as the interval [[start, end_]] of its player: it is
    not a goal marker and both clock strings convert. *)
Definition is_interval (sh : shift) (start end_ : Z) : Prop :=
  shiftTypeCode sh <> 505 /\
  convert_time_to_seconds (startTime sh) = Ok (Some start) /\
  convert_time_to_seconds (endTime sh) = Ok (Some end_).

(** A row the query can process: a goal marker, or an interval. *)
Definition well_formed (sh : shift) : Prop :=
  shiftTypeCode sh = 505 \/ exists start end_, is_interval sh start end_.

(** The bounds of a row, when it has some. *)
Definition bounds (sh : shift) : option (Z * Z) :=
  match convert_time_to_seconds (startTime sh),
        convert_time_to_seconds (endTime sh) with
  | Ok (Some start), Ok (Some end_) => Some (start, end_)
  | _, _ => None
  end.

(** The boundary rule on one row: left-open, right-closed. *)
Definition on_ice_at (t : Z) (sh : shift) : bool :=
  negb (shiftTypeCode sh =? 505) &&
  match bounds sh with
  | Some (start, end_) => (start <? t) && (t <=? end_)
  | None => false
  end.


(** ** Concrete data used by the test cases *)

(** One shift of one player over the first minute of period 1. *)
Definition shift_0_60 : shift :=
  mkShift 8471214 "WSH" 1 (Some "00:00") (Some "01:00") 517.


(** Two overlapping shift rows of the same player in the same period. *)
Definition overlap_shifts : list shift :=
  [ mkShift 8471214 "WSH" 1 (Some "00:00") (Some "01:00") 517;
    mkShift 8471214 "WSH" 1 (Some "00:30") (Some "01:30") 517 ].


(** Shift rows of two teams, the first seen being the home side. *)
Definition game_shifts : list shift :=
  [ shift_0_60;
    mkShift 8471675 "PIT" 1 (Some "00:00") (Some "00:45") 517 ].

(** A shot event whose clock has two fields that are not numbers, the same
    event with a clock of one field, and the same event without a clock. *)
Definition play_bad_clock : play := mkPlay (Some 1) (Some "ab:cd") 506 1551 None.
Definition play_short_clock : play := mkPlay (Some 1) (Some "12") 506 1551 None.
Definition play_no_clock : play := mkPlay (Some 1) None 506 1551 None.



(** The count columns of an enriched row agree with its list columns. *)
Definition count_of (on_ice : option (list Z)) : Z :=
  match on_ice with
  | Some players => Z.of_nat (List.length players)
  | None => 0
  end.

Definition consistent (e : enriched) : Prop :=
  homePlayersCount e = count_of (homePlayersOnIce e) /\
  awayPlayersCount e = count_of (awayPlayersOnIce e).

(** An enriched row without ice context. *)
Definition no_ice_context (e : enriched) : Prop :=
  homePlayersOnIce e = None /\ awayPlayersOnIce e = None /\
  homePlayersCount e = 0 /\ awayPlayersCount e = 0.


(** A header event without a clock followed by a shot at 00:30. *)
Definition game_plays : list play :=
  [ play_no_clock; mkPlay (Some 1) (Some "00:30") 506 1551 (Some 8471214) ].


(** The four conditions of the situation filter. *)
Definition qualifies (e : enriched) : Prop :=
  In (typeCode (base e)) [505; 506; 507; 508] /\
  situationCode (base e) = 1551 /\
  homePlayersCount e = 6 /\
  awayPlayersCount e = 6.

(** A shot on goal at full strength with six players a side, and the same
    event with five home players, and with another situation code. *)
Definition shot_6v6 : enriched :=
  mkEnriched (mkPlay (Some 1) (Some "00:30") 506 1551 (Some 1))
    (Some [1; 2; 3; 4; 5; 6]) (Some [7; 8; 9; 10; 11; 12]) 6 6.

Definition shot_5v6 : enriched :=
  mkEnriched (mkPlay (Some 1) (Some "00:30") 506 1551 (Some 1))
    (Some [1; 2; 3; 4; 5]) (Some [7; 8; 9; 10; 11; 12]) 5 6.

Definition shot_6v6_1451 : enriched :=
  mkEnriched (mkPlay (Some 1) (Some "00:30") 506 1451 (Some 1))
    (Some [1; 2; 3; 4; 5; 6]) (Some [7; 8; 9; 10; 11; 12]) 6 6.


(** Per-player conservation on one record, and on a whole table. *)
Definition balanced (s : stats) : Prop := CF s + CA s = TOI_events s.

Definition all_balanced (player_stats : player_stats_t) : Prop :=
  Forall (fun item => balanced (snd item)) player_stats.

(** An event the aggregation can read: when it names a shooter, both
    on-ice columns hold a list. *)
Definition readable (e : enriched) : Prop :=
  shootingPlayerId (base e) = None \/
  (homePlayersOnIce e <> None /\ awayPlayersOnIce e <> None).


(** The counters of a player in the table, 0 for a player without record. *)
Definition CF_of (player_stats : player_stats_t) (player_id : Z) : Z :=
  match lookup player_stats player_id with
  | Some s => CF s
  | None => 0
  end.

Definition CA_of (player_stats : player_stats_t) (player_id : Z) : Z :=
  match lookup player_stats player_id with
  | Some s => CA s
  | None => 0
  end.

(** How many times a player is listed in an on-ice list. *)
Definition occurrences (player_id : Z) (players : list Z) : Z :=
  Z.of_nat (count_occ Z.eq_dec players player_id).

(** The sum of a counter over a roster. *)
Definition total (f : Z -> Z) (roster : list Z) : Z :=
  fold_right (fun p acc => f p + acc) 0 roster.

(** The list of the shooting side and the list of the other side. *)
Definition shooting_list (st : side) (home_players away_players : list Z) : list Z :=
  match st with
  | home => home_players
  | away => away_players
  end.

Definition defending_list (st : side) (home_players away_players : list Z) : list Z :=
  match st with
  | home => away_players
  | away => home_players
  end.


(** A game in which one home player has two overlapping shift rows, and a
    shot taken while both rows cover the clock. *)
Definition dup_shifts : list shift :=
  [ mkShift 1 "WSH" 1 (Some "00:00") (Some "01:00") 517;
    mkShift 1 "WSH" 1 (Some "00:30") (Some "01:30") 517;
    mkShift 2 "WSH" 1 (Some "00:00") (Some "01:00") 517;
    mkShift 3 "WSH" 1 (Some "00:00") (Some "01:00") 517;
    mkShift 4 "WSH" 1 (Some "00:00") (Some "01:00") 517;
    mkShift 5 "WSH" 1 (Some "00:00") (Some "01:00") 517;
    mkShift 7 "PIT" 1 (Some "00:00") (Some "01:00") 517;
    mkShift 8 "PIT" 1 (Some "00:00") (Some "01:00") 517;
    mkShift 9 "PIT" 1 (Some "00:00") (Some "01:00") 517;
    mkShift 10 "PIT" 1 (Some "00:00") (Some "01:00") 517;
    mkShift 11 "PIT" 1 (Some "00:00") (Some "01:00") 517;
    mkShift 12 "PIT" 1 (Some "00:00") (Some "01:00") 517 ].

Definition dup_play : play := mkPlay (Some 1) (Some "00:45") 506 1551 (Some 1).

Definition dup_event : enriched :=
  mkEnriched dup_play (Some [1; 1; 2; 3; 4; 5]) (Some [7; 8; 9; 10; 11; 12]) 6 6.

(** A shot by the away side with the rosters of [shot_6v6]. *)
Definition shot_6v6_away : enriched :=
  mkEnriched (mkPlay (Some 1) (Some "01:30") 507 1551 (Some 8))
    (Some [1; 2; 3; 4; 5; 6]) (Some [7; 8; 9; 10; 11; 12]) 6 6.


(** Counters never go below zero. *)
Definition counted (s : stats) : Prop := 0 <= CF s /\ 0 <= CA s.


(** Two player dictionaries over the same players: one with two teams, one
    that files every player under the same team. *)
Definition dict_two_teams : player_dict_t :=
  fun player_id =>
    if player_id <=? 6 then Some (mkInfo (Some "Home Skater") "WSH")
    else if player_id <=? 12 then Some (mkInfo (Some "Away Skater") "PIT")
    else None.

Definition dict_one_team : player_dict_t :=
  fun player_id => Some (mkInfo None "WSH").

(** The binary64 values 100.0 and 50.0. *)
Definition hundred : float := S754_finite false 7036874417766400 (-46).
Definition fifty : float := S754_finite false 7036874417766400 (-47).


(** The numeric columns of an element of [results] and of a returned row
    that do not involve the team: player, counters and percentage. *)
Definition res_numbers (r : stat_row) : Z * Z * Z * Z * Z * float :=
  (res_playerId r, res_CF r, res_CA r, res_CF_plus_CA r, res_TOI_events r,
   res_Corsi_pct r).

Definition row_numbers (r : corsi_row) : Z * Z * Z * Z * Z * float :=
  (row_playerId r, row_CF r, row_CA r, row_CF_plus_CA r, row_TOI_events r,
   row_Corsi_pct r).

(** The columns that come from the team of the dictionary. *)
Definition row_team_columns (r : corsi_row) : option string * float :=
  (row_team r, row_Corsi_rel r).


(** [dict_two_teams] with other names. *)
Definition dict_renamed : player_dict_t :=
  fun player_id =>
    if player_id <=? 6 then Some (mkInfo None "WSH")
    else if player_id <=? 12 then Some (mkInfo (Some "Visitor") "PIT")
    else None.


(** A column in descending order: a cell is at least every later cell. *)
Definition descending (column : list float) : Prop :=
  forall i j a b, (i < j)%nat ->
    nth_error column i = Some a -> nth_error column j = Some b ->
    fleb b a = true.



(** A sort key that orders floats as [SFcompare] does. *)
Definition float_key (x : float) : Z * Z * Z :=
  match x with
  | S754_infinity true => (-2, 0, 0)
  | S754_finite true m e => (-1, - e, - Zpos m)
  | S754_zero _ => (0, 0, 0)
  | S754_finite false m e => (1, e, Zpos m)
  | S754_infinity false => (2, 0, 0)
  | S754_nan => (3, 0, 0)
  end.

Definition key_le (a b : Z * Z * Z) : Prop :=
  let '(a1, a2, a3) := a in
  let '(b1, b2, b3) := b in
  a1 < b1 \/ (a1 = b1 /\ (a2 < b2 \/ (a2 = b2 /\ a3 <= b3))).


(** The clock string "MM:SS" of [m] minutes and [s] seconds, both below 100. *)
Definition two_digits (n : Z) : string :=
  String (ascii_of_N (Z.to_N (48 + n / 10)))
    (String (ascii_of_N (Z.to_N (48 + n mod 10))) EmptyString).

Definition clock (m s : Z) : string :=
  two_digits m ++ String colon (two_digits s).

Definition clock_reads_back (m s : nat) : bool :=
  match convert_time_to_seconds (Some (clock (Z.of_nat m) (Z.of_nat s))) with
  | Ok (Some v) => v =? Z.of_nat m * 60 + Z.of_nat s
  | _ => false
  end.


(** The rows that a query for one period and team reads: of that period,
    passing the team filter, and not a goal marker. *)
Definition relevant (per : Z) (team : option string) (sh : shift) : bool :=
  (period sh =? per) && team_filter team sh && negb (shiftTypeCode sh =? 505).


(** The event counter of a player in the table, 0 for a player without
    record. *)
Definition TOI_of (player_stats : player_stats_t) (player_id : Z) : Z :=
  match lookup player_stats player_id with
  | Some s => TOI_events s
  | None => 0
  end.

(** What one event adds to the counters of a player: the number of times
    the player is listed on the shooting side, or on the other side, of an
    event whose shooter is on the ice, and nothing for any other event. *)
Definition cf_gain (e : enriched) (p : Z) : Z :=
  match shooting_team_of e with
  | Ok (Some (st, h, a)) => occurrences p (shooting_list st h a)
  | _ => 0
  end.

Definition ca_gain (e : enriched) (p : Z) : Z :=
  match shooting_team_of e with
  | Ok (Some (st, h, a)) => occurrences p (defending_list st h a)
  | _ => 0
  end.

Definition gains (gain : enriched -> Z -> Z) (events : list enriched) (p : Z) : Z :=
  fold_right (fun e acc => gain e p + acc) 0 events.

(** An event that the pass skips: it names no shooter, or a shooter who is
    on neither on-ice list. *)
Definition skipped (e : enriched) : Prop :=
  shootingPlayerId (base e) = None \/
  exists shooter h a,
    shootingPlayerId (base e) = Some shooter /\
    homePlayersOnIce e = Some h /\ awayPlayersOnIce e = Some a /\
    ~ In shooter h /\ ~ In shooter a.

(** An event that the pass credits: its shooter is on one of the two
    on-ice lists. *)
Definition attributed (e : enriched) : Prop :=
  exists shooter h a,
    shootingPlayerId (base e) = Some shooter /\
    homePlayersOnIce e = Some h /\ awayPlayersOnIce e = Some a /\
    (In shooter h \/ In shooter a).

(** A player listed on the ice in an event. *)
Definition listed (p : Z) (e : enriched) : Prop :=
  exists h a,
    homePlayersOnIce e = Some h /\ awayPlayersOnIce e = Some a /\
    (In p h \/ In p a).

(** Two tables that are equal as Python dicts: the same keys with the same
    records, whatever the insertion order. *)
Definition same_dict (t1 t2 : player_stats_t) : Prop :=
  forall p, lookup t1 p = lookup t2 p.

(** A table as the pass keeps it: distinct keys, and no record without an
    event. *)
Definition tidy (player_stats : player_stats_t) : Prop :=
  NoDup (map fst player_stats) /\
  Forall (fun item => 1 <= TOI_events (snd item)) player_stats.


(** A goal at full strength: the feed names its scorer, not a shooter.  And
    a shot whose on-ice cells are missing although its counts are 6. *)
Definition goal_without_shooter : enriched :=
  mkEnriched (mkPlay (Some 1) (Some "00:50") 505 1551 None)
    (Some [1; 2; 3; 4; 5; 6]) (Some [7; 8; 9; 10; 11; 12]) 6 6.

Definition shot_unreadable : enriched :=
  mkEnriched (mkPlay (Some 1) (Some "00:30") 506 1551 (Some 1)) None None 6 6.


(** ** The summary ([print_corsi_summary]) *)

(** [sep.join(items)] on strings. *)
Fixpoint join (sep : string) (items : list string) : string :=
  match items with
  | [] => EmptyString
  | [x] => x
  | x :: rest => x ++ sep ++ join sep rest
  end.

(** The argument of the second line that [print_corsi_summary] prints,
    [', '.join(corsi_df['team'].unique())]: [unique] keeps a missing team
    as a float among the strings, on which [join] raises. *)
Definition joined_teams (corsi_df : list corsi_row) : result string :=
  if forallb (fun r => match row_team r with Some _ => true | None => false end)
       corsi_df
  then Ok (join ", "
             (unique (flat_map (fun r => match row_team r with
                                         | Some t => [t]
                                         | None => []
                                         end) corsi_df)))
  else Raise TypeError.

(** ** Vocabulary of the properties of the percentage *)

(** The double nearest to the decimal number of [k] tenths, which is what
    rounding to one decimal returns. *)
Definition decimal_tenths (k : Z) : float :=
  match k with
  | Zpos p => fdiv (S754_finite false p 0) (float_of_int 10)
  | _ => S754_zero false
  end.

Definition float_same (x y : float) : bool :=
  match x, y with
  | S754_zero a, S754_zero b => Bool.eqb a b
  | S754_infinity a, S754_infinity b => Bool.eqb a b
  | S754_nan, S754_nan => true
  | S754_finite a m e, S754_finite b n f =>
      Bool.eqb a b && Pos.eqb m n && Z.eqb e f
  | _, _ => false
  end.

(** The percentage cell of a player with [cf] attempts for out of
    [total_attempts]. *)
Definition pct_cell (cf total_attempts : Z) : float :=
  match corsi_pct_of cf total_attempts with
  | Ok corsi_pct => py_round1 corsi_pct
  | Raise _ => nan
  end.

(** [k] tenths is within half a tenth of the exact percentage
    [100 * cf / total]. *)
Definition nearest_tenth (cf total k : Z) : bool :=
  2 * Z.abs (1000 * cf - k * total) <=? total.

Definition pct_cell_checked (cf total : Z) : bool :=
  let k := 1000 * cf / total in
  (float_same (pct_cell cf total) (decimal_tenths k) && nearest_tenth cf total k)
  || (float_same (pct_cell cf total) (decimal_tenths (k + 1))
      && nearest_tenth cf total (k + 1)).

(** All the cells with [1 <= total <= bound] and [0 <= cf <= total]. *)
Definition pct_cells_checked (bound : nat) : bool :=
  forallb (fun total =>
             forallb (fun cf => pct_cell_checked (Z.of_nat cf) (Z.of_nat (S total)))
               (seq 0 (S (S total))))
    (seq 0 bound).


(** ** Fetching with retries ([fetch_nhl_data], [fetch_shift_data]) *)

(** What one pass through the [try] block comes to: the request, the status
    check and the decoding succeed and give a JSON value; or a
    [ConnectionError] is raised, which the first handler catches; or another
    [RequestException] is raised (an HTTP error status, a time-out while
    reading, a body that is not JSON), which the second handler catches. *)
Inductive outcome (J : Type) : Type :=
| Responded (json : J)
| ConnectionError
| RequestException.
Arguments Responded {J} json.
Arguments ConnectionError {J}.
Arguments RequestException {J}.

(** What the loop does to the world, in order: requests and pauses (the
    messages it prints are left out). *)
Inductive effect : Type :=
| Get
| Sleep (seconds : Z).

(** The [for attempt in range(...)] loop over the attempts that remain;
    [server attempt] is the outcome of the request of that attempt. *)
Fixpoint attempts_loop {J : Type} (server : nat -> outcome J) (max_retries : Z)
    (attempts : list nat) : list effect * option J :=
  match attempts with
  | [] => ([], None)
  | attempt :: rest =>
      match server attempt with
      | Responded json => ([Get], Some json)
      | ConnectionError =>
          let pause :=
            if Z.of_nat attempt <? max_retries - 1
            then [Sleep (2 ^ Z.of_nat attempt)]
            else [] in
          let '(trace, r) := attempts_loop server max_retries rest in
          (Get :: pause ++ trace, r)
      | RequestException => ([Get], None)
      end
  end.

Definition fetch_nhl_data {J : Type} (server : nat -> outcome J)
    (max_retries : Z) : list effect * option J :=
  attempts_loop server max_retries (seq 0 (Z.to_nat max_retries)).

(** [fetch_shift_data]: three attempts, and [.get('data', [])] on the
    decoded object, whose key [data] may be absent. *)
Definition fetch_shift_data (server : nat -> outcome (option (list shift)))
    : list effect * option (list shift) :=
  let '(trace, r) := attempts_loop server 3 (seq 0 3) in
  (trace,
   match r with
   | Some (Some data) => Some data
   | Some None => Some []
   | None => None
   end).

(** The number of requests and the seconds of pause in a trace. *)
Definition requests (trace : list effect) : Z :=
  fold_right (fun e n => match e with Get => 1 + n | Sleep _ => n end) 0 trace.

Definition slept (trace : list effect) : Z :=
  fold_right (fun e n => match e with Get => n | Sleep s => s + n end) 0 trace.

(** A server that refuses every connection, one that answers the third
    request, and one that answers the second request with an error status. *)
Definition server_down : nat -> outcome Z := fun _ => ConnectionError.

Definition server_third_time : nat -> outcome Z :=
  fun attempt => if (attempt <? 2)%nat then ConnectionError else Responded 42.

Definition server_error_status : nat -> outcome Z :=
  fun attempt => if (attempt <? 1)%nat then ConnectionError else RequestException.


(** The (team, period) group in the words of the specification: the rows of
    the period asked for whose team is the team asked for; and the rows of
    the group on which the boundary rule holds at the second [t]. *)
Definition in_group (per : Z) (tm : string) (sh : shift) : bool :=
  (period sh =? per) && String.eqb (teamAbbrev sh) tm.

Definition covers (per : Z) (tm : string) (t : Z) (sh : shift) : bool :=
  in_group per tm sh && on_ice_at t sh.






(** A frame of results with four rows, two of them at 100.0. *)
Definition frame_of_four : list stat_row :=
  [mkStatRow 1 "A" 1 1 2 fifty 2; mkStatRow 2 "B" 1 0 1 hundred 1;
   mkStatRow 3 "C" 0 1 1 (S754_zero false) 1; mkStatRow 4 "D" 2 0 2 hundred 2].

(** * Properties *)

(** ** The result monad *)

Lemma bind_Ok {A B : Type} (r : result A) (k : A -> result B) (b : B) :
  bind r k = Ok b -> exists a, r = Ok a /\ k a = Ok b.
Proof.
  destruct r as [a | e]; simpl; intros H; [eauto | discriminate].
Qed.

Lemma bind_Raise {A B : Type} (r : result A) (k : A -> result B) (e : exn) :
  r = Raise e -> bind r k = Raise e.
Proof. intros ->; reflexivity. Qed.

Ltac bind_inv H :=
  let a := fresh "a" in
  let Ha := fresh "Ha" in
  apply bind_Ok in H; destruct H as (a & Ha & H).

(** ** The on-ice query *)

Lemma is_interval_bounds (sh : shift) (start end_ : Z) :
  is_interval sh start end_ -> bounds sh = Some (start, end_).
Proof.
  intros (_ & Hs & He); unfold bounds; rewrite Hs, He; reflexivity.
Qed.

Lemma is_interval_on_ice (sh : shift) (start end_ t : Z) :
  is_interval sh start end_ ->
  on_ice_at t sh = true <-> start < t <= end_.
Proof.
  intros Hi; unfold on_ice_at.
  rewrite (is_interval_bounds _ _ _ Hi).
  destruct Hi as (Hc & _).
  apply Z.eqb_neq in Hc; rewrite Hc; simpl.
  rewrite andb_true_iff, Z.ltb_lt, Z.leb_le; tauto.
Qed.

Lemma on_ice_is_interval (sh : shift) (t : Z) :
  on_ice_at t sh = true ->
  exists start end_, is_interval sh start end_ /\ start < t <= end_.
Proof.
  unfold on_ice_at, bounds, is_interval.
  rewrite andb_true_iff, negb_true_iff, Z.eqb_neq; intros (Hc & H).
  destruct (convert_time_to_seconds (startTime sh)) as [[s|]|]; try discriminate.
  destruct (convert_time_to_seconds (endTime sh)) as [[e|]|]; try discriminate.
  exists s, e; rewrite andb_true_iff, Z.ltb_lt, Z.leb_le in H; tauto.
Qed.

(** The loop appends, in row order, the player of every row on which the
    boundary rule holds. *)
Lemma scan_shifts_filter (t : Z) (rows : list shift) :
  Forall well_formed rows ->
  forall acc,
    scan_shifts (Some t) rows acc
    = Ok (acc ++ map playerId (filter (on_ice_at t) rows)).
Proof.
  induction 1 as [| sh rows Hsh _ IH]; intros acc; simpl.
  - rewrite app_nil_r; reflexivity.
  - unfold on_ice_at at 1.
    destruct (shiftTypeCode sh =? 505) eqn:Hc; simpl.
    + apply IH.
    + destruct Hsh as [H505 | (s & e & Hi)].
      * apply Z.eqb_neq in Hc; contradiction.
      * rewrite (is_interval_bounds _ _ _ Hi).
        destruct Hi as (_ & Hs & He); rewrite Hs, He.
        unfold py_lt_le, py_lt, py_le; simpl.
        destruct (s <? t); simpl.
        -- destruct (t <=? e); simpl; rewrite IH.
           ++ rewrite <- app_assoc; reflexivity.
           ++ reflexivity.
        -- apply IH.
Qed.

Lemma get_players_on_ice_filter (shifts_df : list shift) (per : Z)
    (time : option string) (team : option string) (t : Z) :
  convert_time_to_seconds time = Ok (Some t) ->
  Forall well_formed (period_shifts shifts_df per team) ->
  get_players_on_ice shifts_df per time team
  = Ok (map playerId (filter (on_ice_at t) (period_shifts shifts_df per team))).
Proof.
  intros Ht Hwf; unfold get_players_on_ice; rewrite Ht; simpl.
  apply (scan_shifts_filter t _ Hwf []).
Qed.


Lemma filter_and {A : Type} (f g : A -> bool) (l : list A) :
  filter g (filter f l) = filter (fun x => f x && g x) l.
Proof.
  induction l as [| x l IH]; simpl; [reflexivity |].
  destruct (f x); simpl; [destruct (g x); rewrite IH; reflexivity | exact IH].
Qed.

(** The rows that the query scans for a named team are the rows of the
    (team, period) group. *)
Lemma period_shifts_in_group (shifts_df : list shift) (per : Z) (tm : string) :
  tm <> "" ->
  period_shifts shifts_df per (Some tm) = filter (in_group per tm) shifts_df.
Proof.
  intros Htm; unfold period_shifts; rewrite filter_and.
  apply filter_ext; intros sh; unfold in_group, team_filter.
  destruct tm; [contradiction | reflexivity].
Qed.

Lemma in_group_iff (per : Z) (tm : string) (sh : shift) :
  in_group per tm sh = true <-> period sh = per /\ teamAbbrev sh = tm.
Proof.
  unfold in_group; rewrite andb_true_iff, Z.eqb_eq, String.eqb_eq; tauto.
Qed.

Lemma group_well_formed (shifts_df : list shift) (per : Z) (tm : string) :
  tm <> "" ->
  (forall sh, In sh shifts_df -> period sh = per -> teamAbbrev sh = tm ->
              well_formed sh) ->
  Forall well_formed (period_shifts shifts_df per (Some tm)).
Proof.
  intros Htm Hwf; rewrite (period_shifts_in_group _ _ _ Htm).
  apply Forall_forall; intros sh Hin.
  apply filter_In in Hin; destruct Hin as (Hin & Hg).
  apply in_group_iff in Hg; destruct Hg as (Hp & Ht); auto.
Qed.

Lemma query_of_group (shifts_df : list shift) (per : Z) (time : option string)
    (tm : string) (t : Z) :
  tm <> "" ->
  convert_time_to_seconds time = Ok (Some t) ->
  (forall sh, In sh shifts_df -> period sh = per -> teamAbbrev sh = tm ->
              well_formed sh) ->
  get_players_on_ice shifts_df per time (Some tm)
  = Ok (map playerId (filter (covers per tm t) shifts_df)).
Proof.
  intros Htm Ht Hwf.
  rewrite (get_players_on_ice_filter _ _ _ _ t Ht (group_well_formed _ _ _ Htm Hwf)).
  rewrite (period_shifts_in_group _ _ _ Htm), filter_and; reflexivity.
Qed.

(** C1. Boundary law.  When the event clock reads [t] and the rows of the
    (team, period) group, that is the rows of the frame with that period and
    that team, are well formed, the query returns, in row order, the player
    of each interval of the group with [start < t <= end] and of no other
    row of the frame: an interval contributes its player iff the left-open,
    right-closed rule holds for it.  So a player is reported iff one of its
    intervals of the group satisfies the rule, and for a player with a
    single row in the group iff that interval does; the rows of another
    period or of another team never count.  For the interval [[0, 60]]:
    absent at 0, present at 60, absent at 61. *)
Theorem boundary_law :
  (forall (shifts_df : list shift) (per : Z) (time : option string)
          (tm : string) (t : Z),
      tm <> "" ->
      convert_time_to_seconds time = Ok (Some t) ->
      (forall sh, In sh shifts_df -> period sh = per -> teamAbbrev sh = tm ->
                  well_formed sh) ->
      exists players,
        get_players_on_ice shifts_df per time (Some tm) = Ok players /\
        players = map playerId (filter (covers per tm t) shifts_df) /\
        (forall sh start end_, is_interval sh start end_ ->
           (on_ice_at t sh = true <-> start < t <= end_)) /\
        (forall p, In p players <->
           exists sh start end_,
             In sh shifts_df /\ period sh = per /\ teamAbbrev sh = tm /\
             playerId sh = p /\
             is_interval sh start end_ /\ start < t <= end_) /\
        (forall sh start end_,
           In sh shifts_df -> period sh = per -> teamAbbrev sh = tm ->
           is_interval sh start end_ ->
           (forall sh', In sh' shifts_df ->
                        period sh' = per -> teamAbbrev sh' = tm ->
                        playerId sh' = playerId sh -> sh' = sh) ->
           (In (playerId sh) players <-> start < t <= end_)))
  /\ get_players_on_ice [shift_0_60] 1 (Some "00:00") (Some "WSH") = Ok []
  /\ get_players_on_ice [shift_0_60] 1 (Some "01:00") (Some "WSH") = Ok [8471214]
  /\ get_players_on_ice [shift_0_60] 1 (Some "01:01") (Some "WSH") = Ok []
  /\ get_players_on_ice game_shifts 1 (Some "00:30") (Some "PIT") = Ok [8471675]
  /\ get_players_on_ice game_shifts 2 (Some "00:30") (Some "PIT") = Ok [].
Proof.
  split; [| repeat split; reflexivity].
  intros shifts_df per time tm t Htm Ht Hwf.
  exists (map playerId (filter (covers per tm t) shifts_df)).
  assert (Hmem : forall p,
            In p (map playerId (filter (covers per tm t) shifts_df)) <->
            exists sh start end_,
              In sh shifts_df /\ period sh = per /\ teamAbbrev sh = tm /\
              playerId sh = p /\
              is_interval sh start end_ /\ start < t <= end_).
  { intros p; rewrite in_map_iff; split.
    - intros (sh & Hp & Hin). apply filter_In in Hin; destruct Hin as (Hin & Hc).
      unfold covers in Hc; apply andb_true_iff in Hc; destruct Hc as (Hg & Hon).
      apply in_group_iff in Hg; destruct Hg as (Hper & Hteam).
      destruct (on_ice_is_interval _ _ Hon) as (s & e & Hi & Hse).
      exists sh, s, e; auto 7.
    - intros (sh & s & e & Hin & Hper & Hteam & Hp & Hi & Hse).
      exists sh; split; [exact Hp |].
      apply filter_In; split; [exact Hin |].
      unfold covers; apply andb_true_iff; split.
      + apply in_group_iff; auto.
      + apply (is_interval_on_ice _ _ _ t Hi); exact Hse. }
  split; [apply query_of_group; assumption |].
  split; [reflexivity |].
  split; [intros sh s e Hi; apply is_interval_on_ice; exact Hi |].
  split; [exact Hmem |].
  intros sh s e Hin Hper Hteam Hi Huniq; rewrite Hmem; split.
  - intros (sh' & s' & e' & Hin' & Hper' & Hteam' & Hp & Hi' & Hse).
    rewrite (Huniq sh' Hin' Hper' Hteam' Hp) in Hi'.
    pose proof (is_interval_bounds _ _ _ Hi) as B.
    pose proof (is_interval_bounds _ _ _ Hi') as B'.
    rewrite B in B'; inversion B'; subst; exact Hse.
  - intros Hse; exists sh, s, e; auto 7.
Qed.

Lemma boundary_law_witness :
  exists players,
    get_players_on_ice game_shifts 1 (Some "00:30") (Some "WSH") = Ok players /\
    players = [8471214] /\
    In 8471214 players.
Proof.
  assert (Ht : convert_time_to_seconds (Some "00:30") = Ok (Some 30))
    by reflexivity.
  assert (Hwf : forall sh, In sh game_shifts -> period sh = 1 ->
                  teamAbbrev sh = "WSH" -> well_formed sh).
  { intros sh [<- | [<- | []]] _ Hteam; [| discriminate Hteam].
    right; exists 0, 60.
    split; [discriminate | split; reflexivity]. }
  destruct (proj1 boundary_law game_shifts 1 (Some "00:30") "WSH" 30
              ltac:(discriminate) Ht Hwf)
    as (players & Hq & Hlist & _ & Hmem & _).
  exists players; split; [exact Hq |].
  split; [exact Hlist |].
  apply Hmem; exists shift_0_60, 0, 60.
  split; [left; reflexivity |].
  split; [reflexivity |]. split; [reflexivity |]. split; [reflexivity |].
  split; [| lia].
  split; [discriminate | split; reflexivity].
Defined.

(** ** Repeated players in the answer of the query *)

Lemma NoDup_map_filter {A B : Type} (f : A -> B) (P : A -> bool) (l : list A) :
  (forall i j a b, i <> j ->
     nth_error l i = Some a -> nth_error l j = Some b ->
     P a = true -> P b = true -> f a <> f b) ->
  NoDup (map f (filter P l)).
Proof.
  induction l as [| a l IH]; intros H; simpl.
  - constructor.
  - assert (Hl : NoDup (map f (filter P l))).
    { apply IH; intros i j x y Hij Hi Hj.
      apply (H (S i) (S j)); simpl; auto. }
    destruct (P a) eqn:Pa; [| exact Hl].
    simpl; constructor; [| exact Hl].
    rewrite in_map_iff; intros (b & Hfb & Hin).
    apply filter_In in Hin; destruct Hin as (Hin & Pb).
    apply In_nth_error in Hin; destruct Hin as (j & Hj).
    apply (H 0%nat (S j) a b); simpl; auto.
Qed.

Lemma count_occ_map_filter (P : shift -> bool) (l : list shift) (p : Z) :
  count_occ Z.eq_dec (map playerId (filter P l)) p
  = List.length (filter (fun sh => P sh && (playerId sh =? p)) l).
Proof.
  induction l as [| sh l IH]; simpl; [reflexivity |].
  destruct (P sh); simpl; [| exact IH].
  destruct (Z.eq_dec (playerId sh) p) as [E | N].
  - apply Z.eqb_eq in E; rewrite E; simpl; rewrite IH; reflexivity.
  - apply Z.eqb_neq in N; rewrite N; exact IH.
Qed.

(** C9, as the code has it.  The query returns a list with one entry per
    interval of the (team, period) group that satisfies the boundary rule,
    in the order of the shift rows: it is the list of the players of the
    rows of the frame that have that period and that team and cover the
    clock.  So a player occurs as many times as it has such intervals, hence
    at most once whenever the intervals of one player within the group do
    not overlap. *)
Theorem presence_one_entry_per_interval :
  forall (shifts_df : list shift) (per : Z) (time : option string)
         (tm : string) (t : Z),
    tm <> "" ->
    convert_time_to_seconds time = Ok (Some t) ->
    (forall sh, In sh shifts_df -> period sh = per -> teamAbbrev sh = tm ->
                well_formed sh) ->
    exists players,
      get_players_on_ice shifts_df per time (Some tm) = Ok players /\
      players = map playerId (filter (covers per tm t) shifts_df) /\
      (forall p,
         count_occ Z.eq_dec players p
         = List.length (filter (fun sh => covers per tm t sh && (playerId sh =? p))
                          shifts_df)) /\
      ((forall i j sh sh' s e s' e',
           i <> j ->
           nth_error shifts_df i = Some sh -> nth_error shifts_df j = Some sh' ->
           period sh = per -> teamAbbrev sh = tm ->
           period sh' = per -> teamAbbrev sh' = tm ->
           playerId sh = playerId sh' ->
           is_interval sh s e -> is_interval sh' s' e' ->
           e <= s' \/ e' <= s) ->
       NoDup players).
Proof.
  intros shifts_df per time tm t Htm Ht Hwf.
  exists (map playerId (filter (covers per tm t) shifts_df)).
  split; [apply query_of_group; assumption |].
  split; [reflexivity |].
  split; [intros p; apply count_occ_map_filter |].
  intros Hdisj; apply NoDup_map_filter.
  intros i j sh sh' Hij Hi Hj Hc Hc' Heq.
  unfold covers in Hc, Hc'.
  apply andb_true_iff in Hc; destruct Hc as (Hg & Hon).
  apply andb_true_iff in Hc'; destruct Hc' as (Hg' & Hon').
  apply in_group_iff in Hg; destruct Hg as (Hper & Hteam).
  apply in_group_iff in Hg'; destruct Hg' as (Hper' & Hteam').
  destruct (on_ice_is_interval _ _ Hon) as (s & e & I & B).
  destruct (on_ice_is_interval _ _ Hon') as (s' & e' & I' & B').
  destruct (Hdisj i j sh sh' s e s' e' Hij Hi Hj Hper Hteam Hper' Hteam' Heq I I');
    lia.
Qed.

Lemma presence_one_entry_per_interval_witness :
  exists players,
    get_players_on_ice game_shifts 1 (Some "00:30") (Some "WSH") = Ok players /\
    players = [8471214] /\
    NoDup players.
Proof.
  assert (Ht : convert_time_to_seconds (Some "00:30") = Ok (Some 30))
    by reflexivity.
  assert (Hwf : forall sh, In sh game_shifts -> period sh = 1 ->
                  teamAbbrev sh = "WSH" -> well_formed sh).
  { intros sh [<- | [<- | []]] _ Hteam; [| discriminate Hteam].
    right; exists 0, 60.
    split; [discriminate | split; reflexivity]. }
  destruct (presence_one_entry_per_interval
              game_shifts 1 (Some "00:30") "WSH" 30 ltac:(discriminate) Ht Hwf)
    as (players & Hq & Hlist & _ & Hnd).
  exists players; split; [exact Hq |].
  split; [exact Hlist |].
  apply Hnd; intros i j sh sh' s e s' e' Hij Hi Hj _ Hteam _ Hteam'.
  destruct i as [| [| i]]; destruct j as [| [| j]]; simpl in Hi, Hj;
    try congruence;
    try (inversion Hi; inversion Hj; subst; simpl in *; discriminate);
    try (destruct i; discriminate); try (destruct j; discriminate).
Defined.

(** C9 does not hold as stated: a player with two overlapping shift rows
    is reported twice at a time that both rows cover, whether or not the
    frame holds rows of other teams. *)
Lemma presence_repeats_player :
  get_players_on_ice overlap_shifts 1 (Some "00:45") (Some "WSH")
  = Ok [8471214; 8471214]
  /\ ~ NoDup [8471214; 8471214]
  /\ get_players_on_ice dup_shifts 1 (Some "00:45") (Some "WSH")
     = Ok [1; 1; 2; 3; 4; 5]
  /\ ~ NoDup [1; 1; 2; 3; 4; 5].
Proof.
  split; [reflexivity |].
  split.
  { intros H; inversion H as [| x l Hnin _]; subst.
    apply Hnin; left; reflexivity. }
  split; [reflexivity |].
  intros H; inversion H as [| x l Hnin _]; subst.
  apply Hnin; left; reflexivity.
Qed.

(** ** The clock parser and what its callers do with a malformed clock *)

Lemma py_int_cases (s : string) :
  (exists n, py_int s = Ok n) \/ py_int s = Raise ValueError.
Proof.
  unfold py_int.
  destruct (digits_value 0 false _); [| right; reflexivity].
  destruct (max_str_digits <? _); [right; reflexivity | left; eauto].
Qed.

Lemma convert_two_fields (s mm ss : string) :
  split_colon s = [mm; ss] ->
  convert_time_to_seconds (Some s)
  = (m <- py_int mm ;; sec <- py_int ss ;; Ok (Some (m * 60 + sec))).
Proof. intros H; simpl; rewrite H; reflexivity. Qed.

Lemma convert_other_fields (s : string) :
  List.length (split_colon s) <> 2%nat ->
  convert_time_to_seconds (Some s) = Ok None.
Proof.
  intros H; simpl.
  destruct (split_colon s) as [| a [| b [| c l]]]; try reflexivity.
  exfalso; apply H; reflexivity.
Qed.



(** C6, as the code has it.  The parser returns the absent value for a
    missing clock, for the empty string and for any string that does not
    split into exactly two fields; it returns [minutes * 60 + seconds] for
    two fields that [int] accepts; and it raises ValueError for two fields
    of which one is not a number.  No caller catches that error: the on-ice
    query, the enrichment of the event and the whole enrichment abort. *)
Theorem clock_parser_cases :
  convert_time_to_seconds None = Ok None
  /\ convert_time_to_seconds (Some "") = Ok None
  /\ (forall s, List.length (split_colon s) <> 2%nat ->
        convert_time_to_seconds (Some s) = Ok None)
  /\ (forall s mm ss m sec,
        split_colon s = [mm; ss] -> py_int mm = Ok m -> py_int ss = Ok sec ->
        convert_time_to_seconds (Some s) = Ok (Some (m * 60 + sec)))
  /\ (forall s mm ss,
        split_colon s = [mm; ss] ->
        py_int mm = Raise ValueError \/ py_int ss = Raise ValueError ->
        convert_time_to_seconds (Some s) = Raise ValueError
        /\ (forall shifts_df per team,
              get_players_on_ice shifts_df per (Some s) team = Raise ValueError)
        /\ (forall shifts_df home_team away_team p per,
              timeInPeriod p = Some s -> periodNumber p = Some per ->
              enrich_play shifts_df home_team away_team p = Raise ValueError)
        /\ (forall shifts_df plays p per,
              In p plays ->
              timeInPeriod p = Some s -> periodNumber p = Some per ->
              raises (combine_pbp_with_shifts (Some plays) (Some shifts_df)))).
Proof.
  split; [reflexivity |].
  split; [reflexivity |].
  split; [exact convert_other_fields |].
  split.
  { intros s mm ss m sec Hs Hm Hsec.
    rewrite (convert_two_fields _ _ _ Hs), Hm, Hsec; reflexivity. }
  intros s mm ss Hs Hbad.
  { assert (Hc : convert_time_to_seconds (Some s) = Raise ValueError).
    { rewrite (convert_two_fields _ _ _ Hs).
      destruct Hbad as [Hm | Hsec]; [rewrite Hm; reflexivity |].
      destruct (py_int_cases mm) as [(n & Hn) | Hn]; rewrite Hn; simpl;
        [rewrite Hsec |]; reflexivity. }
    assert (Hq : forall shifts_df per team,
               get_players_on_ice shifts_df per (Some s) team = Raise ValueError).
    { intros; unfold get_players_on_ice; rewrite Hc; reflexivity. }
    assert (He : forall shifts_df home_team away_team p per,
               timeInPeriod p = Some s -> periodNumber p = Some per ->
               enrich_play shifts_df home_team away_team p = Raise ValueError).
    { intros shifts_df h a p per Ht Hp; unfold enrich_play.
      rewrite Ht, Hp, Hq; reflexivity. }
    repeat split; auto.
    intros shifts_df plays p per Hin Ht Hp.
    unfold combine_pbp_with_shifts.
    destruct (team_at shifts_df 0) as [h | e]; [| exists e; reflexivity].
    destruct (team_at shifts_df 1) as [a | e]; [| exists e; reflexivity].
    simpl.
    assert (R : raises (enrich_rows shifts_df h a plays)).
    { clear - Hin Ht Hp He.
      induction plays as [| q plays IH]; [destruct Hin |]; simpl.
      destruct Hin as [-> | Hin].
      - rewrite (He shifts_df h a p per Ht Hp); exists ValueError; reflexivity.
      - destruct (enrich_play shifts_df h a q) as [x | e];
          [| exists e; reflexivity]; simpl.
        destruct (IH Hin) as (e & ->); exists e; reflexivity. }
    destruct R as (e & ->); exists e; reflexivity. }
Qed.

Lemma clock_parser_cases_witness :
  convert_time_to_seconds (Some "12:34") = Ok (Some (12 * 60 + 34))
  /\ convert_time_to_seconds (Some "1:2:3") = Ok None
  /\ raises (combine_pbp_with_shifts (Some [play_no_clock; play_bad_clock])
               (Some game_shifts)).
Proof.
  destruct clock_parser_cases as (_ & _ & H3 & H4 & H5).
  split; [apply (H4 "12:34" "12" "34"); reflexivity |].
  split; [apply H3; simpl; discriminate |].
  destruct (H5 "ab:cd" "ab" "cd") as (_ & _ & _ & H);
    [reflexivity | left; reflexivity |].
  apply (H game_shifts _ play_bad_clock 1);
    [right; left; reflexivity | reflexivity | reflexivity].
Defined.

(** C6 does not hold as stated: a clock with two fields that are not
    numbers is not turned into the absent value, and the enrichment of a
    game holding such an event aborts, which it does not for the same event
    without a clock; a clock with a single field aborts it as well. *)
Lemma malformed_clock_aborts :
  convert_time_to_seconds (Some "ab:cd") = Raise ValueError
  /\ combine_pbp_with_shifts (Some [play_bad_clock]) (Some game_shifts)
     = Raise ValueError
  /\ combine_pbp_with_shifts (Some [play_short_clock]) (Some game_shifts)
     = Raise TypeError
  /\ combine_pbp_with_shifts (Some [play_no_clock]) (Some game_shifts)
     = Ok (Some [mkEnriched play_no_clock None None 0 0]).
Proof. repeat split; reflexivity. Qed.

(** ** Event enrichment *)

Lemma enrich_play_Ok (shifts_df : list shift) (h a : string) (p : play)
    (e : enriched) :
  enrich_play shifts_df h a p = Ok e ->
  base e = p /\ consistent e /\
  (periodNumber p = None \/ timeInPeriod p = None -> no_ice_context e) /\
  (forall per, periodNumber p = Some per -> timeInPeriod p <> None ->
     exists home_players away_players,
       get_players_on_ice shifts_df per (timeInPeriod p) (Some h) = Ok home_players /\
       get_players_on_ice shifts_df per (timeInPeriod p) (Some a) = Ok away_players /\
       homePlayersOnIce e = Some home_players /\
       awayPlayersOnIce e = Some away_players).
Proof.
  unfold enrich_play, consistent, no_ice_context.
  destruct (timeInPeriod p) as [s |] eqn:Ht;
    destruct (periodNumber p) as [per |] eqn:Hp; intros H.
  - bind_inv H. bind_inv H. inversion H; subst; clear H; simpl.
    split; [reflexivity |]. split; [split; reflexivity |].
    split; [intros [? | ?]; discriminate |].
    intros per' Hper _; inversion Hper; subst. eauto 6.
  - inversion H; subst; simpl.
    split; [reflexivity |]. split; [split; reflexivity |].
    split; [intros _; repeat split |].
    intros per' Hper; discriminate.
  - inversion H; subst; simpl.
    split; [reflexivity |]. split; [split; reflexivity |].
    split; [intros _; repeat split |].
    intros per' _ Hn; contradiction.
  - inversion H; subst; simpl.
    split; [reflexivity |]. split; [split; reflexivity |].
    split; [intros _; repeat split |].
    intros per' Hper; discriminate.
Qed.

Lemma enrich_rows_Ok (shifts_df : list shift) (h a : string) :
  forall plays out,
    enrich_rows shifts_df h a plays = Ok out ->
    Forall2 (fun p e => enrich_play shifts_df h a p = Ok e) plays out.
Proof.
  induction plays as [| p plays IH]; simpl; intros out H.
  - inversion H; constructor.
  - bind_inv H. bind_inv H. inversion H; subst.
    constructor; auto.
Qed.





Lemma combine_Ok (plays : list play) (shifts_df : list shift)
    (out : list enriched) :
  combine_pbp_with_shifts (Some plays) (Some shifts_df) = Ok (Some out) ->
  exists h a,
    team_at shifts_df 0 = Ok h /\ team_at shifts_df 1 = Ok a /\
    Forall2 (fun p e => enrich_play shifts_df h a p = Ok e) plays out.
Proof.
  unfold combine_pbp_with_shifts; intros H.
  apply bind_Ok in H; destruct H as (h & Hh & H).
  apply bind_Ok in H; destruct H as (a & Ha & H).
  apply bind_Ok in H; destruct H as (rows & Hr & H).
  inversion H; subst.
  exists h, a; repeat split; auto using enrich_rows_Ok.
Qed.





(** ** Situation filter *)

Lemma isin_In (x : Z) (values : list Z) : isin x values = true <-> In x values.
Proof.
  unfold isin; rewrite existsb_exists; split.
  - intros (y & Hin & E); apply Z.eqb_eq in E; subst; exact Hin.
  - intros Hin; exists x; split; [exact Hin | apply Z.eqb_refl].
Qed.

Lemma is_corsi_event_iff (e : enriched) :
  is_corsi_event e = true <-> qualifies e.
Proof.
  unfold is_corsi_event, qualifies, shot_attempt_events.
  rewrite !andb_true_iff, isin_In, !Z.eqb_eq; tauto.
Qed.

(** C2. Situation filter.  An event is selected iff its type code is one
    of 505, 506, 507, 508, its situation code is 1551 and both on-ice
    counts are 6; the selected events are exactly the events of the frame
    for which this holds.  Hence an event with situation code 1551 whose
    counts are not 6 and 6 is excluded, and so is an event with counts 6
    and 6 whose situation code is not 1551. *)
Theorem situation_filter :
  (forall e, is_corsi_event e = true <-> qualifies e)
  /\ (forall pbp_df e,
        In e (corsi_events pbp_df) <-> In e pbp_df /\ qualifies e)
  /\ (forall pbp_df e,
        situationCode (base e) = 1551 ->
        ~ (homePlayersCount e = 6 /\ awayPlayersCount e = 6) ->
        ~ In e (corsi_events pbp_df))
  /\ (forall pbp_df e,
        homePlayersCount e = 6 -> awayPlayersCount e = 6 ->
        situationCode (base e) <> 1551 ->
        ~ In e (corsi_events pbp_df)).
Proof.
  assert (Hsel : forall pbp_df e,
             In e (corsi_events pbp_df) <-> In e pbp_df /\ qualifies e).
  { intros pbp_df e; unfold corsi_events.
    rewrite filter_In, is_corsi_event_iff; tauto. }
  split; [exact is_corsi_event_iff |].
  split; [exact Hsel |].
  split.
  - intros pbp_df e _ Hcnt Hin.
    apply Hsel in Hin; destruct Hin as (_ & _ & _ & Hh & Ha); auto.
  - intros pbp_df e _ _ Hsit Hin.
    apply Hsel in Hin; destruct Hin as (_ & _ & Hs & _); auto.
Qed.

Lemma situation_filter_witness :
  corsi_events [shot_5v6; shot_6v6; shot_6v6_1451] = [shot_6v6]
  /\ ~ In shot_5v6 (corsi_events [shot_5v6; shot_6v6; shot_6v6_1451])
  /\ ~ In shot_6v6_1451 (corsi_events [shot_5v6; shot_6v6; shot_6v6_1451]).
Proof.
  destruct situation_filter as (_ & _ & Hcnt & Hsit).
  split; [reflexivity |].
  split.
  - apply Hcnt; [reflexivity |].
    intros (H & _); discriminate H.
  - apply Hsit; [reflexivity | reflexivity | discriminate].
Defined.

(** ** Aggregation: per-player conservation *)

Section TableInvariant.

(** A property of a record that holds of the fresh record and that both
    ways of crediting a player preserve holds of every record of the table
    throughout the pass. *)
Variable P : stats -> Prop.
Hypothesis P_fresh : P (mkStats 0 0 0).
Hypothesis P_for : forall s, P s -> P (mkStats (CF s + 1) (CA s) (TOI_events s + 1)).
Hypothesis P_against : forall s, P s -> P (mkStats (CF s) (CA s + 1) (TOI_events s + 1)).

Let all_P (player_stats : player_stats_t) : Prop :=
  Forall (fun item => P (snd item)) player_stats.

Lemma update_invariant (player_stats : player_stats_t) (player_id : Z)
    (f : stats -> stats) :
  (forall s, P s -> P (f s)) ->
  all_P player_stats -> all_P (update player_stats player_id f).
Proof.
  intros Hf; unfold all_P.
  induction 1 as [| [k s] rest Hs Hrest IH]; simpl; [constructor |].
  destruct (k =? player_id); constructor; simpl in *; auto.
Qed.

Lemma credit_invariant (shooting_team own : side) (player_stats : player_stats_t)
    (player_id : Z) :
  all_P player_stats ->
  all_P (credit shooting_team own player_stats player_id).
Proof.
  intros H; unfold credit; apply update_invariant.
  - intros s Hs; destruct (side_eqb shooting_team own); simpl; auto.
  - destruct (lookup player_stats player_id); [exact H |].
    apply Forall_app; split; [exact H |].
    constructor; [exact P_fresh | constructor].
Qed.

Lemma fold_credit_invariant (shooting_team own : side) (players : list Z) :
  forall player_stats,
    all_P player_stats ->
    all_P (fold_left (credit shooting_team own) players player_stats).
Proof.
  induction players as [| p players IH]; simpl; intros ps H; [exact H |].
  apply IH, credit_invariant, H.
Qed.

Lemma process_event_invariant (player_stats player_stats' : player_stats_t)
    (event : enriched) :
  process_event player_stats event = Ok player_stats' ->
  all_P player_stats -> all_P player_stats'.
Proof.
  unfold process_event; intros H Hb.
  bind_inv H. destruct a as [[[st h] a] |]; inversion H; subst; [| exact Hb].
  unfold credit_event; auto using fold_credit_invariant.
Qed.

Lemma aggregate_invariant (events : list enriched) :
  forall player_stats player_stats',
    aggregate events player_stats = Ok player_stats' ->
    all_P player_stats -> all_P player_stats'.
Proof.
  induction events as [| event events IH]; simpl; intros ps ps' H Hb.
  - inversion H; subst; exact Hb.
  - bind_inv H. eapply IH; eauto using process_event_invariant.
Qed.

End TableInvariant.

Lemma aggregate_balanced (events : list enriched)
    (player_stats : player_stats_t) :
  aggregate events [] = Ok player_stats -> all_balanced player_stats.
Proof.
  intros H.
  refine (aggregate_invariant balanced _ _ _ events [] player_stats H _).
  - reflexivity.
  - unfold balanced; simpl; intros; lia.
  - unfold balanced; simpl; intros; lia.
  - constructor.
Qed.

Lemma aggregate_counted (events : list enriched)
    (player_stats : player_stats_t) :
  aggregate events [] = Ok player_stats ->
  Forall (fun item => counted (snd item)) player_stats.
Proof.
  intros H.
  refine (aggregate_invariant counted _ _ _ events [] player_stats H _).
  - unfold counted; simpl; lia.
  - unfold counted; simpl; intros; lia.
  - unfold counted; simpl; intros; lia.
  - constructor.
Qed.

Lemma process_event_returns (player_stats : player_stats_t) (event : enriched) :
  readable event -> exists player_stats', process_event player_stats event = Ok player_stats'.
Proof.
  unfold readable, process_event, shooting_team_of; intros H.
  destruct (shootingPlayerId (base event)) as [shooter |]; [| simpl; eauto].
  destruct H as [H | (Hh & Ha)]; [discriminate |].
  destruct (homePlayersOnIce event) as [h |]; [| contradiction].
  destruct (awayPlayersOnIce event) as [a |]; [| contradiction].
  destruct (mem shooter h); [simpl; eauto |].
  destruct (mem shooter a); simpl; eauto.
Qed.

Lemma aggregate_returns (events : list enriched) :
  Forall readable events ->
  forall player_stats, exists player_stats', aggregate events player_stats = Ok player_stats'.
Proof.
  induction 1 as [| event events He _ IH]; simpl; intros ps; [eauto |].
  destruct (process_event_returns ps event He) as (ps1 & ->); simpl; apply IH.
Qed.

(** ** Finalisation: how the returned rows relate to the table *)

Lemma finalize_player_Ok (player_dict : player_dict_t) (item : Z * stats)
    (r : stat_row) :
  finalize_player player_dict item = Ok r ->
  exists corsi_pct,
    corsi_pct_of (CF (snd item)) (CF (snd item) + CA (snd item)) = Ok corsi_pct /\
    r = mkStatRow (fst item) (get_player_name (fst item) player_dict)
          (CF (snd item)) (CA (snd item)) (CF (snd item) + CA (snd item))
          (py_round1 corsi_pct) (TOI_events (snd item)).
Proof.
  destruct item as [player_id st]; unfold finalize_player; intros H.
  bind_inv H. inversion H; subst. exists a; auto.
Qed.

Lemma finalize_Ok (player_dict : player_dict_t) :
  forall items results,
    finalize player_dict items = Ok results ->
    Forall2 (fun item r => finalize_player player_dict item = Ok r) items results.
Proof.
  induction items as [| item items IH]; simpl; intros results H.
  - inversion H; constructor.
  - bind_inv H. bind_inv H. inversion H; subst. constructor; auto.
Qed.

Lemma Forall2_In_r {A B : Type} (R : A -> B -> Prop) (l : list A) (l' : list B) :
  Forall2 R l l' -> forall b, In b l' -> exists a, In a l /\ R a b.
Proof.
  induction 1 as [| x y l l' Hxy _ IH]; intros b Hin; [destruct Hin |].
  destruct Hin as [<- | Hin]; [exists x; split; [left |]; auto |].
  destruct (IH b Hin) as (a & Ha & Hab); exists a; split; [right |]; auto.
Qed.

Lemma In_take {A : Type} (rows : list A) (indexer : list nat) (x : A) :
  In x (take rows indexer) -> In x rows.
Proof.
  unfold take; rewrite in_flat_map; intros (i & _ & Hx).
  destruct (nth_error rows i) as [r |] eqn:E; [| destruct Hx].
  destruct Hx as [<- | []]; eapply nth_error_In; eauto.
Qed.

Lemma analyze_Ok (argsort : list float -> list nat) (mean : list float -> float)
    (pbp_df : list enriched) (player_dict : player_dict_t) (rows : list corsi_row) :
  analyze_player_corsi_5v5 argsort mean pbp_df player_dict = Ok rows ->
  exists player_stats results,
    aggregate (corsi_events pbp_df) [] = Ok player_stats /\
    finalize player_dict player_stats = Ok results /\
    results <> [] /\
    rows = map (add_team_columns mean player_dict (sort_values_desc argsort results))
             (sort_values_desc argsort results).
Proof.
  unfold analyze_player_corsi_5v5; intros H.
  apply bind_Ok in H; destruct H as (ps & Hps & H).
  apply bind_Ok in H; destruct H as (results & Hres & H).
  exists ps, results.
  destruct results as [| r results]; [discriminate |].
  inversion H; subst; repeat split; auto; discriminate.
Qed.

(** Every returned row carries the counters of one item of the table. *)
Lemma analyze_row_item (argsort : list float -> list nat)
    (mean : list float -> float) (pbp_df : list enriched)
    (player_dict : player_dict_t) (rows : list corsi_row) :
  analyze_player_corsi_5v5 argsort mean pbp_df player_dict = Ok rows ->
  exists player_stats,
    aggregate (corsi_events pbp_df) [] = Ok player_stats /\
    forall r, In r rows ->
      exists item corsi_pct,
        In item player_stats /\
        corsi_pct_of (CF (snd item)) (CF (snd item) + CA (snd item)) = Ok corsi_pct /\
        row_playerId r = fst item /\
        row_CF r = CF (snd item) /\
        row_CA r = CA (snd item) /\
        row_CF_plus_CA r = CF (snd item) + CA (snd item) /\
        row_TOI_events r = TOI_events (snd item) /\
        row_Corsi_pct r = py_round1 corsi_pct.
Proof.
  intros H; destruct (analyze_Ok _ _ _ _ _ H) as (ps & results & Hps & Hres & _ & ->).
  exists ps; split; [exact Hps |].
  intros r Hin; apply in_map_iff in Hin; destruct Hin as (sr & <- & Hin).
  apply In_take in Hin.
  destruct (Forall2_In_r _ _ _ (finalize_Ok _ _ _ Hres) sr Hin) as (item & Hitem & Hf).
  destruct (finalize_player_Ok _ _ _ Hf) as (pct & Hpct & ->).
  exists item, pct; simpl; repeat split; auto.
Qed.

(** C4. Per-player conservation.  After the aggregation pass over any
    sequence of events, every record of the table has [CF + CA] equal to
    its event counter [TOI_events], and so has every row of the frame that
    the analysis returns, whose [CF_plus_CA] column is that sum.  The pass
    completes on every sequence of events the aggregation can read. *)
Theorem per_player_conservation :
  (forall events player_stats,
      aggregate events [] = Ok player_stats ->
      forall player_id s,
        In (player_id, s) player_stats -> CF s + CA s = TOI_events s)
  /\ (forall argsort mean pbp_df player_dict rows,
        analyze_player_corsi_5v5 argsort mean pbp_df player_dict = Ok rows ->
        forall r, In r rows ->
          row_CF r + row_CA r = row_TOI_events r /\
          row_CF_plus_CA r = row_TOI_events r)
  /\ (forall events,
        Forall readable events ->
        exists player_stats, aggregate events [] = Ok player_stats).
Proof.
  assert (Hagg : forall events player_stats,
             aggregate events [] = Ok player_stats ->
             forall player_id s,
               In (player_id, s) player_stats -> CF s + CA s = TOI_events s).
  { intros events ps H player_id s Hin.
    assert (Hb : all_balanced ps) by (eapply aggregate_balanced; exact H).
    unfold all_balanced in Hb; rewrite Forall_forall in Hb.
    exact (Hb _ Hin). }
  split; [exact Hagg |].
  split.
  - intros argsort mean pbp_df player_dict rows H r Hin.
    destruct (analyze_row_item _ _ _ _ _ H) as (ps & Hps & Hrows).
    destruct (Hrows r Hin)
      as ([pid s] & pct & Hitem & _ & _ & HCF & HCA & Hsum & HTOI & _).
    simpl in *. pose proof (Hagg _ _ Hps pid s Hitem). lia.
  - intros events Hr; apply (aggregate_returns events Hr []).
Qed.

Lemma per_player_conservation_witness :
  exists player_stats,
    aggregate (corsi_events [shot_5v6; shot_6v6]) [] = Ok player_stats /\
    forall s, In (1, s) player_stats -> CF s + CA s = TOI_events s.
Proof.
  destruct per_player_conservation as (Hagg & _ & Hret).
  destruct (Hret (corsi_events [shot_5v6; shot_6v6])) as (ps & Hps).
  - apply Forall_cons; [| apply Forall_nil].
    right; split; discriminate.
  - exists ps; split; [exact Hps |].
    intros s Hin; exact (Hagg _ _ Hps 1 s Hin).
Defined.

(** ** Aggregation: what one event credits *)

Lemma lookup_update (player_stats : player_stats_t) (p q : Z) (f : stats -> stats) :
  lookup (update player_stats p f) q
  = if q =? p then option_map f (lookup player_stats p) else lookup player_stats q.
Proof.
  induction player_stats as [| [k s] rest IH]; simpl.
  - destruct (q =? p); reflexivity.
  - destruct (k =? p) eqn:Ekp; simpl.
    + apply Z.eqb_eq in Ekp; subst k.
      rewrite (Z.eqb_sym p q). destruct (q =? p); reflexivity.
    + destruct (k =? q) eqn:Ekq.
      * apply Z.eqb_eq in Ekq; subst k.
        rewrite Ekp; reflexivity.
      * exact IH.
Qed.

Lemma lookup_app_new (player_stats : player_stats_t) (p q : Z) (s : stats) :
  lookup player_stats p = None ->
  lookup (player_stats ++ [(p, s)]) q
  = if q =? p then Some s else lookup player_stats q.
Proof.
  induction player_stats as [| [k s0] rest IH]; simpl; intros H.
  - rewrite (Z.eqb_sym p q); reflexivity.
  - destruct (k =? p) eqn:Ekp; [discriminate |].
    destruct (k =? q) eqn:Ekq; [| exact (IH H)].
    apply Z.eqb_eq in Ekq; subst k; rewrite Ekp; reflexivity.
Qed.

(** The counters of [q] after one turn of an inner loop on player [p]. *)
Lemma credit_counters (shooting_team own : side) (player_stats : player_stats_t)
    (p q : Z) :
  CF_of (credit shooting_team own player_stats p) q
  = CF_of player_stats q
    + (if (q =? p) && side_eqb shooting_team own then 1 else 0)
  /\
  CA_of (credit shooting_team own player_stats p) q
  = CA_of player_stats q
    + (if (q =? p) && negb (side_eqb shooting_team own) then 1 else 0).
Proof.
  unfold CF_of, CA_of, credit.
  rewrite lookup_update.
  destruct (lookup player_stats p) as [s |] eqn:Hp.
  - destruct (q =? p) eqn:Eqp; simpl.
    + apply Z.eqb_eq in Eqp; subst q; rewrite Hp; simpl.
      destruct (side_eqb shooting_team own); simpl; lia.
    + lia.
  - rewrite (lookup_app_new _ p p _ Hp), Z.eqb_refl.
    destruct (q =? p) eqn:Eqp; simpl.
    + apply Z.eqb_eq in Eqp; subst q; rewrite Hp.
      destruct (side_eqb shooting_team own); simpl; lia.
    + rewrite (lookup_app_new _ p q _ Hp), Eqp; lia.
Qed.

Lemma occurrences_cons (q p : Z) (players : list Z) :
  occurrences q (p :: players)
  = (if q =? p then 1 else 0) + occurrences q players.
Proof.
  unfold occurrences; simpl.
  destruct (Z.eq_dec p q) as [E | N].
  - subst; rewrite Z.eqb_refl; lia.
  - rewrite (proj2 (Z.eqb_neq q p)); [lia | congruence].
Qed.

Lemma fold_credit_counters (shooting_team own : side) (players : list Z) (q : Z) :
  forall player_stats,
    CF_of (fold_left (credit shooting_team own) players player_stats) q
    = CF_of player_stats q
      + (if side_eqb shooting_team own then occurrences q players else 0)
    /\
    CA_of (fold_left (credit shooting_team own) players player_stats) q
    = CA_of player_stats q
      + (if side_eqb shooting_team own then 0 else occurrences q players).
Proof.
  induction players as [| p players IH]; intros ps; cbn [fold_left].
  - unfold occurrences; simpl; destruct (side_eqb shooting_team own); lia.
  - destruct (IH (credit shooting_team own ps p)) as (-> & ->).
    destruct (credit_counters shooting_team own ps p q) as (-> & ->).
    rewrite occurrences_cons.
    destruct (side_eqb shooting_team own), (q =? p); cbn [andb negb]; lia.
Qed.

Lemma credit_event_counters (st : side) (h a : list Z)
    (player_stats : player_stats_t) (q : Z) :
  CF_of (credit_event st h a player_stats) q
  = CF_of player_stats q + occurrences q (shooting_list st h a)
  /\
  CA_of (credit_event st h a player_stats) q
  = CA_of player_stats q + occurrences q (defending_list st h a).
Proof.
  unfold credit_event.
  destruct (fold_credit_counters st away a q
              (fold_left (credit st home) h player_stats)) as (-> & ->).
  destruct (fold_credit_counters st home h q player_stats) as (-> & ->).
  destruct st; simpl; lia.
Qed.

(** ** Aggregation: sums over a roster *)








Lemma shooting_team_of_lists (event : enriched) (st : side) (h a : list Z) :
  shooting_team_of event = Ok (Some (st, h, a)) ->
  homePlayersOnIce event = Some h /\ awayPlayersOnIce event = Some a.
Proof.
  unfold shooting_team_of.
  destruct (shootingPlayerId (base event)) as [shooter |]; [| discriminate].
  destruct (homePlayersOnIce event) as [h' |]; [| discriminate].
  destruct (awayPlayersOnIce event) as [a' |]; [| discriminate].
  destruct (mem shooter h'); [intros H; inversion H; auto |].
  destruct (mem shooter a'); intros H; inversion H; auto.
Qed.








(** ** Finalisation: the percentage *)

Lemma round_half_even_div_nearest (n d : Z) :
  0 < d ->
  2 * Z.abs (n - round_half_even_div n d * d) <= d /\
  (2 * Z.abs (n - round_half_even_div n d * d) = d ->
   Z.even (round_half_even_div n d) = true).
Proof.
  intros Hd; unfold round_half_even_div.
  pose proof (Z.div_mod n d ltac:(lia)) as Hn.
  pose proof (Z.mod_pos_bound n d Hd) as Hr.
  set (q := n / d) in *; set (r := n mod d) in *.
  destruct (Z.compare_spec (2 * r) d) as [E | L | G].
  - destruct (Z.even q) eqn:Ev.
    + split; [| intros _; exact Ev].
      replace (n - q * d) with r by lia. rewrite Z.abs_eq; lia.
    + split.
      * replace (n - (q + 1) * d) with (r - d) by lia. rewrite Z.abs_neq; lia.
      * intros _. replace (q + 1) with (Z.succ q) by lia.
        rewrite Z.even_succ, <- Z.negb_even, Ev; reflexivity.
  - replace (n - q * d) with r by lia. rewrite Z.abs_eq; lia.
  - replace (n - (q + 1) * d) with (r - d) by lia. rewrite Z.abs_neq; lia.
Qed.

Lemma corsi_pct_of_returns (cf total_attempts : Z) :
  exists corsi_pct, corsi_pct_of cf total_attempts = Ok corsi_pct.
Proof.
  unfold corsi_pct_of, py_true_div.
  destruct (Z.ltb_spec 0 total_attempts) as [Hpos | Hzero]; [| eauto].
  rewrite (proj2 (Z.eqb_neq total_attempts 0)) by lia; simpl; eauto.
Qed.

Lemma finalize_player_returns (player_dict : player_dict_t) (item : Z * stats) :
  exists r, finalize_player player_dict item = Ok r.
Proof.
  destruct item as [player_id st]; unfold finalize_player.
  destruct (corsi_pct_of_returns (CF st) (CF st + CA st)) as (pct & ->).
  simpl; eauto.
Qed.

Lemma finalize_returns (player_dict : player_dict_t) (items : player_stats_t) :
  exists results, finalize player_dict items = Ok results.
Proof.
  induction items as [| item items (results & IH)]; simpl; [eauto |].
  destruct (finalize_player_returns player_dict item) as (r & ->); simpl.
  rewrite IH; simpl; eauto.
Qed.

(** The two scenarios of the specification: one home shot, then one shot by
    each side, with six players a side. *)
Lemma scenario_one_event :
  option_map (map (fun r => (row_playerId r, row_CF r, row_CA r, row_Corsi_pct r)))
    (match analyze_player_corsi_5v5 (insertion_argsort true) group_mean
             [shot_6v6] dict_two_teams with
     | Ok rows => Some rows
     | Raise _ => None
     end)
  = Some [ (1, 1, 0, hundred); (2, 1, 0, hundred); (3, 1, 0, hundred);
           (4, 1, 0, hundred); (5, 1, 0, hundred); (6, 1, 0, hundred);
           (7, 0, 1, S754_zero false); (8, 0, 1, S754_zero false);
           (9, 0, 1, S754_zero false); (10, 0, 1, S754_zero false);
           (11, 0, 1, S754_zero false); (12, 0, 1, S754_zero false) ].
Proof. vm_compute; reflexivity. Qed.

Lemma scenario_two_events :
  option_map (map (fun r => (row_playerId r, row_CF r, row_CA r,
                             row_Corsi_pct r, row_Corsi_rel r)))
    (match analyze_player_corsi_5v5 (insertion_argsort true) group_mean
             [shot_6v6; shot_6v6_away] dict_two_teams with
     | Ok rows => Some rows
     | Raise _ => None
     end)
  = Some (map (fun p => (p, 1, 1, fifty, S754_zero false))
            [1; 2; 3; 4; 5; 6; 7; 8; 9; 10; 11; 12]).
Proof. vm_compute; reflexivity. Qed.

(** ** The player dictionary *)

Lemma take_map {A B : Type} (g : A -> B) (rows : list A) (indexer : list nat) :
  map g (take rows indexer) = take (map g rows) indexer.
Proof.
  unfold take; induction indexer as [| i indexer IH]; simpl; [reflexivity |].
  rewrite map_app, IH, nth_error_map.
  destruct (nth_error rows i); reflexivity.
Qed.

Lemma finalize_numbers (d1 d2 : player_dict_t) :
  forall player_stats r1 r2,
    finalize d1 player_stats = Ok r1 -> finalize d2 player_stats = Ok r2 ->
    map res_numbers r1 = map res_numbers r2.
Proof.
  induction player_stats as [| item items IH]; simpl; intros r1 r2 H1 H2.
  - inversion H1; inversion H2; reflexivity.
  - apply bind_Ok in H1; destruct H1 as (x1 & Hx1 & H1).
    apply bind_Ok in H1; destruct H1 as (xs1 & Hxs1 & H1).
    apply bind_Ok in H2; destruct H2 as (x2 & Hx2 & H2).
    apply bind_Ok in H2; destruct H2 as (xs2 & Hxs2 & H2).
    inversion H1; inversion H2; subst; simpl.
    rewrite (IH xs1 xs2 Hxs1 Hxs2).
    destruct (finalize_player_Ok _ _ _ Hx1) as (p1 & Hp1 & ->).
    destruct (finalize_player_Ok _ _ _ Hx2) as (p2 & Hp2 & ->).
    rewrite Hp1 in Hp2; inversion Hp2; reflexivity.
Qed.

Lemma sort_values_desc_numbers (argsort : list float -> list nat)
    (r1 r2 : list stat_row) :
  map res_numbers r1 = map res_numbers r2 ->
  map res_numbers (sort_values_desc argsort r1)
  = map res_numbers (sort_values_desc argsort r2).
Proof.
  intros H; unfold sort_values_desc.
  assert (Hpct : map res_Corsi_pct r1 = map res_Corsi_pct r2).
  { replace res_Corsi_pct with (fun r => snd (res_numbers r)) by reflexivity.
    rewrite <- !(map_map res_numbers snd), H; reflexivity. }
  rewrite !take_map, Hpct, H; reflexivity.
Qed.

Lemma team_avg_corsi_numbers (mean : list float -> float)
    (d1 d2 : player_dict_t) (s1 s2 : list stat_row) (t : option string) :
  (forall p, team_of d1 p = team_of d2 p) ->
  map res_numbers s1 = map res_numbers s2 ->
  team_avg_corsi mean d1 s1 t = team_avg_corsi mean d2 s2 t.
Proof.
  intros Hteam H; unfold team_avg_corsi; destruct t as [t |]; [| reflexivity].
  f_equal.
  revert s2 H; induction s1 as [| x s1 IH]; intros [| y s2] H;
    try discriminate; [reflexivity |].
  simpl in H; inversion H as [[Hid HCF HCA Hsum HTOI Hpct Hrest]]; simpl.
  rewrite Hteam, Hid.
  destruct (team_eqb (team_of d2 (res_playerId y)) (Some t)); simpl;
    rewrite (IH s2 Hrest); congruence.
Qed.

Lemma team_columns_numbers (d1 d2 : player_dict_t)
    (avg1 avg2 : option string -> float) (l1 l2 : list stat_row) :
  (forall p, team_of d1 p = team_of d2 p) ->
  (forall t, avg1 t = avg2 t) ->
  map res_numbers l1 = map res_numbers l2 ->
  map (fun r => (team_of d1 (res_playerId r),
                 np_round1 (fsub (res_Corsi_pct r)
                              (avg1 (team_of d1 (res_playerId r)))))) l1
  = map (fun r => (team_of d2 (res_playerId r),
                   np_round1 (fsub (res_Corsi_pct r)
                                (avg2 (team_of d2 (res_playerId r)))))) l2.
Proof.
  intros Hteam Hav; revert l2; induction l1 as [| a l1 IH]; intros [| b l2] H;
    try discriminate; [reflexivity |].
  simpl in H; inversion H as [[Hid HCF HCA Hsum HTOI Hpct Hrest]]; simpl.
  rewrite (IH l2 Hrest), Hteam, Hid, Hpct, Hav; reflexivity.
Qed.

(** C10, as the code has it.  Two runs of the analysis on the same events
    with different player dictionaries fail alike or return frames with the
    same players in the same order and the same CF, CA, attempts and
    percentage; the team label and the relative percentage are read off
    the dictionary's team, and are the same in both runs when the two
    dictionaries give every player the same team.  Names play no part. *)
Theorem directory_labels_only :
  forall (argsort : list float -> list nat) (mean : list float -> float)
         (pbp_df : list enriched) (d1 d2 : player_dict_t),
    match analyze_player_corsi_5v5 argsort mean pbp_df d1,
          analyze_player_corsi_5v5 argsort mean pbp_df d2 with
    | Ok rows1, Ok rows2 =>
        map row_numbers rows1 = map row_numbers rows2 /\
        ((forall p, team_of d1 p = team_of d2 p) ->
         map row_team_columns rows1 = map row_team_columns rows2)
    | Raise e1, Raise e2 => e1 = e2
    | _, _ => False
    end.
Proof.
  intros argsort mean pbp_df d1 d2; unfold analyze_player_corsi_5v5.
  destruct (aggregate (corsi_events pbp_df) []) as [ps | e]; simpl;
    [| reflexivity].
  destruct (finalize_returns d1 ps) as (r1 & H1).
  destruct (finalize_returns d2 ps) as (r2 & H2).
  rewrite H1, H2; simpl.
  pose proof (finalize_numbers d1 d2 ps r1 r2 H1 H2) as Hnum.
  destruct r1 as [| x1 r1]; destruct r2 as [| x2 r2]; try discriminate;
    [reflexivity |].
  pose proof (sort_values_desc_numbers argsort _ _ Hnum) as Hsort.
  set (s1 := sort_values_desc argsort (x1 :: r1)) in *.
  set (s2 := sort_values_desc argsort (x2 :: r2)) in *.
  split.
  - rewrite !map_map.
    replace (fun r => row_numbers (add_team_columns mean d1 s1 r))
      with res_numbers by reflexivity.
    replace (fun r => row_numbers (add_team_columns mean d2 s2 r))
      with res_numbers by reflexivity.
    exact Hsort.
  - intros Hteam; rewrite !map_map.
    apply team_columns_numbers; [exact Hteam | | exact Hsort].
    intros t; apply team_avg_corsi_numbers; assumption.
Qed.

Lemma directory_labels_only_witness :
  exists rows1 rows2,
    analyze_player_corsi_5v5 (insertion_argsort true) group_mean
      [shot_6v6; shot_6v6_away; shot_6v6] dict_two_teams = Ok rows1 /\
    analyze_player_corsi_5v5 (insertion_argsort true) group_mean
      [shot_6v6; shot_6v6_away; shot_6v6] dict_renamed = Ok rows2 /\
    map row_numbers rows1 = map row_numbers rows2 /\
    map row_team_columns rows1 = map row_team_columns rows2 /\
    map row_playerName rows1 <> map row_playerName rows2.
Proof.
  pose proof (directory_labels_only (insertion_argsort true) group_mean
                [shot_6v6; shot_6v6_away; shot_6v6] dict_two_teams dict_renamed) as H.
  destruct (analyze_player_corsi_5v5 (insertion_argsort true) group_mean
              [shot_6v6; shot_6v6_away; shot_6v6] dict_two_teams)
    as [rows1 | e1] eqn:E1; [| vm_compute in E1; discriminate E1].
  destruct (analyze_player_corsi_5v5 (insertion_argsort true) group_mean
              [shot_6v6; shot_6v6_away; shot_6v6] dict_renamed)
    as [rows2 | e2] eqn:E2; [| vm_compute in E2; discriminate E2].
  destruct H as (Hnum & Hteam).
  exists rows1, rows2.
  split; [reflexivity |]. split; [reflexivity |].
  split; [exact Hnum |].
  split.
  - apply Hteam; intros p; unfold team_of, dict_two_teams, dict_renamed.
    destruct (p <=? 6); [reflexivity |]. destruct (p <=? 12); reflexivity.
  - vm_compute in E1; vm_compute in E2.
    inversion E1; inversion E2; subst; vm_compute; discriminate.
Defined.

(** C10 does not hold as stated: the relative percentage is computed from
    the team that the dictionary gives each player.  With six home players
    at 100.0 and six away players at 0.0, a dictionary with two teams gives
    every player a relative percentage of 0.0, and a dictionary that files
    all twelve under one team gives +50.0 and -50.0. *)
Lemma directory_changes_relative :
  exists rows1 rows2,
    analyze_player_corsi_5v5 (insertion_argsort true) group_mean
      [shot_6v6] dict_two_teams = Ok rows1 /\
    analyze_player_corsi_5v5 (insertion_argsort true) group_mean
      [shot_6v6] dict_one_team = Ok rows2 /\
    map row_Corsi_rel rows1 = repeat (S754_zero false) 12 /\
    map row_Corsi_rel rows2 = repeat fifty 6 ++ repeat (SFopp fifty) 6 /\
    map row_Corsi_rel rows1 <> map row_Corsi_rel rows2.
Proof.
  eexists; eexists.
  split; [vm_compute; reflexivity |].
  split; [vm_compute; reflexivity |].
  split; [vm_compute; reflexivity |].
  split; [vm_compute; reflexivity |].
  vm_compute; discriminate.
Qed.

(** ** Floating point: the percentage is never NaN *)

Lemma shr_1_nonneg (mrs : shr_record) :
  0 <= shr_m mrs -> 0 <= shr_m (shr_1 mrs).
Proof.
  destruct mrs as [m r s]; simpl.
  destruct m as [| [p | p |] | [p | p |]]; simpl; lia.
Qed.

Lemma iter_pos_invariant {A : Type} (Q : A -> Prop) (g : A -> A) :
  (forall x, Q x -> Q (g x)) ->
  forall p x, Q x -> Q (iter_pos g p x).
Proof.
  intros Hg; induction p as [p IH | p IH |]; simpl; intros x Hx; auto.
Qed.

Lemma shr_nonneg (mrs : shr_record) (e n : Z) :
  0 <= shr_m mrs -> 0 <= shr_m (fst (shr mrs e n)).
Proof.
  intros H; unfold shr; destruct n as [| p | p]; simpl; try exact H.
  apply (iter_pos_invariant (fun r => 0 <= shr_m r)); [exact shr_1_nonneg | exact H].
Qed.

Lemma shr_fexp_nonneg (m e : Z) (l : location) :
  0 <= m -> 0 <= shr_m (fst (shr_fexp prec emax m e l)).
Proof.
  intros H; unfold shr_fexp; apply shr_nonneg.
  destruct l as [| []]; simpl; exact H.
Qed.

Lemma round_nearest_even_nonneg (mx : Z) (lx : location) :
  0 <= mx -> 0 <= round_nearest_even mx lx.
Proof.
  intros H; unfold round_nearest_even.
  destruct lx as [| []]; try destruct (Z.even mx); lia.
Qed.

Lemma binary_round_aux_not_nan (sx : bool) (mx ex : Z) (lx : location) :
  0 <= mx -> is_nan (binary_round_aux prec emax sx mx ex lx) = false.
Proof.
  intros H; unfold binary_round_aux.
  pose proof (shr_fexp_nonneg mx ex lx H) as H1.
  destruct (shr_fexp prec emax mx ex lx) as [mrs' e']; simpl in H1.
  pose proof (shr_fexp_nonneg
                (round_nearest_even (shr_m mrs') (loc_of_shr_record mrs'))
                e' loc_Exact (round_nearest_even_nonneg _ _ H1)) as H2.
  destruct (shr_fexp prec emax _ e' loc_Exact) as [mrs'' e'']; simpl in H2.
  destruct (shr_m mrs'') as [| m | m]; [reflexivity | | lia].
  destruct (e'' <=? emax - prec); reflexivity.
Qed.

Lemma fdiv_finite_not_nan (x : float) (sy : bool) (my : positive) (ey : Z) :
  is_nan x = false ->
  (forall s, x <> S754_infinity s) ->
  is_nan (fdiv x (S754_finite sy my ey)) = false.
Proof.
  intros Hx Hinf; destruct x as [s | s | | s m e].
  - reflexivity.
  - exfalso; exact (Hinf s eq_refl).
  - discriminate Hx.
  - unfold fdiv, SFdiv, SFdiv_core_binary.
    set (m' := match _ with Z0 => Zpos m | Zpos _ => _ | Zneg _ => 0 end).
    assert (Hm' : 0 <= m').
    { subst m'; destruct (_ - _ - _) as [| p | p]; try lia.
      apply Z.shiftl_nonneg; lia. }
    pose proof (Z.div_pos m' (Zpos my) Hm' ltac:(lia)) as Hq.
    unfold Z.div in Hq.
    destruct (Z.div_eucl m' (Zpos my)) as [q r]; simpl in Hq.
    apply binary_round_aux_not_nan; exact Hq.
Qed.

Lemma fmul_finite_not_nan (x : float) (sy : bool) (my : positive) (ey : Z) :
  is_nan x = false -> is_nan (fmul x (S754_finite sy my ey)) = false.
Proof.
  intros Hx; destruct x as [s | s | | s m e].
  - reflexivity.
  - reflexivity.
  - discriminate Hx.
  - unfold fmul, SFmul; apply binary_round_aux_not_nan; lia.
Qed.

Lemma py_round1_not_nan (x : float) :
  is_nan x = false -> is_nan (py_round1 x) = false.
Proof.
  intros Hx; destruct x as [s | s | | s m e]; try exact Hx.
  unfold py_round1.
  destruct (tenths m e) as [| k | k]; try reflexivity.
  apply fdiv_finite_not_nan; [reflexivity | discriminate].
Qed.

Lemma corsi_pct_of_not_nan (cf total_attempts : Z) (corsi_pct : float) :
  corsi_pct_of cf total_attempts = Ok corsi_pct -> is_nan corsi_pct = false.
Proof.
  unfold corsi_pct_of, py_true_div.
  destruct (Z.ltb_spec 0 total_attempts) as [Hpos | Hzero].
  - rewrite (proj2 (Z.eqb_neq total_attempts 0)) by lia; simpl.
    intros H; inversion H; subst; clear H.
    apply fmul_finite_not_nan.
    destruct total_attempts as [| p | p]; try lia; simpl.
    apply fdiv_finite_not_nan; destruct cf; simpl; try reflexivity; discriminate.
  - intros H; inversion H; reflexivity.
Qed.

Lemma finalize_not_nan (player_dict : player_dict_t)
    (player_stats : player_stats_t) (results : list stat_row) :
  finalize player_dict player_stats = Ok results ->
  Forall (fun v => is_nan v = false) (map res_Corsi_pct results).
Proof.
  intros H; apply Forall_forall; intros v Hv.
  apply in_map_iff in Hv; destruct Hv as (r & <- & Hr).
  destruct (Forall2_In_r _ _ _ (finalize_Ok _ _ _ H) r Hr) as (item & _ & Hf).
  destruct (finalize_player_Ok _ _ _ Hf) as (pct & Hpct & ->); simpl.
  apply py_round1_not_nan, (corsi_pct_of_not_nan _ _ _ Hpct).
Qed.

(** ** Sorting: fancy indexing *)

Lemma take_app {A : Type} (rows : list A) (i1 i2 : list nat) :
  take rows (i1 ++ i2) = take rows i1 ++ take rows i2.
Proof. unfold take; apply flat_map_app. Qed.

Lemma take_rev {A : Type} (rows : list A) (indexer : list nat) :
  take rows (rev indexer) = rev (take rows indexer).
Proof.
  induction indexer as [| i indexer IH]; simpl; [reflexivity |].
  rewrite take_app, IH; unfold take at 2 3; simpl.
  rewrite rev_app_distr, app_nil_r.
  destruct (nth_error rows i); reflexivity.
Qed.

(** Indexing through the reversed positions is indexing the reversed rows. *)
Lemma take_reversed_positions {A : Type} (rows : list A) (indexer : list nat) :
  take rows (take (rev (seq 0 (List.length rows))) indexer)
  = take (rev rows) indexer.
Proof.
  induction indexer as [| j indexer IH]; [reflexivity |].
  change (j :: indexer) with ([j] ++ indexer).
  rewrite !(take_app _ [j] indexer), take_app, IH; f_equal.
  unfold take; simpl; rewrite !app_nil_r.
  rewrite !nth_error_rev, length_seq.
  destruct (Nat.ltb_spec j (List.length rows)) as [Hj | Hj]; [| reflexivity].
  rewrite nth_error_seq.
  rewrite (proj2 (Nat.ltb_lt _ _)) by lia; simpl.
  rewrite app_nil_r; reflexivity.
Qed.

Lemma take_all_shifted {A : Type} (rows : list A) :
  forall pre, take (pre ++ rows) (seq (List.length pre) (List.length rows)) = rows.
Proof.
  induction rows as [| r rows IH]; intros pre; [reflexivity |].
  simpl List.length; simpl seq.
  change (List.length pre :: seq (S (List.length pre)) (List.length rows))
    with ([List.length pre] ++ seq (S (List.length pre)) (List.length rows)).
  rewrite take_app; unfold take at 1; simpl.
  rewrite nth_error_app2, Nat.sub_diag by lia; simpl.
  f_equal.
  replace (pre ++ r :: rows) with ((pre ++ [r]) ++ rows)
    by (rewrite <- app_assoc; reflexivity).
  replace (S (List.length pre)) with (List.length (pre ++ [r]))
    by (rewrite length_app; simpl; lia).
  apply IH.
Qed.

Lemma take_all {A : Type} (rows : list A) :
  take rows (seq 0 (List.length rows)) = rows.
Proof. apply (take_all_shifted rows []). Qed.

Lemma take_permutation {A : Type} (rows : list A) (indexer : list nat) :
  Permutation indexer (seq 0 (List.length rows)) ->
  Permutation (take rows indexer) rows.
Proof.
  intros H; rewrite <- (take_all rows) at 2.
  unfold take; apply Permutation_flat_map; exact H.
Qed.

(** ** Sorting: [sort_values] on a column without NaN *)

Lemma combine_seq_columns {A : Type} (items : list A) :
  forall start,
    map fst (combine (seq start (List.length items)) items)
    = seq start (List.length items)
    /\ map snd (combine (seq start (List.length items)) items) = items.
Proof.
  induction items as [| x items IH]; intros start; simpl; [auto |].
  destruct (IH (S start)) as (-> & ->); auto.
Qed.

Lemma filter_keep_all {A : Type} (P : A -> bool) (l : list A) :
  Forall (fun x => P x = true) l -> filter P l = l.
Proof.
  induction 1 as [| x l Hx _ IH]; simpl; [reflexivity |].
  rewrite Hx, IH; reflexivity.
Qed.

Lemma filter_keep_none {A : Type} (P : A -> bool) (l : list A) :
  Forall (fun x => P x = false) l -> filter P l = [].
Proof.
  induction 1 as [| x l Hx _ IH]; simpl; [reflexivity |].
  rewrite Hx, IH; reflexivity.
Qed.

Lemma nargsort_desc_no_nan (argsort : list float -> list nat) (items : list float) :
  Forall (fun v => is_nan v = false) items ->
  nargsort_desc argsort items
  = rev (take (rev (seq 0 (List.length items))) (argsort (rev items))).
Proof.
  intros H; unfold nargsort_desc.
  destruct (combine_seq_columns items 0%nat) as (Hfst & Hsnd).
  assert (Hcells : Forall (fun c => is_nan (snd c) = false)
                     (combine (seq 0 (List.length items)) items)).
  { apply Forall_forall; intros c Hc.
    rewrite Forall_forall in H; apply H.
    rewrite <- Hsnd; apply in_map; exact Hc. }
  rewrite filter_keep_all, filter_keep_none, Hfst, Hsnd, app_nil_r;
    [reflexivity | exact Hcells |].
  apply Forall_forall; intros c Hc.
  rewrite Forall_forall in Hcells; rewrite (Hcells c Hc); reflexivity.
Qed.

Lemma sort_values_desc_no_nan (argsort : list float -> list nat)
    (corsi_df : list stat_row) :
  Forall (fun v => is_nan v = false) (map res_Corsi_pct corsi_df) ->
  sort_values_desc argsort corsi_df
  = rev (take (rev corsi_df) (argsort (rev (map res_Corsi_pct corsi_df)))).
Proof.
  intros H; unfold sort_values_desc.
  rewrite (nargsort_desc_no_nan _ _ H), take_rev, length_map.
  rewrite take_reversed_positions; reflexivity.
Qed.

(** ** Sorting: order of the returned frame *)

Lemma StronglySorted_snoc {A : Type} (R : A -> A -> Prop) (l : list A) (x : A) :
  StronglySorted R l -> Forall (fun y => R y x) l -> StronglySorted R (l ++ [x]).
Proof.
  induction 1 as [| a l Hl IH Ha]; intros Hx; simpl.
  - repeat constructor.
  - inversion Hx; subst. constructor; [auto |].
    apply Forall_app; split; [exact Ha | repeat constructor; assumption].
Qed.

Lemma StronglySorted_rev {A : Type} (R : A -> A -> Prop) (l : list A) :
  StronglySorted R l -> StronglySorted (fun a b => R b a) (rev l).
Proof.
  induction 1 as [| a l Hl IH Ha]; simpl; [constructor |].
  apply StronglySorted_snoc; [exact IH |].
  apply Forall_rev; exact Ha.
Qed.

Lemma StronglySorted_positions {A : Type} (R : A -> A -> Prop) (l : list A) :
  StronglySorted R l ->
  forall i j a b, (i < j)%nat ->
    nth_error l i = Some a -> nth_error l j = Some b -> R a b.
Proof.
  induction 1 as [| x l Hl IH Hx]; intros i j a b Hij Hi Hj.
  - destruct i; discriminate.
  - destruct j as [| j]; [lia |]. simpl in Hj.
    destruct i as [| i]; simpl in Hi.
    + inversion Hi; subst. rewrite Forall_forall in Hx.
      apply Hx; eapply nth_error_In; eauto.
    + apply (IH i j); auto; lia.
Qed.

Lemma sort_values_desc_sorted (argsort : list float -> list nat)
    (corsi_df : list stat_row) :
  argsort_spec argsort ->
  Forall (fun v => is_nan v = false) (map res_Corsi_pct corsi_df) ->
  descending (map res_Corsi_pct (sort_values_desc argsort corsi_df)) /\
  Permutation (sort_values_desc argsort corsi_df) corsi_df.
Proof.
  intros Hspec Hnan.
  rewrite (sort_values_desc_no_nan _ _ Hnan).
  destruct (Hspec (rev (map res_Corsi_pct corsi_df)) (Forall_rev Hnan))
    as (Hperm & Hsorted).
  split.
  - rewrite map_rev, take_map, map_rev.
    unfold descending; intros i j a b Hij Hi Hj.
    apply (StronglySorted_positions _ _ (StronglySorted_rev _ _ Hsorted) i j a b);
      assumption.
  - eapply Permutation_trans; [apply Permutation_sym, Permutation_rev |].
    eapply Permutation_trans; [| apply Permutation_sym, Permutation_rev].
    apply take_permutation.
    rewrite length_rev, length_map in Hperm; rewrite length_rev; exact Hperm.
Qed.


(** ** Floating point: [<=] is a total preorder away from NaN *)

Lemma fleb_key (x y : float) :
  is_nan x = false -> is_nan y = false ->
  (fleb x y = true <-> key_le (float_key x) (float_key y)).
Proof.
  intros Hx Hy.
  destruct x as [sx | sx | | sx mx ex]; try discriminate Hx;
    destruct y as [sy | sy | | sy my ey]; try discriminate Hy;
    unfold fleb, SFleb, SFcompare, float_key, key_le;
    try (destruct sx); try (destruct sy);
    try (split; [intros H; try discriminate H; lia
                | intros H; try reflexivity; lia]).
  - change (Pos.compare_cont Eq mx my) with (Pos.compare mx my).
    destruct (Z.compare_spec ex ey); destruct (Pos.compare_spec mx my);
      simpl; split; intros Hle; try discriminate Hle; try reflexivity; lia.
  - change (Pos.compare_cont Eq mx my) with (Pos.compare mx my).
    destruct (Z.compare_spec ex ey); destruct (Pos.compare_spec mx my);
      simpl; split; intros Hle; try discriminate Hle; try reflexivity; lia.
Qed.

Lemma fleb_total (x y : float) :
  is_nan x = false -> is_nan y = false -> fleb x y = true \/ fleb y x = true.
Proof.
  intros Hx Hy; rewrite (fleb_key x y Hx Hy), (fleb_key y x Hy Hx).
  destruct (float_key x) as [[a1 a2] a3]; destruct (float_key y) as [[b1 b2] b3].
  unfold key_le; lia.
Qed.

Lemma fleb_trans (x y z : float) :
  is_nan x = false -> is_nan y = false -> is_nan z = false ->
  fleb x y = true -> fleb y z = true -> fleb x z = true.
Proof.
  intros Hx Hy Hz.
  rewrite (fleb_key x y Hx Hy), (fleb_key y z Hy Hz), (fleb_key x z Hx Hz).
  destruct (float_key x) as [[a1 a2] a3]; destruct (float_key y) as [[b1 b2] b3];
    destruct (float_key z) as [[c1 c2] c3].
  unfold key_le; lia.
Qed.

(** ** Sorting: insertion sort meets the promise of [argsort] *)

Section InsertionSort.

Variable strict : bool.
Variable items : list float.
Hypothesis items_no_nan : Forall (fun v => is_nan v = false) items.

Let cell (i : nat) : float := nth i items nan.
Let valid (i : nat) : Prop := (i < List.length items)%nat.
Let cell_le (a b : nat) : Prop := fleb (cell a) (cell b) = true.

Lemma cell_not_nan (i : nat) : valid i -> is_nan (cell i) = false.
Proof.
  intros Hi; unfold cell.
  apply (proj1 (Forall_forall _ _) items_no_nan), nth_In; exact Hi.
Qed.

Lemma goes_before_le (i j : nat) :
  valid i -> valid j ->
  goes_before strict (cell i) (cell j) = true -> cell_le i j.
Proof.
  intros Hi Hj; unfold goes_before, cell_le.
  destruct strict; [| auto].
  rewrite negb_true_iff; intros Hji.
  destruct (fleb_total (cell i) (cell j)) as [H | H];
    auto using cell_not_nan; congruence.
Qed.

Lemma goes_before_ge (i j : nat) :
  valid i -> valid j ->
  goes_before strict (cell i) (cell j) = false -> cell_le j i.
Proof.
  intros Hi Hj; unfold goes_before, cell_le.
  destruct strict.
  - rewrite negb_false_iff; auto.
  - intros Hij.
    destruct (fleb_total (cell i) (cell j)) as [H | H];
      auto using cell_not_nan; congruence.
Qed.

Lemma insert_pos_permutation (i : nat) (indexer : list nat) :
  Permutation (insert_pos strict items i indexer) (i :: indexer).
Proof.
  induction indexer as [| j rest IH]; simpl; [reflexivity |].
  destruct (goes_before strict (nth i items nan) (nth j items nan));
    [reflexivity |].
  eapply Permutation_trans; [apply perm_skip, IH | apply perm_swap].
Qed.

Lemma insert_pos_sorted (i : nat) (indexer : list nat) :
  valid i -> Forall valid indexer ->
  StronglySorted cell_le indexer ->
  StronglySorted cell_le (insert_pos strict items i indexer).
Proof.
  intros Hi Hv Hs; induction Hs as [| j rest Hrest IH Hj]; simpl.
  - repeat constructor.
  - inversion Hv as [| ? ? Hvj Hvrest]; subst.
    fold (cell i); fold (cell j).
    destruct (goes_before strict (cell i) (cell j)) eqn:G.
    + pose proof (goes_before_le i j Hi Hvj G) as Hij.
      constructor; [constructor; assumption |].
      constructor; [exact Hij |].
      apply Forall_forall; intros r Hr.
      pose proof (proj1 (Forall_forall _ _) Hj r Hr) as Hjr.
      pose proof (proj1 (Forall_forall _ _) Hvrest r Hr) as Hvr.
      unfold cell_le in *.
      apply (fleb_trans (cell i) (cell j) (cell r));
        auto using cell_not_nan.
    + pose proof (goes_before_ge i j Hi Hvj G) as Hji.
      constructor; [apply IH; exact Hvrest |].
      apply (Permutation_Forall (Permutation_sym (insert_pos_permutation i rest))).
      constructor; assumption.
Qed.

Lemma fold_insert_pos (positions : list nat) :
  forall indexer,
    Forall valid positions -> Forall valid indexer ->
    StronglySorted cell_le indexer ->
    let sorted := fold_left (fun acc i => insert_pos strict items i acc)
                    positions indexer in
    StronglySorted cell_le sorted /\
    Permutation sorted (positions ++ indexer) /\
    Forall valid sorted.
Proof.
  induction positions as [| i positions IH]; intros indexer Hp Hv Hs; simpl.
  - auto.
  - inversion Hp as [| ? ? Hi Hrest]; subst.
    assert (Hv' : Forall valid (insert_pos strict items i indexer)).
    { apply (Permutation_Forall (Permutation_sym (insert_pos_permutation i indexer))).
      constructor; assumption. }
    destruct (IH (insert_pos strict items i indexer) Hrest Hv'
                (insert_pos_sorted i indexer Hi Hv Hs)) as (S1 & P1 & V1).
    split; [exact S1 |]. split; [| exact V1].
    eapply Permutation_trans; [exact P1 |].
    eapply Permutation_trans;
      [apply Permutation_app_head, insert_pos_permutation |].
    apply Permutation_sym, Permutation_middle.
Qed.

Lemma take_valid (indexer : list nat) :
  Forall valid indexer -> take items indexer = map cell indexer.
Proof.
  induction 1 as [| i indexer Hi _ IH]; [reflexivity |].
  change (i :: indexer) with ([i] ++ indexer).
  rewrite take_app, IH; unfold take; simpl.
  rewrite (nth_error_nth' items nan Hi); reflexivity.
Qed.

Lemma insertion_argsort_sorts :
  Permutation (insertion_argsort strict items) (seq 0 (List.length items)) /\
  StronglySorted (fun a b => fleb a b = true)
    (take items (insertion_argsort strict items)).
Proof.
  assert (Hseq : Forall valid (seq 0 (List.length items))).
  { apply Forall_forall; intros i Hi; apply in_seq in Hi; unfold valid; lia. }
  destruct (fold_insert_pos (seq 0 (List.length items)) [] Hseq
              (Forall_nil _) (SSorted_nil _)) as (S1 & P1 & V1).
  fold (insertion_argsort strict items) in S1, P1, V1.
  rewrite app_nil_r in P1.
  split; [exact P1 |].
  rewrite (take_valid _ V1).
  clear - S1; induction S1 as [| i rest Hrest IH Hi]; simpl; constructor; auto.
  apply Forall_forall; intros x Hx.
  apply in_map_iff in Hx; destruct Hx as (j & <- & Hj).
  exact (proj1 (Forall_forall _ _) Hi j Hj).
Qed.

End InsertionSort.

Lemma insertion_argsort_spec (strict : bool) :
  argsort_spec (insertion_argsort strict).
Proof. intros items H; apply insertion_argsort_sorts; exact H. Qed.



(** The sort of a frame, for any routine that meets the promise of the
    default kind: the sorted frame has the rows of the frame, each as often
    as the frame has it, in descending order of percentage. *)
Theorem sorted_frame_is_a_descending_rearrangement :
  forall (argsort : list float -> list nat) (corsi_df : list stat_row),
    argsort_spec argsort ->
    Forall (fun r => is_nan (res_Corsi_pct r) = false) corsi_df ->
    Permutation (sort_values_desc argsort corsi_df) corsi_df /\
    List.length (sort_values_desc argsort corsi_df) = List.length corsi_df /\
    descending (map res_Corsi_pct (sort_values_desc argsort corsi_df)) /\
    forall r, In r (sort_values_desc argsort corsi_df) <-> In r corsi_df.
Proof.
  intros argsort corsi_df Hspec Hnan.
  assert (Hcells : Forall (fun v => is_nan v = false) (map res_Corsi_pct corsi_df)).
  { apply Forall_forall; intros x Hx.
    apply in_map_iff in Hx; destruct Hx as (r & <- & Hr).
    exact (proj1 (Forall_forall _ _) Hnan r Hr). }
  destruct (sort_values_desc_sorted argsort corsi_df Hspec Hcells) as (Hdesc & Hperm).
  split; [exact Hperm |].
  split; [exact (Permutation_length Hperm) |].
  split; [exact Hdesc |].
  intros r; split; intros Hr.
  - exact (Permutation_in r Hperm Hr).
  - exact (Permutation_in r (Permutation_sym Hperm) Hr).
Qed.

Lemma sorted_frame_is_a_descending_rearrangement_witness :
  List.length (sort_values_desc (insertion_argsort true) frame_of_four) = 4%nat /\
  descending (map res_Corsi_pct (sort_values_desc (insertion_argsort true) frame_of_four)).
Proof.
  assert (Hnan : Forall (fun r => is_nan (res_Corsi_pct r) = false) frame_of_four).
  { repeat constructor. }
  destruct (sorted_frame_is_a_descending_rearrangement (insertion_argsort true)
              frame_of_four (insertion_argsort_spec true) Hnan)
    as (_ & Hlen & Hdesc & _).
  split; [exact Hlen | exact Hdesc].
Defined.

(** ** Clock strings of the usual form *)

Lemma clock_reads_back_all :
  forallb (fun m => forallb (clock_reads_back m) (seq 0 100)) (seq 0 100) = true.
Proof. vm_compute; reflexivity. Qed.

(** Every clock "MM:SS" converts to [MM * 60 + SS]. *)
Lemma convert_clock (m s : Z) :
  0 <= m < 100 -> 0 <= s < 100 ->
  convert_time_to_seconds (Some (clock m s)) = Ok (Some (m * 60 + s)).
Proof.
  intros Hm Hs.
  pose proof clock_reads_back_all as H.
  rewrite forallb_forall in H.
  specialize (H (Z.to_nat m)).
  rewrite forallb_forall in H.
  specialize (H ltac:(apply in_seq; lia) (Z.to_nat s) ltac:(apply in_seq; lia)).
  unfold clock_reads_back in H; rewrite !Z2Nat.id in H by lia.
  destruct (convert_time_to_seconds (Some (clock m s))) as [[v |] | e];
    try discriminate H.
  apply Z.eqb_eq in H; subst; reflexivity.
Qed.

(** * Further properties of the on-ice query *)

Lemma scan_shifts_acc (t : option Z) (rows : list shift) :
  forall acc,
    scan_shifts t rows acc = (l <- scan_shifts t rows [] ;; Ok (acc ++ l)).
Proof.
  induction rows as [| sh rows IH]; intros acc; simpl.
  - rewrite app_nil_r; reflexivity.
  - destruct (shiftTypeCode sh =? 505); [apply IH |].
    destruct (convert_time_to_seconds (startTime sh)) as [s | e]; simpl;
      [| reflexivity].
    destruct (convert_time_to_seconds (endTime sh)) as [en | e]; simpl;
      [| reflexivity].
    destruct (py_lt_le s t en) as [on | e]; simpl; [| reflexivity].
    rewrite (IH (if on then acc ++ [playerId sh] else acc)).
    rewrite (IH (if on then [playerId sh] else [])).
    destruct (scan_shifts t rows []) as [l | e]; [| reflexivity]; simpl.
    destruct on; simpl; [rewrite <- app_assoc |]; reflexivity.
Qed.

Lemma scan_shifts_app (t : option Z) (rows1 rows2 : list shift) :
  forall acc,
    scan_shifts t (rows1 ++ rows2) acc
    = (l1 <- scan_shifts t rows1 acc ;; scan_shifts t rows2 l1).
Proof.
  induction rows1 as [| sh rows1 IH]; intros acc; simpl; [reflexivity |].
  destruct (shiftTypeCode sh =? 505); [apply IH |].
  destruct (convert_time_to_seconds (startTime sh)) as [s | e]; simpl;
    [| reflexivity].
  destruct (convert_time_to_seconds (endTime sh)) as [en | e]; simpl;
    [| reflexivity].
  destruct (py_lt_le s t en) as [on | e]; simpl; [| reflexivity].
  apply IH.
Qed.

Lemma period_shifts_app (df1 df2 : list shift) (per : Z) (team : option string) :
  period_shifts (df1 ++ df2) per team
  = period_shifts df1 per team ++ period_shifts df2 per team.
Proof. unfold period_shifts; rewrite !filter_app; reflexivity. Qed.

(** X1. The query over two shift frames put end to end answers with the
    answer over the first followed by the answer over the second, and fails
    with the first failure met in that order. *)
Theorem query_of_concatenation :
  forall (df1 df2 : list shift) (per : Z) (time : option string)
         (team : option string),
    get_players_on_ice (df1 ++ df2) per time team
    = (l1 <- get_players_on_ice df1 per time team ;;
       l2 <- get_players_on_ice df2 per time team ;;
       Ok (l1 ++ l2)).
Proof.
  intros df1 df2 per time team; unfold get_players_on_ice.
  rewrite period_shifts_app.
  destruct (convert_time_to_seconds time) as [t | e]; [| reflexivity]; simpl.
  rewrite scan_shifts_app.
  destruct (scan_shifts t (period_shifts df1 per team) []) as [l1 | e];
    [| reflexivity]; simpl.
  apply scan_shifts_acc.
Qed.

Lemma scan_shifts_without_goals (t : option Z) (rows : list shift) :
  forall acc,
    scan_shifts t rows acc
    = scan_shifts t (filter (fun sh => negb (shiftTypeCode sh =? 505)) rows) acc.
Proof.
  induction rows as [| sh rows IH]; intros acc; simpl; [reflexivity |].
  destruct (shiftTypeCode sh =? 505) eqn:Hc; simpl; [apply IH |].
  rewrite Hc.
  destruct (convert_time_to_seconds (startTime sh)) as [s | e]; simpl;
    [| reflexivity].
  destruct (convert_time_to_seconds (endTime sh)) as [en | e]; simpl;
    [| reflexivity].
  destruct (py_lt_le s t en) as [on | e]; simpl; [| reflexivity].
  apply IH.
Qed.

Lemma filter_filter {A : Type} (f g : A -> bool) (l : list A) :
  filter f (filter g l) = filter (fun x => g x && f x) l.
Proof.
  induction l as [| x l IH]; simpl; [reflexivity |].
  destruct (g x); simpl; [destruct (f x) |]; rewrite IH; reflexivity.
Qed.

Lemma relevant_rows (df : list shift) (per : Z) (team : option string) :
  filter (fun sh => negb (shiftTypeCode sh =? 505)) (period_shifts df per team)
  = filter (relevant per team) df.
Proof.
  unfold period_shifts, relevant; rewrite !filter_filter.
  apply filter_ext; intros sh; rewrite andb_assoc; reflexivity.
Qed.

Lemma period_shifts_relevant (df : list shift) (per : Z) (team : option string) :
  period_shifts (filter (relevant per team) df) per team
  = filter (relevant per team) df.
Proof.
  unfold period_shifts; rewrite !filter_filter.
  apply filter_ext; intros sh; unfold relevant.
  destruct (period sh =? per), (team_filter team sh),
    (negb (shiftTypeCode sh =? 505)); reflexivity.
Qed.

(** X2. The query reads only the rows of the asked period and team that
    are not goal markers: the answer, or the failure, is the one obtained
    on the frame cut down to those rows.  Goal markers and rows of other
    periods or teams have no effect, whatever their clock strings hold. *)
Theorem query_reads_relevant_rows_only :
  forall (df : list shift) (per : Z) (time : option string)
         (team : option string),
    get_players_on_ice df per time team
    = get_players_on_ice (filter (relevant per team) df) per time team.
Proof.
  intros df per time team; unfold get_players_on_ice.
  destruct (convert_time_to_seconds time) as [t | e]; [| reflexivity]; simpl.
  rewrite period_shifts_relevant.
  rewrite scan_shifts_without_goals, relevant_rows; reflexivity.
Qed.

Lemma scan_shifts_Ok_cons (t : option Z) (sh : shift) (rows : list shift)
    (l : list Z) :
  shiftTypeCode sh <> 505 ->
  scan_shifts t (sh :: rows) [] = Ok l ->
  exists (on : bool) l',
    scan_shifts t [sh] [] = Ok (if on then [playerId sh] else []) /\
    scan_shifts t rows [] = Ok l' /\
    l = (if on then [playerId sh] else []) ++ l'.
Proof.
  intros Hc H; apply Z.eqb_neq in Hc.
  cbn [scan_shifts] in *; rewrite Hc in H; rewrite Hc.
  destruct (convert_time_to_seconds (startTime sh)) as [s | e];
    [| discriminate H].
  destruct (convert_time_to_seconds (endTime sh)) as [en | e];
    [| discriminate H].
  cbn [bind] in *.
  destruct (py_lt_le s t en) as [on | e]; [| discriminate H].
  cbn [bind] in *.
  rewrite scan_shifts_acc in H.
  destruct (scan_shifts t rows []) as [l' | e]; [| discriminate H].
  cbn [bind] in H; inversion H; subst; exists on, l'.
  destruct on; auto.
Qed.

Lemma scan_shifts_goal (t : option Z) (sh : shift) (rows : list shift)
    (acc : list Z) :
  shiftTypeCode sh = 505 ->
  scan_shifts t (sh :: rows) acc = scan_shifts t rows acc.
Proof. intros Hc; simpl; rewrite Hc; reflexivity. Qed.

(** What an answer of the scan is made of. *)
Lemma scan_shifts_members (t : option Z) (rows : list shift) :
  forall l,
    scan_shifts t rows [] = Ok l ->
    (List.length l
     <= List.length
          (filter (fun sh => negb (Z.eqb (shiftTypeCode sh) 505%Z)) rows))%nat /\
    forall p, In p l ->
      exists sh, In sh rows /\ shiftTypeCode sh <> 505 /\ playerId sh = p.
Proof.
  induction rows as [| sh rows IH]; intros l H.
  - inversion H; subst; simpl; split; [lia | intros p []].
  - destruct (Z.eq_dec (shiftTypeCode sh) 505) as [Hc | Hc].
    + rewrite (scan_shifts_goal _ _ _ _ Hc) in H.
      destruct (IH l H) as (Hlen & Hmem); simpl.
      rewrite (proj2 (Z.eqb_eq _ _) Hc); simpl; split; [exact Hlen |].
      intros p Hp; destruct (Hmem p Hp) as (x & Hx & Hr); exists x; auto.
    + destruct (scan_shifts_Ok_cons t sh rows l Hc H) as (on & l' & _ & Hl' & ->).
      destruct (IH l' Hl') as (Hlen & Hmem); simpl.
      rewrite (proj2 (Z.eqb_neq _ _) Hc); simpl; split.
      * rewrite length_app; destruct on; simpl; lia.
      * intros p Hp; apply in_app_or in Hp; destruct Hp as [Hp | Hp].
        -- destruct on; [| destruct Hp].
           destruct Hp as [<- | []]; exists sh; auto.
        -- destruct (Hmem p Hp) as (x & Hx & Hr); exists x; auto.
Qed.

(** X3. Whatever the clocks of the rows are, every player of an answer has
    a shift row of the asked period and team that is not a goal marker, and
    the answer is no longer than the number of such rows. *)
Theorem query_answer_bounded :
  forall (df : list shift) (per : Z) (time : option string)
         (team : option string) (players : list Z),
    get_players_on_ice df per time team = Ok players ->
    (List.length players <= List.length (filter (relevant per team) df))%nat /\
    forall p, In p players ->
      exists sh, In sh df /\ relevant per team sh = true /\ playerId sh = p.
Proof.
  intros df per time team players H; unfold get_players_on_ice in H.
  apply bind_Ok in H; destruct H as (t & _ & H).
  destruct (scan_shifts_members t _ players H) as (Hlen & Hmem).
  rewrite relevant_rows in Hlen; split; [exact Hlen |].
  intros p Hp; destruct (Hmem p Hp) as (sh & Hin & Hc & Hid).
  exists sh; unfold period_shifts in Hin.
  apply filter_In in Hin; destruct Hin as (Hin & Hteam).
  apply filter_In in Hin; destruct Hin as (Hin & Hper).
  split; [exact Hin |]. split; [| exact Hid].
  unfold relevant; rewrite Hper, Hteam; simpl.
  apply negb_true_iff, Z.eqb_neq; exact Hc.
Qed.

Lemma query_answer_bounded_witness :
  exists players,
    get_players_on_ice dup_shifts 1 (Some "00:45") (Some "PIT") = Ok players /\
    (List.length players <= 6)%nat.
Proof.
  eexists; split; [reflexivity |].
  apply (query_answer_bounded dup_shifts 1 (Some "00:45") (Some "PIT")).
  reflexivity.
Defined.

(** A scan that succeeds succeeds on every selection of its rows, and its
    answer is the answers on a selection and on its complement, shuffled. *)
Lemma scan_shifts_split (t : option Z) (keep : shift -> bool) (rows : list shift) :
  forall l,
    scan_shifts t rows [] = Ok l ->
    exists l1 l2,
      scan_shifts t (filter keep rows) [] = Ok l1 /\
      scan_shifts t (filter (fun sh => negb (keep sh)) rows) [] = Ok l2 /\
      Permutation l (l1 ++ l2).
Proof.
  induction rows as [| sh rows IH]; intros l H.
  - inversion H; subst; exists [], []; simpl; auto.
  - destruct (Z.eq_dec (shiftTypeCode sh) 505) as [Hc | Hc].
    + rewrite (scan_shifts_goal _ _ _ _ Hc) in H.
      destruct (IH l H) as (l1 & l2 & H1 & H2 & HP).
      exists l1, l2; cbn [filter].
      destruct (keep sh); cbn [negb];
        rewrite ?(scan_shifts_goal _ _ _ _ Hc); auto.
    + destruct (scan_shifts_Ok_cons t sh rows l Hc H) as (on & l' & Hsh & Hl' & ->).
      destruct (IH l' Hl') as (l1 & l2 & H1 & H2 & HP).
      assert (Hcons : forall rest lr,
                 scan_shifts t rest [] = Ok lr ->
                 scan_shifts t (sh :: rest) []
                 = Ok ((if on then [playerId sh] else []) ++ lr)).
      { intros rest lr Hr.
        change (sh :: rest) with ([sh] ++ rest).
        rewrite scan_shifts_app, Hsh; simpl.
        rewrite scan_shifts_acc, Hr; reflexivity. }
      cbn [filter]; destruct (keep sh); cbn [negb].
      * exists ((if on then [playerId sh] else []) ++ l1), l2.
        split; [apply Hcons; exact H1 |]. split; [exact H2 |].
        rewrite <- app_assoc; apply Permutation_app_head; exact HP.
      * exists l1, ((if on then [playerId sh] else []) ++ l2).
        split; [exact H1 |]. split; [apply Hcons; exact H2 |].
        eapply Permutation_trans; [apply Permutation_app_head; exact HP |].
        rewrite !app_assoc; apply Permutation_app_tail, Permutation_app_comm.
Qed.

Lemma team_filter_named (tm : string) (sh : shift) :
  tm <> "" -> team_filter (Some tm) sh = String.eqb (teamAbbrev sh) tm.
Proof. destruct tm; [contradiction | reflexivity]. Qed.

(** X4. The query without a team, over a period whose shift rows belong to
    two teams, answers with the players of the two per-team answers taken
    together: the per-team queries succeed as well, and the answer is a
    reordering of the home answer followed by the away answer. *)
Theorem query_without_team :
  forall (df : list shift) (per : Z) (time : option string)
         (h a : string) (players : list Z),
    h <> "" -> a <> "" -> h <> a ->
    (forall sh, In sh df -> period sh = per ->
                teamAbbrev sh = h \/ teamAbbrev sh = a) ->
    get_players_on_ice df per time None = Ok players ->
    exists home_players away_players,
      get_players_on_ice df per time (Some h) = Ok home_players /\
      get_players_on_ice df per time (Some a) = Ok away_players /\
      Permutation players (home_players ++ away_players) /\
      List.length players
      = (List.length home_players + List.length away_players)%nat.
Proof.
  intros df per time h a players Hh Ha Hha Hteams H.
  unfold get_players_on_ice in *.
  destruct (convert_time_to_seconds time) as [t | e]; [| discriminate H].
  cbn [bind] in *.
  set (rows := filter (fun sh => period sh =? per) df) in *.
  assert (Hnone : period_shifts df per None = rows).
  { unfold period_shifts; fold rows.
    apply filter_keep_all, Forall_forall; intros; reflexivity. }
  rewrite Hnone in H.
  destruct (scan_shifts_split t (team_filter (Some h)) rows players H)
    as (l1 & l2 & H1 & H2 & HP).
  assert (Hother : filter (fun sh => negb (team_filter (Some h) sh)) rows
                   = filter (team_filter (Some a)) rows).
  { apply filter_ext_in; intros sh Hin.
    apply filter_In in Hin; destruct Hin as (Hin & Hper).
    apply Z.eqb_eq in Hper.
    rewrite (team_filter_named h sh Hh), (team_filter_named a sh Ha).
    destruct (Hteams sh Hin Hper) as [E | E]; rewrite E.
    - rewrite String.eqb_refl.
      rewrite (proj2 (String.eqb_neq h a) Hha); reflexivity.
    - rewrite String.eqb_refl.
      rewrite (proj2 (String.eqb_neq a h)); [reflexivity | congruence]. }
  rewrite Hother in H2.
  exists l1, l2; unfold period_shifts; fold rows.
  repeat split; auto.
  rewrite (Permutation_length HP), length_app; reflexivity.
Qed.

Lemma query_without_team_witness :
  exists players home_players away_players,
    get_players_on_ice dup_shifts 1 (Some "00:45") None = Ok players /\
    get_players_on_ice dup_shifts 1 (Some "00:45") (Some "WSH") = Ok home_players /\
    get_players_on_ice dup_shifts 1 (Some "00:45") (Some "PIT") = Ok away_players /\
    Permutation players (home_players ++ away_players).
Proof.
  destruct (query_without_team dup_shifts 1 (Some "00:45") "WSH" "PIT"
              [1; 1; 2; 3; 4; 5; 7; 8; 9; 10; 11; 12])
    as (hp & ap & Hh & Ha & HP & _).
  - discriminate.
  - discriminate.
  - discriminate.
  - intros sh Hin _; simpl in Hin.
    repeat (destruct Hin as [<- | Hin]; [simpl; auto |]); destruct Hin.
  - reflexivity.
  - eexists; exists hp, ap; split; [reflexivity | auto].
Defined.

(** * Further properties of the enrichment *)

Lemma unique_from_skip (seen : list string) (h : string) (pre : list string)
    (rest : list string) :
  In h seen -> Forall (fun t => t = h) pre ->
  unique_from seen (pre ++ rest) = unique_from seen rest.
Proof.
  intros Hseen; induction 1 as [| t pre Ht _ IH]; simpl; [reflexivity |].
  subst t.
  replace (existsb (String.eqb h) seen) with true; [exact IH |].
  symmetry; apply existsb_exists; exists h; split;
    [exact Hseen | apply String.eqb_refl].
Qed.

Lemma team_at_home (sh0 : shift) (rest : list shift) :
  team_at (sh0 :: rest) 0 = Ok (teamAbbrev sh0).
Proof. reflexivity. Qed.

Lemma team_at_away_missing (sh0 : shift) (rest : list shift) :
  Forall (fun sh => teamAbbrev sh = teamAbbrev sh0) rest ->
  team_at (sh0 :: rest) 1 = Raise IndexError.
Proof.
  intros H; unfold team_at, unique; simpl.
  rewrite <- (app_nil_r (map teamAbbrev rest)).
  rewrite (unique_from_skip [teamAbbrev sh0] (teamAbbrev sh0));
    [reflexivity | left; reflexivity |].
  apply Forall_forall; intros t Ht.
  apply in_map_iff in Ht; destruct Ht as (sh & <- & Hin).
  exact (proj1 (Forall_forall _ _) H sh Hin).
Qed.

Lemma team_at_away (sh0 sh : shift) (pre post : list shift) :
  Forall (fun x => teamAbbrev x = teamAbbrev sh0) pre ->
  teamAbbrev sh <> teamAbbrev sh0 ->
  team_at (sh0 :: pre ++ sh :: post) 1 = Ok (teamAbbrev sh).
Proof.
  intros Hpre Hsh; unfold team_at, unique; simpl.
  rewrite map_app.
  rewrite (unique_from_skip [teamAbbrev sh0] (teamAbbrev sh0));
    [| left; reflexivity |].
  - simpl. rewrite (proj2 (String.eqb_neq _ _) Hsh); reflexivity.
  - apply Forall_forall; intros t Ht.
    apply in_map_iff in Ht; destruct Ht as (x & <- & Hin).
    exact (proj1 (Forall_forall _ _) Hpre x Hin).
Qed.

(** X5. Which sides the enrichment takes.  The home team is the team of the
    first shift row and the away team is the team of the first row that names
    another team, wherever that row stands in the frame.  Without any shift
    row the enrichment fails with KeyError, and when all rows name a single
    team it fails with IndexError, whatever the events are, even when there
    is none. *)
Theorem home_and_away_teams :
  (forall plays, combine_pbp_with_shifts (Some plays) (Some []) = Raise KeyError)
  /\ (forall plays sh0 rest,
        Forall (fun sh => teamAbbrev sh = teamAbbrev sh0) rest ->
        combine_pbp_with_shifts (Some plays) (Some (sh0 :: rest)) = Raise IndexError)
  /\ (forall plays sh0 pre sh post,
        Forall (fun x => teamAbbrev x = teamAbbrev sh0) pre ->
        teamAbbrev sh <> teamAbbrev sh0 ->
        combine_pbp_with_shifts (Some plays) (Some (sh0 :: pre ++ sh :: post))
        = (rows <- enrich_rows (sh0 :: pre ++ sh :: post)
                     (teamAbbrev sh0) (teamAbbrev sh) plays ;;
           Ok (Some rows))).
Proof.
  split; [reflexivity |].
  split.
  - intros plays sh0 rest H; unfold combine_pbp_with_shifts.
    rewrite team_at_home, (team_at_away_missing _ _ H); reflexivity.
  - intros plays sh0 pre sh post Hpre Hsh; unfold combine_pbp_with_shifts.
    rewrite team_at_home, (team_at_away _ _ _ _ Hpre Hsh); reflexivity.
Qed.

Lemma home_and_away_teams_witness :
  combine_pbp_with_shifts (Some game_plays) (Some [shift_0_60; shift_0_60])
  = Raise IndexError
  /\ combine_pbp_with_shifts (Some game_plays) (Some dup_shifts)
     = (rows <- enrich_rows dup_shifts "WSH" "PIT" game_plays ;; Ok (Some rows)).
Proof.
  destruct home_and_away_teams as (_ & Hone & Htwo).
  split.
  - apply Hone; repeat constructor.
  - apply (Htwo game_plays
             (mkShift 1 "WSH" 1 (Some "00:00") (Some "01:00") 517)
             [ mkShift 1 "WSH" 1 (Some "00:30") (Some "01:30") 517;
               mkShift 2 "WSH" 1 (Some "00:00") (Some "01:00") 517;
               mkShift 3 "WSH" 1 (Some "00:00") (Some "01:00") 517;
               mkShift 4 "WSH" 1 (Some "00:00") (Some "01:00") 517;
               mkShift 5 "WSH" 1 (Some "00:00") (Some "01:00") 517 ]
             (mkShift 7 "PIT" 1 (Some "00:00") (Some "01:00") 517)).
    + repeat constructor.
    + discriminate.
Defined.

Lemma enrich_rows_app (shifts_df : list shift) (h a : string)
    (plays1 plays2 : list play) :
  enrich_rows shifts_df h a (plays1 ++ plays2)
  = (out1 <- enrich_rows shifts_df h a plays1 ;;
     out2 <- enrich_rows shifts_df h a plays2 ;;
     Ok (out1 ++ out2)).
Proof.
  induction plays1 as [| p plays1 IH]; simpl.
  - destruct (enrich_rows shifts_df h a plays2); reflexivity.
  - destruct (enrich_play shifts_df h a p) as [e | x]; simpl; [| reflexivity].
    rewrite IH.
    destruct (enrich_rows shifts_df h a plays1) as [o1 | x]; simpl; [| reflexivity].
    destruct (enrich_rows shifts_df h a plays2); reflexivity.
Qed.

(** X6. Events are enriched independently of one another: the enrichment of
    two event sequences put end to end produces a frame exactly when it
    produces one for each sequence, and the frame is then the first frame
    followed by the second. *)
Theorem enrichment_of_concatenation :
  forall (plays1 plays2 : list play) (shifts_df : list shift) (out : list enriched),
    combine_pbp_with_shifts (Some (plays1 ++ plays2)) (Some shifts_df) = Ok (Some out)
    <->
    exists out1 out2,
      combine_pbp_with_shifts (Some plays1) (Some shifts_df) = Ok (Some out1) /\
      combine_pbp_with_shifts (Some plays2) (Some shifts_df) = Ok (Some out2) /\
      out = out1 ++ out2.
Proof.
  intros plays1 plays2 shifts_df out; unfold combine_pbp_with_shifts.
  destruct (team_at shifts_df 0) as [h | x]; simpl;
    [| split; [discriminate | intros (? & ? & H & _); discriminate H]].
  destruct (team_at shifts_df 1) as [a | x]; simpl;
    [| split; [discriminate | intros (? & ? & H & _); discriminate H]].
  rewrite enrich_rows_app.
  destruct (enrich_rows shifts_df h a plays1) as [o1 | x]; simpl;
    [| split; [discriminate | intros (? & ? & H & _); discriminate H]].
  destruct (enrich_rows shifts_df h a plays2) as [o2 | x]; simpl;
    [| split; [discriminate | intros (? & ? & _ & H & _); discriminate H]].
  split.
  - intros H; inversion H; subst; exists o1, o2; auto.
  - intros (x1 & x2 & H1 & H2 & ->).
    inversion H1; inversion H2; subst; reflexivity.
Qed.

Lemma enrichment_of_concatenation_witness :
  exists out1 out2,
    combine_pbp_with_shifts (Some [play_no_clock]) (Some dup_shifts) = Ok (Some out1) /\
    combine_pbp_with_shifts (Some [dup_play]) (Some dup_shifts) = Ok (Some out2) /\
    [mkEnriched play_no_clock None None 0 0; dup_event] = out1 ++ out2.
Proof.
  apply (proj1 (enrichment_of_concatenation [play_no_clock] [dup_play] dup_shifts _)).
  reflexivity.
Defined.

(** * Further properties of the aggregation *)

(** ** The table as a dict *)

Lemma lookup_In (player_stats : player_stats_t) (p : Z) (s : stats) :
  lookup player_stats p = Some s -> In (p, s) player_stats.
Proof.
  induction player_stats as [| [k s0] rest IH]; simpl; [discriminate |].
  destruct (Z.eqb_spec k p) as [-> | N].
  - intros H; inversion H; left; reflexivity.
  - intros H; right; exact (IH H).
Qed.

Lemma lookup_None (player_stats : player_stats_t) (p : Z) :
  lookup player_stats p = None <-> ~ In p (map fst player_stats).
Proof.
  induction player_stats as [| [k s0] rest IH]; simpl.
  - tauto.
  - destruct (Z.eqb_spec k p) as [-> | N].
    + split; [discriminate | intros H; exfalso; apply H; left; reflexivity].
    + rewrite IH; tauto.
Qed.

Lemma In_lookup (player_stats : player_stats_t) (p : Z) (s : stats) :
  NoDup (map fst player_stats) -> In (p, s) player_stats ->
  lookup player_stats p = Some s.
Proof.
  induction player_stats as [| [k s0] rest IH]; simpl; intros Hnd Hin;
    [destruct Hin |].
  inversion Hnd as [| ? ? Hk Hrest]; subst.
  destruct Hin as [E | Hin].
  - inversion E; subst; rewrite Z.eqb_refl; reflexivity.
  - destruct (Z.eqb_spec k p) as [-> | N].
    + exfalso; apply Hk.
      change p with (fst (p, s)); apply in_map; exact Hin.
    + apply IH; assumption.
Qed.

Lemma update_keys (player_stats : player_stats_t) (p : Z) (f : stats -> stats) :
  map fst (update player_stats p f) = map fst player_stats.
Proof.
  induction player_stats as [| [k s] rest IH]; simpl; [reflexivity |].
  destruct (k =? p); simpl; [reflexivity | rewrite IH; reflexivity].
Qed.

Lemma update_app_new (player_stats : player_stats_t) (p : Z) (s : stats)
    (f : stats -> stats) :
  lookup player_stats p = None ->
  update (player_stats ++ [(p, s)]) p f = player_stats ++ [(p, f s)].
Proof.
  induction player_stats as [| [k s0] rest IH]; simpl; intros H.
  - rewrite Z.eqb_refl; reflexivity.
  - destruct (k =? p); [discriminate |].
    rewrite IH by exact H; reflexivity.
Qed.

Lemma same_dict_permutation (t1 t2 : player_stats_t) :
  NoDup (map fst t1) -> NoDup (map fst t2) -> same_dict t1 t2 ->
  Permutation t1 t2.
Proof.
  intros H1 H2 Hsame.
  apply NoDup_Permutation.
  - exact (NoDup_map_inv fst t1 H1).
  - exact (NoDup_map_inv fst t2 H2).
  - intros [p s]; split; intros Hin.
    + apply lookup_In; rewrite <- Hsame; apply In_lookup; assumption.
    + apply lookup_In; rewrite Hsame; apply In_lookup; assumption.
Qed.

(** ** The table stays tidy *)

Lemma credit_tidy (shooting_team own : side) (player_stats : player_stats_t)
    (p : Z) :
  tidy player_stats -> tidy (credit shooting_team own player_stats p).
Proof.
  intros (Hnd & Hpos); unfold tidy, credit.
  rewrite update_keys.
  destruct (lookup player_stats p) as [s |] eqn:Hp.
  - split; [exact Hnd |].
    refine (update_invariant (fun s => 1 <= TOI_events s) _ _ _ _ Hpos).
    intros s0 Hs; destruct (side_eqb shooting_team own); simpl; lia.
  - split.
    + rewrite map_app; simpl.
      apply (Permutation_NoDup (Permutation_cons_append (map fst player_stats) p)).
      constructor; [apply lookup_None; exact Hp | exact Hnd].
    + rewrite (update_app_new _ _ _ _ Hp).
      apply Forall_app; split; [exact Hpos |].
      constructor; [| constructor].
      destruct (side_eqb shooting_team own); simpl; lia.
Qed.

Lemma fold_credit_tidy (shooting_team own : side) (players : list Z) :
  forall player_stats,
    tidy player_stats ->
    tidy (fold_left (credit shooting_team own) players player_stats).
Proof.
  induction players as [| p players IH]; simpl; intros ps H; [exact H |].
  apply IH, credit_tidy, H.
Qed.

Lemma process_event_tidy (player_stats player_stats' : player_stats_t)
    (event : enriched) :
  process_event player_stats event = Ok player_stats' ->
  tidy player_stats -> tidy player_stats'.
Proof.
  unfold process_event; intros H Ht.
  bind_inv H. destruct a as [[[st h] a] |]; inversion H; subst; [| exact Ht].
  unfold credit_event; auto using fold_credit_tidy.
Qed.

Lemma aggregate_tidy (events : list enriched) :
  forall player_stats player_stats',
    aggregate events player_stats = Ok player_stats' ->
    tidy player_stats -> tidy player_stats'.
Proof.
  induction events as [| event events IH]; simpl; intros ps ps' H Ht.
  - inversion H; subst; exact Ht.
  - bind_inv H. eapply IH; eauto using process_event_tidy.
Qed.

Lemma tidy_empty : tidy [].
Proof. split; constructor. Qed.

(** ** The counters in closed form *)

Lemma process_event_counters (player_stats player_stats' : player_stats_t)
    (event : enriched) (p : Z) :
  process_event player_stats event = Ok player_stats' ->
  CF_of player_stats' p = CF_of player_stats p + cf_gain event p /\
  CA_of player_stats' p = CA_of player_stats p + ca_gain event p.
Proof.
  unfold process_event, cf_gain, ca_gain; intros H.
  destruct (shooting_team_of event) as [[[[st h] a] |] | x]; simpl in H;
    inversion H; subst.
  - apply credit_event_counters.
  - lia.
Qed.

Lemma aggregate_counters (events : list enriched) (p : Z) :
  forall player_stats player_stats',
    aggregate events player_stats = Ok player_stats' ->
    CF_of player_stats' p = CF_of player_stats p + gains cf_gain events p /\
    CA_of player_stats' p = CA_of player_stats p + gains ca_gain events p.
Proof.
  induction events as [| event events IH]; simpl; intros ps ps' H.
  - inversion H; subst; lia.
  - bind_inv H.
    destruct (IH _ _ H) as (-> & ->).
    destruct (process_event_counters _ _ _ p Ha) as (-> & ->); lia.
Qed.

Lemma gains_app (gain : enriched -> Z -> Z) (es1 es2 : list enriched) (p : Z) :
  gains gain (es1 ++ es2) p = gains gain es1 p + gains gain es2 p.
Proof. induction es1 as [| e es1 IH]; simpl; lia. Qed.

Lemma gains_permutation (gain : enriched -> Z -> Z) (es1 es2 : list enriched)
    (p : Z) :
  Permutation es1 es2 -> gains gain es1 p = gains gain es2 p.
Proof. induction 1; simpl; lia. Qed.

Lemma occurrences_nonneg (p : Z) (players : list Z) : 0 <= occurrences p players.
Proof. unfold occurrences; lia. Qed.

Lemma occurrences_pos (p : Z) (players : list Z) :
  0 < occurrences p players <-> In p players.
Proof.
  unfold occurrences; rewrite (count_occ_In Z.eq_dec players p); lia.
Qed.

Lemma cf_gain_nonneg (e : enriched) (p : Z) : 0 <= cf_gain e p.
Proof.
  unfold cf_gain; destruct (shooting_team_of e) as [[[[st h] a] |] | x];
    try lia; apply occurrences_nonneg.
Qed.

Lemma ca_gain_nonneg (e : enriched) (p : Z) : 0 <= ca_gain e p.
Proof.
  unfold ca_gain; destruct (shooting_team_of e) as [[[[st h] a] |] | x];
    try lia; apply occurrences_nonneg.
Qed.

Lemma gains_nonneg (gain : enriched -> Z -> Z) (events : list enriched) (p : Z) :
  (forall e, 0 <= gain e p) -> 0 <= gains gain events p.
Proof.
  intros H; induction events as [| e events IH]; simpl; [lia |].
  specialize (H e); lia.
Qed.

(** The record of a player after a pass that started from the empty table. *)
Lemma aggregate_lookup (events : list enriched) (player_stats : player_stats_t)
    (p : Z) :
  aggregate events [] = Ok player_stats ->
  lookup player_stats p
  = if 0 <? gains cf_gain events p + gains ca_gain events p
    then Some (mkStats (gains cf_gain events p) (gains ca_gain events p)
                 (gains cf_gain events p + gains ca_gain events p))
    else None.
Proof.
  intros H.
  destruct (aggregate_counters events p _ _ H) as (Hcf & Hca).
  pose proof (aggregate_balanced _ _ H) as Hbal.
  destruct (aggregate_tidy _ _ _ H tidy_empty) as (_ & Hpos).
  unfold CF_of, CA_of in Hcf, Hca; simpl in Hcf, Hca.
  destruct (lookup player_stats p) as [s |] eqn:Hp.
  - apply lookup_In in Hp.
    pose proof (proj1 (Forall_forall _ _) Hbal _ Hp) as Hb.
    pose proof (proj1 (Forall_forall _ _) Hpos _ Hp) as Hs.
    unfold balanced in Hb; simpl in Hb, Hs.
    rewrite <- Hcf, <- Hca, Hb.
    rewrite (proj2 (Z.ltb_lt 0 (TOI_events s))) by lia.
    destruct s; reflexivity.
  - rewrite <- Hcf, <- Hca; reflexivity.
Qed.

(** ** When the pass returns *)

Lemma mem_In (x : Z) (l : list Z) : mem x l = true <-> In x l.
Proof.
  unfold mem; rewrite existsb_exists; split.
  - intros (y & Hy & E); apply Z.eqb_eq in E; subst; exact Hy.
  - intros H; exists x; split; [exact H | apply Z.eqb_refl].
Qed.

Lemma mem_not_In (x : Z) (l : list Z) : mem x l = false <-> ~ In x l.
Proof.
  rewrite <- mem_In; destruct (mem x l); split; congruence.
Qed.

Lemma shooting_team_of_skipped (e : enriched) :
  skipped e <-> shooting_team_of e = Ok None.
Proof.
  unfold skipped, shooting_team_of.
  destruct (shootingPlayerId (base e)) as [shooter |].
  - split.
    + intros [H | (s & h & a & Hs & -> & -> & Hh & Ha)]; [discriminate |].
      inversion Hs; subst s.
      rewrite (proj2 (mem_not_In shooter h) Hh).
      rewrite (proj2 (mem_not_In shooter a) Ha); reflexivity.
    + destruct (homePlayersOnIce e) as [h |]; [| discriminate].
      destruct (awayPlayersOnIce e) as [a |]; [| discriminate].
      destruct (mem shooter h) eqn:Eh; [discriminate |].
      destruct (mem shooter a) eqn:Ea; [discriminate |].
      intros _; right; exists shooter, h, a.
      split; [reflexivity |]. split; [reflexivity |]. split; [reflexivity |].
      split; apply mem_not_In; assumption.
  - split; [reflexivity | intros _; left; reflexivity].
Qed.

Lemma shooting_team_of_attributed (e : enriched) :
  attributed e <-> exists st h a, shooting_team_of e = Ok (Some (st, h, a)).
Proof.
  unfold attributed, shooting_team_of.
  destruct (shootingPlayerId (base e)) as [shooter |].
  - destruct (homePlayersOnIce e) as [h |].
    + destruct (awayPlayersOnIce e) as [a |].
      * destruct (mem shooter h) eqn:Eh.
        -- split; [eauto |].
           intros _; exists shooter, h, a.
           split; [reflexivity |]. split; [reflexivity |]. split; [reflexivity |].
           left; apply mem_In; exact Eh.
        -- destruct (mem shooter a) eqn:Ea.
           ++ split; [eauto |].
              intros _; exists shooter, h, a.
              split; [reflexivity |]. split; [reflexivity |]. split; [reflexivity |].
              right; apply mem_In; exact Ea.
           ++ split.
              ** intros (s & h' & a' & Hs & Hh & Ha & Hin).
                 inversion Hs; inversion Hh; inversion Ha; subst.
                 destruct Hin as [Hin | Hin]; apply mem_In in Hin; congruence.
              ** intros (st & h' & a' & H); discriminate.
      * split; [intros (s & h' & a' & _ & _ & Ha & _); discriminate
               | intros (st & h' & a' & H); discriminate].
    + split; [intros (s & h' & a' & _ & Hh & _); discriminate
             | intros (st & h' & a' & H); discriminate].
  - split; [intros (s & h' & a' & Hs & _); discriminate
           | intros (st & h' & a' & H); discriminate].
Qed.

Lemma shooting_team_of_unreadable (e : enriched) :
  ~ readable e <-> shooting_team_of e = Raise TypeError.
Proof.
  unfold readable, shooting_team_of.
  destruct (shootingPlayerId (base e)) as [shooter |].
  - destruct (homePlayersOnIce e) as [h |].
    + destruct (awayPlayersOnIce e) as [a |].
      * split.
        -- intros H; exfalso; apply H; right; split; discriminate.
        -- destruct (mem shooter h); [discriminate |].
           destruct (mem shooter a); discriminate.
      * split; [reflexivity |].
        intros _ [H | (_ & H)]; [discriminate | apply H; reflexivity].
    + split; [reflexivity |].
      intros _ [H | (H & _)]; [discriminate | apply H; reflexivity].
  - split; [intros H; exfalso; apply H; left; reflexivity | discriminate].
Qed.

Lemma shooting_team_of_raises (e : enriched) (x : exn) :
  shooting_team_of e = Raise x -> x = TypeError.
Proof.
  unfold shooting_team_of.
  destruct (shootingPlayerId (base e)) as [shooter |]; [| discriminate].
  destruct (homePlayersOnIce e) as [h |];
    [| intros H; inversion H; reflexivity].
  destruct (awayPlayersOnIce e) as [a |];
    [| intros H; inversion H; reflexivity].
  destruct (mem shooter h); [discriminate |].
  destruct (mem shooter a); discriminate.
Qed.

Lemma process_event_Raise (player_stats : player_stats_t) (event : enriched)
    (x : exn) :
  process_event player_stats event = Raise x ->
  x = TypeError /\ ~ readable event.
Proof.
  unfold process_event; intros H.
  destruct (shooting_team_of event) as [[[[st h] a] |] | y] eqn:E; simpl in H;
    try discriminate.
  inversion H; subst y.
  pose proof (shooting_team_of_raises _ _ E); subst x.
  split; [reflexivity | apply shooting_team_of_unreadable; exact E].
Qed.

Lemma aggregate_Raise (events : list enriched) :
  forall player_stats x,
    aggregate events player_stats = Raise x ->
    x = TypeError /\ Exists (fun e => ~ readable e) events.
Proof.
  induction events as [| event events IH]; simpl; intros ps x H; [discriminate |].
  destruct (process_event ps event) as [ps1 | y] eqn:E; simpl in H.
  - destruct (IH _ _ H) as (-> & Hex); split; [reflexivity |].
    apply Exists_cons_tl; exact Hex.
  - inversion H; subst y.
    destruct (process_event_Raise _ _ _ E) as (-> & Hn); split; [reflexivity |].
    apply Exists_cons_hd; exact Hn.
Qed.

Lemma aggregate_Ok_readable (events : list enriched) :
  forall player_stats player_stats',
    aggregate events player_stats = Ok player_stats' -> Forall readable events.
Proof.
  induction events as [| event events IH]; simpl; intros ps ps' H; [constructor |].
  bind_inv H. constructor; [| eapply IH; eauto].
  unfold process_event in Ha.
  destruct (shooting_team_of event) as [r | y] eqn:E; [| discriminate].
  unfold readable.
  destruct (shootingPlayerId (base event)) as [shooter |] eqn:Es; [| auto].
  right; unfold shooting_team_of in E; rewrite Es in E.
  destruct (homePlayersOnIce event); [| discriminate].
  destruct (awayPlayersOnIce event); [| discriminate].
  split; discriminate.
Qed.

Lemma aggregate_unreadable (events : list enriched) (player_stats : player_stats_t) :
  Exists (fun e => ~ readable e) events ->
  aggregate events player_stats = Raise TypeError.
Proof.
  intros Hex.
  destruct (aggregate events player_stats) as [ps' | x] eqn:E.
  - exfalso. pose proof (aggregate_Ok_readable _ _ _ E) as Hall.
    apply Exists_exists in Hex; destruct Hex as (e & Hin & Hn).
    exact (Hn (proj1 (Forall_forall _ _) Hall e Hin)).
  - destruct (aggregate_Raise _ _ _ E) as (-> & _); reflexivity.
Qed.

Lemma aggregate_app (es1 es2 : list enriched) (player_stats : player_stats_t) :
  aggregate (es1 ++ es2) player_stats
  = (t <- aggregate es1 player_stats ;; aggregate es2 t).
Proof.
  revert player_stats; induction es1 as [| e es1 IH]; simpl; intros ps;
    [reflexivity |].
  destruct (process_event ps e) as [ps1 | x]; simpl; [apply IH | reflexivity].
Qed.

Lemma aggregate_skipped (events : list enriched) (player_stats : player_stats_t) :
  Forall skipped events -> aggregate events player_stats = Ok player_stats.
Proof.
  induction 1 as [| e events He _ IH]; simpl; [reflexivity |].
  unfold process_event.
  rewrite (proj1 (shooting_team_of_skipped e) He); simpl; exact IH.
Qed.

(** ** Who is credited *)

Lemma gains_pos (gain : enriched -> Z -> Z) (events : list enriched) (p : Z) :
  (forall e, 0 <= gain e p) ->
  (0 < gains gain events p <-> exists e, In e events /\ 0 < gain e p).
Proof.
  intros Hn; induction events as [| e events IH]; simpl.
  - split; [lia | intros (e & [] & _)].
  - pose proof (gains_nonneg gain events p Hn) as Hg.
    pose proof (Hn e) as He.
    split.
    + intros H. destruct (Z.ltb_spec 0 (gain e p)) as [Hp | Hz].
      * exists e; auto.
      * assert (Hpos : 0 < gains gain events p) by lia.
        destruct (proj1 IH Hpos) as (e' & Hin & Hp). exists e'; auto.
    + intros (e' & [<- | Hin] & Hp); [lia |].
      assert (0 < gains gain events p) by (apply IH; eauto). lia.
Qed.

Lemma event_gain_pos (e : enriched) (p : Z) :
  0 < cf_gain e p + ca_gain e p <-> attributed e /\ listed p e.
Proof.
  unfold cf_gain, ca_gain.
  destruct (shooting_team_of e) as [[[[st h] a] |] | x] eqn:E.
  - destruct (shooting_team_of_lists _ _ _ _ E) as (Hh & Ha).
    pose proof (occurrences_nonneg p h) as Hnh.
    pose proof (occurrences_nonneg p a) as Hna.
    assert (Hsum : 0 < occurrences p (shooting_list st h a)
                       + occurrences p (defending_list st h a)
                   <-> In p h \/ In p a).
    { rewrite <- !occurrences_pos; destruct st; simpl; lia. }
    rewrite Hsum; split.
    + intros Hin; split; [apply shooting_team_of_attributed; eauto |].
      exists h, a; auto.
    + intros (_ & h' & a' & Hh' & Ha' & Hin).
      rewrite Hh in Hh'; rewrite Ha in Ha'.
      inversion Hh'; inversion Ha'; subst; exact Hin.
  - split; [lia |].
    intros (Hat & _); apply shooting_team_of_attributed in Hat.
    destruct Hat as (st & h & a & H); congruence.
  - split; [lia |].
    intros (Hat & _); apply shooting_team_of_attributed in Hat.
    destruct Hat as (st & h & a & H); congruence.
Qed.

Lemma aggregate_keys (events : list enriched) (player_stats : player_stats_t)
    (p : Z) :
  aggregate events [] = Ok player_stats ->
  (In p (map fst player_stats)
   <-> exists e, In e events /\ attributed e /\ listed p e).
Proof.
  intros H.
  pose proof (aggregate_lookup events player_stats p H) as Hl.
  pose proof (gains_nonneg cf_gain events p (fun e => cf_gain_nonneg e p)) as Hcf.
  pose proof (gains_nonneg ca_gain events p (fun e => ca_gain_nonneg e p)) as Hca.
  assert (Hsum : gains cf_gain events p + gains ca_gain events p
                 = gains (fun e q => cf_gain e q + ca_gain e q) events p).
  { clear; induction events as [| e events IH]; simpl; lia. }
  assert (Hpos : 0 < gains cf_gain events p + gains ca_gain events p
                 <-> exists e, In e events /\ attributed e /\ listed p e).
  { rewrite Hsum, gains_pos.
    - split; intros (e & Hin & He); exists e; split; auto;
        apply event_gain_pos; exact He.
    - intros e; pose proof (cf_gain_nonneg e p); pose proof (ca_gain_nonneg e p); lia. }
  rewrite <- Hpos.
  destruct (Z.ltb_spec 0 (gains cf_gain events p + gains ca_gain events p))
    as [Hlt | Hge].
  - split; [intros _; exact Hlt |].
    intros _. apply lookup_In in Hl.
    change p with (fst (p, mkStats (gains cf_gain events p) (gains ca_gain events p)
                             (gains cf_gain events p + gains ca_gain events p))).
    apply in_map; exact Hl.
  - split; [| lia].
    intros Hin; exfalso; exact (proj1 (lookup_None _ _) Hl Hin).
Qed.

Lemma aggregate_TOI (events : list enriched) (player_stats : player_stats_t)
    (p : Z) :
  aggregate events [] = Ok player_stats ->
  TOI_of player_stats p = CF_of player_stats p + CA_of player_stats p.
Proof.
  intros H; unfold TOI_of, CF_of, CA_of.
  destruct (lookup player_stats p) as [s |] eqn:Hp; [| reflexivity].
  apply lookup_In in Hp.
  pose proof (proj1 (Forall_forall _ _) (aggregate_balanced _ _ H) _ Hp) as Hb.
  unfold balanced in Hb; simpl in Hb; lia.
Qed.

Lemma aggregate_without_skipped (es1 mid es2 : list enriched)
    (player_stats : player_stats_t) :
  Forall skipped mid ->
  aggregate (es1 ++ mid ++ es2) player_stats = aggregate (es1 ++ es2) player_stats.
Proof.
  intros H; rewrite !aggregate_app.
  destruct (aggregate es1 player_stats) as [t | x]; simpl; [| reflexivity].
  rewrite aggregate_app, (aggregate_skipped mid t H); reflexivity.
Qed.

Lemma finalize_ids (player_dict : player_dict_t) :
  forall items results,
    finalize player_dict items = Ok results ->
    map res_playerId results = map fst items.
Proof.
  intros items results H.
  pose proof (finalize_Ok _ _ _ H) as F; clear H.
  induction F as [| item r items results Hr _ IH]; simpl; [reflexivity |].
  destruct (finalize_player_Ok _ _ _ Hr) as (pct & _ & ->); simpl.
  f_equal; exact IH.
Qed.

Lemma analyze_ids (argsort : list float -> list nat) (mean : list float -> float)
    (pbp_df : list enriched) (player_dict : player_dict_t) (rows : list corsi_row) :
  argsort_spec argsort ->
  analyze_player_corsi_5v5 argsort mean pbp_df player_dict = Ok rows ->
  exists player_stats,
    aggregate (corsi_events pbp_df) [] = Ok player_stats /\
    Permutation (map row_playerId rows) (map fst player_stats).
Proof.
  intros Hspec H.
  destruct (analyze_Ok _ _ _ _ _ H) as (ps & results & Hps & Hres & _ & ->).
  exists ps; split; [exact Hps |].
  destruct (sort_values_desc_sorted argsort results Hspec
              (finalize_not_nan _ _ _ Hres)) as (_ & Hperm).
  rewrite map_map.
  replace (fun r => row_playerId (add_team_columns mean player_dict
                                    (sort_values_desc argsort results) r))
    with res_playerId by reflexivity.
  rewrite <- (finalize_ids _ _ _ Hres).
  apply Permutation_map; exact Hperm.
Qed.

(** X7. The counters in closed form.  After a pass that started from the
    empty table, a player has a record exactly when some credited event
    lists the player, and the record then holds, as CF, the number of times
    the player is listed on the shooting side over all events, as CA, the
    number of times the player is listed on the other side, and their sum as
    event counter.  The rows that the analysis returns carry these two
    numbers of their player. *)
Theorem corsi_counters_closed_form :
  (forall (events : list enriched) (player_stats : player_stats_t),
      aggregate events [] = Ok player_stats ->
      forall p,
        lookup player_stats p
        = if 0 <? gains cf_gain events p + gains ca_gain events p
          then Some (mkStats (gains cf_gain events p) (gains ca_gain events p)
                       (gains cf_gain events p + gains ca_gain events p))
          else None)
  /\ (forall argsort mean pbp_df player_dict rows,
        analyze_player_corsi_5v5 argsort mean pbp_df player_dict = Ok rows ->
        forall r, In r rows ->
          row_CF r = gains cf_gain (corsi_events pbp_df) (row_playerId r) /\
          row_CA r = gains ca_gain (corsi_events pbp_df) (row_playerId r)).
Proof.
  split.
  - intros events player_stats H p; apply aggregate_lookup; exact H.
  - intros argsort mean pbp_df player_dict rows H r Hin.
    destruct (analyze_row_item _ _ _ _ _ H) as (ps & Hps & Hrows).
    destruct (Hrows r Hin)
      as ([pid st] & pct & Hitem & _ & Hid & HCF & HCA & _).
    simpl in *.
    destruct (aggregate_tidy _ _ _ Hps tidy_empty) as (Hnd & _).
    pose proof (In_lookup _ _ _ Hnd Hitem) as Hl.
    rewrite (aggregate_lookup _ _ pid Hps) in Hl.
    destruct (0 <? _); [| discriminate].
    inversion Hl; subst st; simpl in *.
    rewrite Hid; auto.
Qed.

Lemma corsi_counters_closed_form_witness :
  exists player_stats,
    aggregate [shot_6v6; dup_event; shot_6v6_away] [] = Ok player_stats /\
    lookup player_stats 1 = Some (mkStats 3 1 4) /\
    lookup player_stats 13 = None.
Proof.
  destruct corsi_counters_closed_form as (H & _).
  eexists; split; [reflexivity |].
  split.
  - rewrite (H [shot_6v6; dup_event; shot_6v6_away] _ eq_refl 1); reflexivity.
  - rewrite (H [shot_6v6; dup_event; shot_6v6_away] _ eq_refl 13); reflexivity.
Defined.

(** X8. The statistics do not depend on the order of the events.  When the
    same events are passed in another order, the pass returns in both
    orders or in none; the two tables hold the same record for every
    player, so they are the same items, inserted in another order; and a
    pass that raises does so in every order, with the same exception. *)
Theorem statistics_independent_of_event_order :
  forall es1 es2 : list enriched,
    Permutation es1 es2 ->
    (forall t1, aggregate es1 [] = Ok t1 ->
       exists t2, aggregate es2 [] = Ok t2 /\ same_dict t1 t2 /\ Permutation t1 t2)
    /\ (forall x, aggregate es1 [] = Raise x -> aggregate es2 [] = Raise x).
Proof.
  intros es1 es2 HP; split.
  - intros t1 H1.
    pose proof (aggregate_Ok_readable _ _ _ H1) as Hr.
    assert (Hr2 : Forall readable es2).
    { apply Forall_forall; intros e Hin.
      apply (proj1 (Forall_forall _ _) Hr).
      apply (Permutation_in e (Permutation_sym HP) Hin). }
    destruct (aggregate_returns es2 Hr2 []) as (t2 & H2).
    exists t2; split; [exact H2 |].
    assert (Hsame : same_dict t1 t2).
    { intros p.
      rewrite (aggregate_lookup _ _ p H1), (aggregate_lookup _ _ p H2).
      rewrite (gains_permutation cf_gain _ _ p HP),
              (gains_permutation ca_gain _ _ p HP); reflexivity. }
    split; [exact Hsame |].
    apply same_dict_permutation;
      [ apply (aggregate_tidy _ _ _ H1 tidy_empty)
      | apply (aggregate_tidy _ _ _ H2 tidy_empty)
      | exact Hsame ].
  - intros x H1.
    destruct (aggregate_Raise _ _ _ H1) as (-> & Hex).
    apply aggregate_unreadable.
    apply Exists_exists in Hex; destruct Hex as (e & Hin & Hn).
    apply Exists_exists; exists e; split; [| exact Hn].
    apply (Permutation_in e HP Hin).
Qed.

Lemma statistics_independent_of_event_order_witness :
  exists t1 t2,
    aggregate [shot_6v6; shot_6v6_away; dup_event] [] = Ok t1 /\
    aggregate [dup_event; shot_6v6_away; shot_6v6] [] = Ok t2 /\
    Permutation t1 t2.
Proof.
  assert (HP : Permutation [shot_6v6; shot_6v6_away; dup_event]
                           [dup_event; shot_6v6_away; shot_6v6])
    by apply (Permutation_rev [shot_6v6; shot_6v6_away; dup_event]).
  destruct (statistics_independent_of_event_order _ _ HP) as (Hok & _).
  destruct (Hok _ eq_refl) as (t2 & H2 & _ & Hperm).
  eexists; exists t2; split; [reflexivity | split; [exact H2 | exact Hperm]].
Defined.

(** X9. Tables add up.  When the pass returns on each of two event
    sequences, it returns on the two put end to end, and every counter of
    every player in the resulting table is the sum of the player's counters
    in the two tables (a player without record counting for 0). *)
Theorem tables_of_two_passes_add_up :
  forall (es1 es2 : list enriched) (t1 t2 : player_stats_t),
    aggregate es1 [] = Ok t1 -> aggregate es2 [] = Ok t2 ->
    exists t,
      aggregate (es1 ++ es2) [] = Ok t /\
      forall p,
        CF_of t p = CF_of t1 p + CF_of t2 p /\
        CA_of t p = CA_of t1 p + CA_of t2 p /\
        TOI_of t p = TOI_of t1 p + TOI_of t2 p.
Proof.
  intros es1 es2 t1 t2 H1 H2.
  assert (Hr : Forall readable (es1 ++ es2)).
  { apply Forall_app; split; eapply aggregate_Ok_readable; eauto. }
  destruct (aggregate_returns _ Hr []) as (t & Ht).
  exists t; split; [exact Ht |].
  intros p.
  rewrite (aggregate_TOI _ _ p Ht), (aggregate_TOI _ _ p H1), (aggregate_TOI _ _ p H2).
  destruct (aggregate_counters _ p _ _ Ht) as (Hcf & Hca).
  destruct (aggregate_counters _ p _ _ H1) as (Hcf1 & Hca1).
  destruct (aggregate_counters _ p _ _ H2) as (Hcf2 & Hca2).
  rewrite gains_app in Hcf, Hca.
  unfold CF_of at 2 in Hcf; unfold CF_of at 2 in Hcf1; unfold CF_of at 2 in Hcf2.
  unfold CA_of at 2 in Hca; unfold CA_of at 2 in Hca1; unfold CA_of at 2 in Hca2.
  simpl in *; lia.
Qed.

Lemma tables_of_two_passes_add_up_witness :
  exists t,
    aggregate ([shot_6v6; dup_event] ++ [shot_6v6_away]) [] = Ok t /\
    CF_of t 1 = 3 + 0 /\ CA_of t 1 = 0 + 1 /\ TOI_of t 1 = 3 + 1.
Proof.
  destruct (tables_of_two_passes_add_up [shot_6v6; dup_event] [shot_6v6_away]
              _ _ eq_refl eq_refl) as (t & Ht & Hsum).
  exists t; split; [exact Ht |].
  destruct (Hsum 1) as (Hcf & Hca & Htoi).
  split; [exact Hcf | split; [exact Hca | exact Htoi]].
Defined.

(** X10. When the pass returns.  The pass over a sequence of events returns
    a table when every event is readable (it names no shooter, or both of
    its on-ice cells hold a list), from whatever table it starts; as soon as
    one event names a shooter while an on-ice cell is missing, the pass
    raises TypeError, wherever that event stands and whatever the other
    events are. *)
Theorem aggregation_outcome :
  forall (events : list enriched) (player_stats : player_stats_t),
    (Forall readable events ->
     exists player_stats', aggregate events player_stats = Ok player_stats')
    /\ (Exists (fun e => ~ readable e) events ->
        aggregate events player_stats = Raise TypeError).
Proof.
  intros events player_stats; split.
  - intros H; apply aggregate_returns; exact H.
  - apply aggregate_unreadable.
Qed.

Lemma aggregation_outcome_witness :
  (exists player_stats', aggregate [goal_without_shooter; shot_6v6] [] = Ok player_stats')
  /\ aggregate [shot_6v6; shot_unreadable; shot_6v6_away] [] = Raise TypeError.
Proof.
  split.
  - apply (proj1 (aggregation_outcome [goal_without_shooter; shot_6v6] [])).
    apply Forall_cons; [left; reflexivity |].
    apply Forall_cons; [right; split; discriminate | apply Forall_nil].
  - apply (proj2 (aggregation_outcome [shot_6v6; shot_unreadable; shot_6v6_away] [])).
    apply Exists_cons_tl, Exists_cons_hd.
    intros [H | (H & _)]; [discriminate H | apply H; reflexivity].
Defined.

Lemma corsi_events_app (l1 l2 : list enriched) :
  corsi_events (l1 ++ l2) = corsi_events l1 ++ corsi_events l2.
Proof. apply filter_app. Qed.

Lemma corsi_events_skipped (pbp_df : list enriched) :
  Forall (fun e => qualifies e -> skipped e) pbp_df ->
  Forall skipped (corsi_events pbp_df).
Proof.
  intros H; apply Forall_forall; intros e Hin.
  apply filter_In in Hin; destruct Hin as (Hin & Hq).
  apply (proj1 (Forall_forall _ _) H e Hin), is_corsi_event_iff, Hq.
Qed.

(** X11. Events that are not credited are inert.  Events that fail the
    situation filter, name no shooter (as a goal does, whose feed names a
    scorer), or name a shooter who is on neither on-ice list, can be put
    anywhere in the frame or removed from it: the analysis gives the same
    result, rows or exception. *)
Theorem uncredited_events_are_inert :
  forall (argsort : list float -> list nat) (mean : list float -> float)
         (pbp1 mid pbp2 : list enriched) (player_dict : player_dict_t),
    Forall (fun e => qualifies e -> skipped e) mid ->
    analyze_player_corsi_5v5 argsort mean (pbp1 ++ mid ++ pbp2) player_dict
    = analyze_player_corsi_5v5 argsort mean (pbp1 ++ pbp2) player_dict.
Proof.
  intros argsort mean pbp1 mid pbp2 player_dict H.
  unfold analyze_player_corsi_5v5.
  rewrite !corsi_events_app.
  rewrite (aggregate_without_skipped _ _ _ _ (corsi_events_skipped _ H)).
  reflexivity.
Qed.

Lemma uncredited_events_are_inert_witness :
  analyze_player_corsi_5v5 (insertion_argsort true) group_mean
    ([shot_6v6] ++ [goal_without_shooter; shot_5v6] ++ [shot_6v6_away]) dict_two_teams
  = analyze_player_corsi_5v5 (insertion_argsort true) group_mean
      ([shot_6v6] ++ [shot_6v6_away]) dict_two_teams.
Proof.
  apply uncredited_events_are_inert.
  apply Forall_cons; [intros _; left; reflexivity |].
  apply Forall_cons; [| apply Forall_nil].
  intros (_ & _ & Hh & _); discriminate Hh.
Defined.

Lemma corsi_events_readable (pbp_df : list enriched) :
  Forall (fun e => qualifies e -> readable e) pbp_df ->
  Forall readable (corsi_events pbp_df).
Proof.
  intros H; apply Forall_forall; intros e Hin.
  apply filter_In in Hin; destruct Hin as (Hin & Hq).
  apply (proj1 (Forall_forall _ _) H e Hin), is_corsi_event_iff, Hq.
Qed.

Lemma finalize_length (player_dict : player_dict_t)
    (items : player_stats_t) (results : list stat_row) :
  finalize player_dict items = Ok results ->
  List.length results = List.length items.
Proof.
  intros H; rewrite <- (length_map res_playerId), (finalize_ids _ _ _ H).
  apply length_map.
Qed.

Lemma analyze_of_table (argsort : list float -> list nat)
    (mean : list float -> float) (pbp_df : list enriched)
    (player_dict : player_dict_t) (player_stats : player_stats_t) :
  aggregate (corsi_events pbp_df) [] = Ok player_stats ->
  (player_stats = [] ->
   analyze_player_corsi_5v5 argsort mean pbp_df player_dict = Raise KeyError)
  /\ (player_stats <> [] ->
      exists rows, analyze_player_corsi_5v5 argsort mean pbp_df player_dict = Ok rows).
Proof.
  intros H; unfold analyze_player_corsi_5v5; rewrite H; simpl.
  destruct (finalize_returns player_dict player_stats) as (results & Hres).
  pose proof (finalize_length _ _ _ Hres) as Hlen.
  rewrite Hres; simpl; split.
  - intros ->; destruct results; [reflexivity | discriminate Hlen].
  - intros Hne; destruct results as [| r results]; [| eauto].
    destruct player_stats; [contradiction | discriminate Hlen].
Qed.

(** X12. What the analysis does with a frame, in three cases that cover
    every frame.  It raises TypeError when some selected event names a
    shooter while an on-ice cell is missing.  It raises KeyError when every
    selected event is skipped, in particular on an empty frame and on a
    frame without selected event: the frame of results then has no column
    to sort by.  Otherwise, that is when the selected events are readable
    and one of them has its shooter on the ice, it returns a frame. *)
Theorem analysis_outcome :
  forall (argsort : list float -> list nat) (mean : list float -> float)
         (pbp_df : list enriched) (player_dict : player_dict_t),
    (Exists (fun e => qualifies e /\ ~ readable e) pbp_df ->
     analyze_player_corsi_5v5 argsort mean pbp_df player_dict = Raise TypeError)
    /\ (Forall (fun e => qualifies e -> skipped e) pbp_df ->
        analyze_player_corsi_5v5 argsort mean pbp_df player_dict = Raise KeyError)
    /\ (Forall (fun e => qualifies e -> readable e) pbp_df ->
        Exists (fun e => qualifies e /\ attributed e) pbp_df ->
        exists rows,
          analyze_player_corsi_5v5 argsort mean pbp_df player_dict = Ok rows).
Proof.
  intros argsort mean pbp_df player_dict; split; [| split].
  - intros Hex; unfold analyze_player_corsi_5v5.
    rewrite aggregate_unreadable; [reflexivity |].
    apply Exists_exists in Hex; destruct Hex as (e & Hin & Hq & Hn).
    apply Exists_exists; exists e; split; [| exact Hn].
    apply filter_In; split; [exact Hin | apply is_corsi_event_iff; exact Hq].
  - intros Hall.
    pose proof (aggregate_skipped _ [] (corsi_events_skipped _ Hall)) as H.
    apply (proj1 (analyze_of_table argsort mean _ player_dict _ H)); reflexivity.
  - intros Hall Hex.
    destruct (aggregate_returns _ (corsi_events_readable _ Hall) []) as (ps & H).
    apply (proj2 (analyze_of_table argsort mean _ player_dict _ H)).
    apply Exists_exists in Hex; destruct Hex as (e & Hin & Hq & Hat).
    assert (Hat' := Hat).
    destruct Hat' as (shooter & h & a & Hs & Hh & Ha & Hon).
    assert (Hkey : In shooter (map fst ps)).
    { apply (aggregate_keys _ _ shooter H).
      exists e; split; [| split; [exact Hat |]].
      - apply filter_In; split; [exact Hin | apply is_corsi_event_iff; exact Hq].
      - exists h, a; auto. }
    intros ->; destruct Hkey.
Qed.

Lemma analysis_outcome_witness :
  analyze_player_corsi_5v5 (insertion_argsort true) group_mean
    [shot_6v6; shot_unreadable] dict_two_teams = Raise TypeError
  /\ analyze_player_corsi_5v5 (insertion_argsort true) group_mean
       [goal_without_shooter; shot_5v6] dict_two_teams = Raise KeyError
  /\ exists rows,
       analyze_player_corsi_5v5 (insertion_argsort true) group_mean
         [goal_without_shooter; shot_6v6] dict_two_teams = Ok rows.
Proof.
  split; [| split].
  - apply (proj1 (analysis_outcome (insertion_argsort true) group_mean
                    [shot_6v6; shot_unreadable] dict_two_teams)).
    apply Exists_cons_tl, Exists_cons_hd; split.
    + split; [right; left; reflexivity |].
      split; [reflexivity | split; reflexivity].
    + intros [H | (H & _)]; [discriminate H | apply H; reflexivity].
  - apply (proj1 (proj2 (analysis_outcome (insertion_argsort true) group_mean
                           [goal_without_shooter; shot_5v6] dict_two_teams))).
    apply Forall_cons; [intros _; left; reflexivity |].
    apply Forall_cons; [| apply Forall_nil].
    intros (_ & _ & Hh & _); discriminate Hh.
  - apply (proj2 (proj2 (analysis_outcome (insertion_argsort true) group_mean
                           [goal_without_shooter; shot_6v6] dict_two_teams))).
    + apply Forall_cons; [intros _; left; reflexivity |].
      apply Forall_cons; [| apply Forall_nil].
      intros _; right; split; discriminate.
    + apply Exists_cons_tl, Exists_cons_hd; split.
      * split; [right; left; reflexivity |].
        split; [reflexivity | split; reflexivity].
      * exists 1, [1; 2; 3; 4; 5; 6], [7; 8; 9; 10; 11; 12].
        split; [reflexivity |]. split; [reflexivity |]. split; [reflexivity |].
        left; left; reflexivity.
Defined.

(** X13. Who gets a row.  With a sort routine that meets the promise of the
    default sort kind, the frame that the analysis returns has exactly one
    row for each player listed on the ice in a selected event whose shooter
    is on the ice, and no other row; and every row has at least one shot
    attempt, so that the guard against a division by zero is never the
    branch taken. *)
Theorem one_row_per_credited_player :
  forall (argsort : list float -> list nat) (mean : list float -> float)
         (pbp_df : list enriched) (player_dict : player_dict_t)
         (rows : list corsi_row),
    argsort_spec argsort ->
    analyze_player_corsi_5v5 argsort mean pbp_df player_dict = Ok rows ->
    NoDup (map row_playerId rows) /\
    (forall p, In p (map row_playerId rows)
               <-> exists e, In e pbp_df /\ qualifies e /\ attributed e /\ listed p e) /\
    (forall r, In r rows -> 1 <= row_CF_plus_CA r).
Proof.
  intros argsort mean pbp_df player_dict rows Hspec H.
  destruct (analyze_ids _ _ _ _ _ Hspec H) as (ps & Hps & Hperm).
  destruct (aggregate_tidy _ _ _ Hps tidy_empty) as (Hnd & Hpos).
  split; [| split].
  - apply (Permutation_NoDup (Permutation_sym Hperm)); exact Hnd.
  - intros p; split.
    + intros Hin. apply (Permutation_in p Hperm) in Hin.
      apply (aggregate_keys _ _ p Hps) in Hin.
      destruct Hin as (e & Hin & Hat & Hl).
      apply filter_In in Hin; destruct Hin as (Hin & Hq).
      exists e; split; [exact Hin |].
      split; [apply is_corsi_event_iff; exact Hq | auto].
    + intros (e & Hin & Hq & Hat & Hl).
      apply (Permutation_in p (Permutation_sym Hperm)).
      apply (aggregate_keys _ _ p Hps).
      exists e; split; [| auto].
      apply filter_In; split; [exact Hin | apply is_corsi_event_iff; exact Hq].
  - intros r Hin.
    destruct (analyze_row_item _ _ _ _ _ H) as (ps' & Hps' & Hrows).
    rewrite Hps in Hps'; inversion Hps'; subst ps'.
    destruct (Hrows r Hin)
      as (item & pct & Hitem & _ & _ & _ & _ & Hsum & _).
    pose proof (proj1 (Forall_forall _ _) Hpos _ Hitem) as Hs.
    pose proof (proj1 (Forall_forall _ _) (aggregate_balanced _ _ Hps) _ Hitem) as Hb.
    unfold balanced in Hb; simpl in Hs; lia.
Qed.

Lemma one_row_per_credited_player_witness :
  exists rows,
    analyze_player_corsi_5v5 (insertion_argsort true) group_mean
      [dup_event; goal_without_shooter] dict_two_teams = Ok rows /\
    NoDup (map row_playerId rows) /\
    (forall r, In r rows -> 1 <= row_CF_plus_CA r).
Proof.
  eexists; split; [vm_compute; reflexivity |].
  destruct (one_row_per_credited_player (insertion_argsort true) group_mean
              [dup_event; goal_without_shooter] dict_two_teams _
              (insertion_argsort_spec true) eq_refl) as (Hnd & _ & Hpos).
  split; [exact Hnd | exact Hpos].
Defined.

(** * From the enrichment to the analysis *)

Lemma consistent_qualifies_readable (e : enriched) :
  consistent e -> qualifies e -> readable e.
Proof.
  intros (Hh & Ha) (_ & _ & H6 & A6); right; split; intros E.
  - rewrite E in Hh; simpl in Hh; lia.
  - rewrite E in Ha; simpl in Ha; lia.
Qed.

Lemma combine_consistent (plays : list play) (shifts_df : list shift)
    (out : list enriched) :
  combine_pbp_with_shifts (Some plays) (Some shifts_df) = Ok (Some out) ->
  Forall consistent out.
Proof.
  intros H; destruct (combine_Ok _ _ _ H) as (h & a & _ & _ & F).
  clear H; induction F as [| p e plays out Hpe _ IH]; constructor; [| exact IH].
  destruct (enrich_play_Ok _ _ _ _ _ Hpe) as (_ & Hc & _); exact Hc.
Qed.

(** X14. The analysis reads every frame that the enrichment produces.  On
    such a frame the aggregation never raises: the analysis returns a frame,
    or raises KeyError because no selected event has its shooter on the
    ice. *)
Theorem analysis_reads_enriched_frames :
  forall (argsort : list float -> list nat) (mean : list float -> float)
         (plays : list play) (shifts_df : list shift) (out : list enriched)
         (player_dict : player_dict_t),
    combine_pbp_with_shifts (Some plays) (Some shifts_df) = Ok (Some out) ->
    (exists player_stats, aggregate (corsi_events out) [] = Ok player_stats) /\
    ((exists rows, analyze_player_corsi_5v5 argsort mean out player_dict = Ok rows)
     \/ analyze_player_corsi_5v5 argsort mean out player_dict = Raise KeyError).
Proof.
  intros argsort mean plays shifts_df out player_dict H.
  pose proof (combine_consistent _ _ _ H) as Hc.
  assert (Hr : Forall (fun e => qualifies e -> readable e) out).
  { apply Forall_forall; intros e Hin Hq.
    apply consistent_qualifies_readable; [| exact Hq].
    exact (proj1 (Forall_forall _ _) Hc e Hin). }
  destruct (aggregate_returns _ (corsi_events_readable _ Hr) []) as (ps & Hps).
  split; [exists ps; exact Hps |].
  destruct (analyze_of_table argsort mean out player_dict ps Hps) as (Hempty & Hrows).
  destruct ps as [| item ps]; [right; apply Hempty; reflexivity |].
  left; apply Hrows; discriminate.
Qed.

Lemma analysis_reads_enriched_frames_witness :
  exists out,
    combine_pbp_with_shifts (Some [play_no_clock; dup_play]) (Some dup_shifts)
    = Ok (Some out) /\
    ((exists rows, analyze_player_corsi_5v5 (insertion_argsort true) group_mean
                     out dict_two_teams = Ok rows)
     \/ analyze_player_corsi_5v5 (insertion_argsort true) group_mean
          out dict_two_teams = Raise KeyError).
Proof.
  eexists; split; [reflexivity |].
  refine (proj2 (analysis_reads_enriched_frames (insertion_argsort true) group_mean
                   [play_no_clock; dup_play] dup_shifts _ dict_two_teams _)).
  reflexivity.
Defined.

(** * Further properties of the finalisation *)

Lemma float_same_eq (x y : float) : float_same x y = true -> x = y.
Proof.
  destruct x as [a | a | | a m e]; destruct y as [b | b | | b n f]; simpl;
    try discriminate; try reflexivity.
  - intros H; apply Bool.eqb_prop in H; subst; reflexivity.
  - intros H; apply Bool.eqb_prop in H; subst; reflexivity.
  - rewrite !andb_true_iff; intros ((H1 & H2) & H3).
    apply Bool.eqb_prop in H1; apply Pos.eqb_eq in H2; apply Z.eqb_eq in H3.
    subst; reflexivity.
Qed.

Lemma pct_cells_checked_In (bound : nat) :
  pct_cells_checked bound = true ->
  forall cf total,
    0 <= cf <= total -> 1 <= total <= Z.of_nat bound ->
    pct_cell_checked cf total = true.
Proof.
  unfold pct_cells_checked; intros H cf total Hcf Ht.
  rewrite forallb_forall in H.
  assert (Hin : In (Z.to_nat (total - 1)) (seq 0 bound)) by (apply in_seq; lia).
  specialize (H _ Hin).
  rewrite forallb_forall in H.
  assert (Hin' : In (Z.to_nat cf) (seq 0 (S (S (Z.to_nat (total - 1))))))
    by (apply in_seq; lia).
  specialize (H _ Hin').
  replace (Z.of_nat (S (Z.to_nat (total - 1)))) with total in H by lia.
  rewrite Z2Nat.id in H by lia.
  exact H.
Qed.

Lemma pct_cell_nearest_of (cf total : Z) :
  0 <= cf <= total -> 1 <= total ->
  pct_cell_checked cf total = true ->
  exists k,
    0 <= k <= 1000 /\
    pct_cell cf total = decimal_tenths k /\
    2 * Z.abs (1000 * cf - k * total) <= total.
Proof.
  intros Hcf Ht H.
  unfold pct_cell_checked, nearest_tenth in H.
  apply orb_true_iff in H.
  destruct H as [H | H]; apply andb_true_iff in H; destruct H as (Hsame & Hnear);
    apply float_same_eq in Hsame; apply Z.leb_le in Hnear.
  - exists (1000 * cf / total); split; [| split; assumption].
    split; [apply Z.div_pos; lia |].
    apply Z.div_le_upper_bound; lia.
  - exists (1000 * cf / total + 1); split; [| split; assumption].
    assert (0 <= 1000 * cf / total) by (apply Z.div_pos; lia).
    split; [lia |].
    destruct (Z.eq_dec cf total) as [-> | Hne].
    + rewrite Z.div_mul in Hnear by lia.
      rewrite Z.abs_neq in Hnear by lia. lia.
    + assert (1000 * cf / total < 1000); [| lia].
      apply Z.div_lt_upper_bound; lia.
Qed.

Lemma pct_cells_checked_200 : pct_cells_checked 200 = true.
Proof. vm_compute; reflexivity. Qed.

Lemma pct_cell_nearest (cf total : Z) :
  0 <= cf <= total -> 1 <= total <= 200 ->
  exists k,
    0 <= k <= 1000 /\
    pct_cell cf total = decimal_tenths k /\
    2 * Z.abs (1000 * cf - k * total) <= total.
Proof.
  intros Hcf Ht.
  apply pct_cell_nearest_of; [exact Hcf | exact (proj1 Ht) |].
  apply (pct_cells_checked_In 200 pct_cells_checked_200); [exact Hcf |].
  change (Z.of_nat 200) with 200; exact Ht.
Qed.

(** X15. Accuracy of the percentage.  For every player with at most 200
    shot attempts, the percentage of the returned row is the double nearest
    to a decimal with one digit after the point, between 0.0 and 100.0,
    that lies within half a tenth of the exact value [100 * CF / (CF + CA)].
    (When the exact value is half-way between two tenths either one may come
    out: 23 attempts for out of 80 give 28.7, not 28.8.) *)
Theorem percentage_within_half_a_tenth :
  forall (argsort : list float -> list nat) (mean : list float -> float)
         (pbp_df : list enriched) (player_dict : player_dict_t)
         (rows : list corsi_row),
    analyze_player_corsi_5v5 argsort mean pbp_df player_dict = Ok rows ->
    forall r, In r rows -> row_CF_plus_CA r <= 200 ->
      exists k,
        0 <= k <= 1000 /\
        row_Corsi_pct r = decimal_tenths k /\
        2 * Z.abs (1000 * row_CF r - k * row_CF_plus_CA r) <= row_CF_plus_CA r.
Proof.
  intros argsort mean pbp_df player_dict rows H r Hin Hbound.
  destruct (analyze_row_item _ _ _ _ _ H) as (ps & Hps & Hrows).
  destruct (Hrows r Hin)
    as (item & pct & Hitem & Hpct & _ & HCF & _ & Hsum & _ & Hrow).
  pose proof (proj1 (Forall_forall _ _) (aggregate_counted _ _ Hps) _ Hitem)
    as (Hcf & Hca).
  destruct (aggregate_tidy _ _ _ Hps tidy_empty) as (_ & Hpos).
  pose proof (proj1 (Forall_forall _ _) Hpos _ Hitem) as Hs.
  pose proof (proj1 (Forall_forall _ _) (aggregate_balanced _ _ Hps) _ Hitem) as Hb.
  unfold balanced in Hb; simpl in Hs.
  destruct (pct_cell_nearest (row_CF r) (row_CF_plus_CA r)) as (k & Hk & Hcell & Hnear);
    [lia | lia |].
  exists k; split; [exact Hk |]. split; [| exact Hnear].
  rewrite <- Hcell, Hrow; unfold pct_cell.
  rewrite HCF, Hsum, Hpct; reflexivity.
Qed.

Lemma percentage_within_half_a_tenth_witness :
  exists rows,
    analyze_player_corsi_5v5 (insertion_argsort true) group_mean
      [shot_6v6; dup_event; shot_6v6_away] dict_two_teams = Ok rows /\
    forall r, In r rows ->
      exists k,
        0 <= k <= 1000 /\
        row_Corsi_pct r = decimal_tenths k /\
        2 * Z.abs (1000 * row_CF r - k * row_CF_plus_CA r) <= row_CF_plus_CA r.
Proof.
  eexists; split; [vm_compute; reflexivity |].
  match goal with
  | |- forall r, In r ?R -> _ =>
      assert (E : analyze_player_corsi_5v5 (insertion_argsort true) group_mean
                    [shot_6v6; dup_event; shot_6v6_away] dict_two_teams = Ok R)
        by (vm_compute; reflexivity)
  end.
  intros r Hin.
  apply (percentage_within_half_a_tenth _ _ _ _ _ E r Hin).
  simpl in Hin.
  repeat (destruct Hin as [<- | Hin]; [vm_compute; discriminate |]).
  destruct Hin.
Defined.

(** The percentage of a tie is not rounded to the even tenth. *)
Lemma percentage_of_a_tie :
  pct_cell 23 80 = decimal_tenths 287 /\
  1000 * 23 = 287 * 80 + 40 /\
  round_half_even_div (1000 * 23) 80 = 288.
Proof. repeat split; vm_compute; reflexivity. Qed.

(** ** The percentage of a record *)

Lemma finalize_player_cell (player_dict : player_dict_t) (player_id : Z)
    (st : stats) :
  finalize_player player_dict (player_id, st)
  = Ok (mkStatRow player_id (get_player_name player_id player_dict)
          (CF st) (CA st) (CF st + CA st)
          (pct_cell (CF st) (CF st + CA st)) (TOI_events st)).
Proof.
  unfold finalize_player, pct_cell.
  destruct (corsi_pct_of_returns (CF st) (CF st + CA st)) as (pct & ->).
  reflexivity.
Qed.

Lemma pct_cell_zero (cf total_attempts : Z) :
  total_attempts <= 0 -> pct_cell cf total_attempts = S754_zero false.
Proof.
  intros H; unfold pct_cell, corsi_pct_of.
  rewrite (proj2 (Z.ltb_ge 0 total_attempts) H); reflexivity.
Qed.

(** C8, as the code has it.  Finalisation never raises, whatever the table:
    the division is guarded.  The row made from a record carries the
    player, the CF and the CA of the record and their sum; its percentage is
    0 when [CF + CA] is 0; and when [CF + CA] is between 1 and 200 it is the
    double nearest to a decimal with one digit after the point, between 0.0
    and 100.0, that lies within half a tenth of the exact value
    [100 * CF / (CF + CA)].  Every row that the analysis returns is made in
    this way from a record of the table that the aggregation built.  (The
    percentage is computed in binary floating point, so that an exact value
    half-way between two tenths may go either way.) *)
Theorem percentage_formula :
  (forall player_dict items, exists results, finalize player_dict items = Ok results)
  /\ (forall player_dict player_id st,
        exists r,
          finalize_player player_dict (player_id, st) = Ok r /\
          res_playerId r = player_id /\
          res_CF r = CF st /\ res_CA r = CA st /\
          res_CF_plus_CA r = CF st + CA st /\
          res_TOI_events r = TOI_events st /\
          (CF st + CA st = 0 -> res_Corsi_pct r = S754_zero false) /\
          (0 <= CF st -> 0 <= CA st -> 1 <= CF st + CA st <= 200 ->
           exists k,
             0 <= k <= 1000 /\
             res_Corsi_pct r = decimal_tenths k /\
             2 * Z.abs (1000 * CF st - k * (CF st + CA st)) <= CF st + CA st))
  /\ (forall argsort mean pbp_df player_dict rows,
        analyze_player_corsi_5v5 argsort mean pbp_df player_dict = Ok rows ->
        exists player_stats,
          aggregate (corsi_events pbp_df) [] = Ok player_stats /\
          forall r, In r rows ->
            exists st,
              In (row_playerId r, st) player_stats /\
              row_CF r = CF st /\ row_CA r = CA st /\
              row_CF_plus_CA r = CF st + CA st /\
              1 <= row_CF_plus_CA r /\
              (row_CF_plus_CA r <= 200 ->
               exists k,
                 0 <= k <= 1000 /\
                 row_Corsi_pct r = decimal_tenths k /\
                 2 * Z.abs (1000 * row_CF r - k * row_CF_plus_CA r)
                 <= row_CF_plus_CA r)).
Proof.
  split; [exact finalize_returns |].
  split.
  - intros player_dict player_id st.
    eexists; split; [apply finalize_player_cell |]; cbn [res_playerId res_CF res_CA
      res_CF_plus_CA res_TOI_events res_Corsi_pct].
    split; [reflexivity |]. split; [reflexivity |]. split; [reflexivity |].
    split; [reflexivity |]. split; [reflexivity |]. split.
    + intros Hz; apply pct_cell_zero; lia.
    + intros Hcf Hca Htot; apply pct_cell_nearest; lia.
  - intros argsort mean pbp_df player_dict rows H.
    destruct (analyze_row_item _ _ _ _ _ H) as (ps & Hps & Hrows).
    exists ps; split; [exact Hps |].
    intros r Hin.
    destruct (Hrows r Hin)
      as ([pid st] & pct & Hitem & Hpct & Hid & HCF & HCA & Hsum & _ & Hrow).
    cbn [fst snd] in *.
    pose proof (proj1 (Forall_forall _ _) (aggregate_counted _ _ Hps) _ Hitem)
      as (Hcf & Hca).
    destruct (aggregate_tidy _ _ _ Hps tidy_empty) as (_ & Hpos).
    pose proof (proj1 (Forall_forall _ _) Hpos _ Hitem) as Hs.
    pose proof (proj1 (Forall_forall _ _) (aggregate_balanced _ _ Hps) _ Hitem) as Hb.
    unfold balanced in Hb; cbn [snd] in Hcf, Hca, Hs, Hb.
    exists st; rewrite Hid.
    split; [exact Hitem |]. split; [exact HCF |]. split; [exact HCA |].
    split; [exact Hsum |]. split; [lia |].
    intros Hbound.
    destruct (pct_cell_nearest (CF st) (CF st + CA st)) as (k & Hk & Hcell & Hnear);
      [lia | lia |].
    exists k; split; [exact Hk |]. rewrite HCF, Hsum. split; [| exact Hnear].
    rewrite <- Hcell, Hrow; unfold pct_cell; rewrite Hpct; reflexivity.
Qed.

Lemma percentage_formula_witness :
  (exists r k,
      finalize_player dict_two_teams (1, mkStats 1 2 3) = Ok r /\
      res_Corsi_pct r = decimal_tenths k /\
      2 * Z.abs (1000 * 1 - k * 3) <= 3)
  /\ exists rows,
       analyze_player_corsi_5v5 (insertion_argsort true) group_mean
         [shot_6v6; shot_6v6_away; shot_6v6_away] dict_two_teams = Ok rows /\
       forall r, In r rows -> 1 <= row_CF_plus_CA r.
Proof.
  destruct percentage_formula as (_ & Hrow & Hrows).
  split.
  - destruct (Hrow dict_two_teams 1 (mkStats 1 2 3))
      as (r & Hr & _ & _ & _ & _ & _ & _ & Hk).
    destruct Hk as (k & _ & Hpct & Hnear); cbn [CF CA]; try lia.
    exists r, k; split; [exact Hr |]. split; [exact Hpct | exact Hnear].
  - eexists; split; [vm_compute; reflexivity |].
    match goal with
    | |- forall r, In r ?R -> _ =>
        assert (E : analyze_player_corsi_5v5 (insertion_argsort true) group_mean
                      [shot_6v6; shot_6v6_away; shot_6v6_away] dict_two_teams
                    = Ok R)
          by (vm_compute; reflexivity)
    end.
    destruct (Hrows _ _ _ _ _ E) as (ps & _ & Hall).
    intros r Hin; destruct (Hall r Hin) as (st & _ & _ & _ & _ & Hone & _).
    exact Hone.
Defined.

(** C8 does not hold as stated: for 23 attempts for out of 80 the exact
    percentage is 28.75, which rounds to 28.8 (to the even tenth, and away
    from zero alike), and the code gives 28.7: the quotient 23 / 80 is
    rounded to binary64 before it is multiplied by 100. *)
Lemma percentage_tie_falls_short :
  (exists r,
      finalize_player dict_two_teams (1, mkStats 23 57 80) = Ok r /\
      res_CF r = 23 /\ res_CA r = 57 /\
      res_Corsi_pct r = decimal_tenths 287 /\
      res_Corsi_pct r <> decimal_tenths 288)
  /\ 4 * (100 * 23) = 115 * (23 + 57)
  /\ round_half_even_div (1000 * 23) (23 + 57) = 288
  /\ (2 * (1000 * 23) + (23 + 57)) / (2 * (23 + 57)) = 288
  /\ exists rows r,
       analyze_player_corsi_5v5 (insertion_argsort true) group_mean
         (repeat shot_6v6 23 ++ repeat shot_6v6_away 57) dict_two_teams = Ok rows /\
       In r rows /\ row_playerId r = 1 /\ row_CF r = 23 /\ row_CA r = 57 /\
       row_Corsi_pct r = decimal_tenths 287.
Proof.
  split.
  { eexists; split; [apply finalize_player_cell |].
    cbn [res_CF res_CA res_Corsi_pct CF CA].
    split; [reflexivity |]. split; [reflexivity |].
    split; [vm_compute; reflexivity | vm_compute; discriminate]. }
  split; [reflexivity |]. split; [reflexivity |]. split; [reflexivity |].
  eexists; eexists.
  split; [vm_compute; reflexivity |].
  split; [do 6 right; left; reflexivity |].
  split; [reflexivity |]. split; [reflexivity |]. split; [reflexivity |].
  vm_compute; reflexivity.
Qed.

(** * Players that the dictionary does not know *)

Lemma fsub_nan (x : float) : fsub x nan = nan.
Proof. destruct x as [s | s | | s m e]; reflexivity. Qed.

Lemma analyze_row_shape (argsort : list float -> list nat)
    (mean : list float -> float) (pbp_df : list enriched)
    (player_dict : player_dict_t) (rows : list corsi_row) :
  analyze_player_corsi_5v5 argsort mean pbp_df player_dict = Ok rows ->
  forall r, In r rows ->
    row_playerName r = get_player_name (row_playerId r) player_dict /\
    row_team r = team_of player_dict (row_playerId r) /\
    (row_team r = None -> row_Corsi_rel r = nan).
Proof.
  intros H r Hin.
  destruct (analyze_Ok _ _ _ _ _ H) as (ps & results & Hps & Hres & _ & ->).
  apply in_map_iff in Hin; destruct Hin as (sr & <- & Hin).
  apply In_take in Hin.
  destruct (Forall2_In_r _ _ _ (finalize_Ok _ _ _ Hres) sr Hin) as (item & _ & Hf).
  destruct (finalize_player_Ok _ _ _ Hf) as (pct & _ & ->).
  unfold add_team_columns; simpl.
  split; [reflexivity |]. split; [reflexivity |].
  intros ->; simpl. rewrite fsub_nan; reflexivity.
Qed.

Lemma analyze_any_dictionary (argsort : list float -> list nat)
    (mean : list float -> float) (pbp_df : list enriched)
    (d1 d2 : player_dict_t) (rows1 : list corsi_row) :
  analyze_player_corsi_5v5 argsort mean pbp_df d1 = Ok rows1 ->
  exists rows2,
    analyze_player_corsi_5v5 argsort mean pbp_df d2 = Ok rows2 /\
    map row_playerId rows2 = map row_playerId rows1.
Proof.
  intros H.
  destruct (analyze_Ok _ _ _ _ _ H) as (ps & r1 & Hps & H1 & Hne & ->).
  destruct (finalize_returns d2 ps) as (r2 & H2).
  pose proof (finalize_numbers d1 d2 ps r1 r2 H1 H2) as Hnum.
  unfold analyze_player_corsi_5v5; rewrite Hps; simpl; rewrite H2; simpl.
  destruct r2 as [| x2 r2].
  { destruct r1; [contradiction | discriminate Hnum]. }
  eexists; split; [reflexivity |].
  pose proof (sort_values_desc_numbers argsort _ _ Hnum) as Hsort.
  rewrite !map_map.
  replace (fun r => row_playerId (add_team_columns mean d2
                                    (sort_values_desc argsort (x2 :: r2)) r))
    with (fun r => fst (fst (fst (fst (fst (res_numbers r)))))) by reflexivity.
  replace (fun r => row_playerId (add_team_columns mean d1
                                    (sort_values_desc argsort r1) r))
    with (fun r => fst (fst (fst (fst (fst (res_numbers r)))))) by reflexivity.
  rewrite <- !(map_map res_numbers (fun n => fst (fst (fst (fst (fst n)))))).
  rewrite Hsort; reflexivity.
Qed.

(** X16. Players that the dictionary does not know.  A missing entry never
    makes the analysis fail: when the analysis returns a frame with one
    dictionary it returns one with every dictionary, the empty one
    included, with the same players in the same order.  A player without
    entry keeps a row, named "Unknown Player", without team, and with NaN as
    relative percentage.  A player that the dictionary knows is filed under
    the team of the entry, and is named as the entry says, or "Unknown
    Player" when the entry has no name. *)
Theorem rows_of_unknown_players :
  forall (argsort : list float -> list nat) (mean : list float -> float)
         (pbp_df : list enriched) (player_dict : player_dict_t)
         (rows : list corsi_row),
    analyze_player_corsi_5v5 argsort mean pbp_df player_dict = Ok rows ->
    (forall other_dict : player_dict_t,
        exists rows',
          analyze_player_corsi_5v5 argsort mean pbp_df other_dict = Ok rows' /\
          map row_playerId rows' = map row_playerId rows /\
          forall r, In r rows' ->
            other_dict (row_playerId r) = None ->
            row_playerName r = "Unknown Player" /\ row_team r = None /\
            row_Corsi_rel r = nan)
    /\ forall r, In r rows ->
      (player_dict (row_playerId r) = None ->
       row_playerName r = "Unknown Player" /\ row_team r = None /\
       row_Corsi_rel r = nan)
      /\ (forall i, player_dict (row_playerId r) = Some i ->
            row_team r = Some (team i) /\
            row_playerName r = match fullName i with
                               | Some name => name
                               | None => "Unknown Player"
                               end).
Proof.
  intros argsort mean pbp_df player_dict rows H.
  assert (Hunknown : forall d rs,
             analyze_player_corsi_5v5 argsort mean pbp_df d = Ok rs ->
             forall r, In r rs -> d (row_playerId r) = None ->
               row_playerName r = "Unknown Player" /\ row_team r = None /\
               row_Corsi_rel r = nan).
  { intros d rs Hrs r Hin Hnone.
    destruct (analyze_row_shape _ _ _ _ _ Hrs r Hin) as (Hname & Hteam & Hrel).
    unfold get_player_name in Hname; unfold team_of in Hteam.
    rewrite Hnone in Hname, Hteam.
    split; [exact Hname |]. split; [exact Hteam | exact (Hrel Hteam)]. }
  split.
  - intros other_dict.
    destruct (analyze_any_dictionary _ _ _ _ other_dict _ H) as (rows' & Hrows' & Hids).
    exists rows'; split; [exact Hrows' |]. split; [exact Hids |].
    exact (Hunknown other_dict rows' Hrows').
  - intros r Hin; split; [exact (Hunknown player_dict rows H r Hin) |].
    destruct (analyze_row_shape _ _ _ _ _ H r Hin) as (Hname & Hteam & _).
    unfold get_player_name in Hname; unfold team_of in Hteam.
    intros i Hi; rewrite Hi in Hname, Hteam; split; assumption.
Qed.

Lemma rows_of_unknown_players_witness :
  exists rows,
    analyze_player_corsi_5v5 (insertion_argsort true) group_mean
      [shot_6v6] dict_two_teams = Ok rows /\
    exists rows',
      analyze_player_corsi_5v5 (insertion_argsort true) group_mean
        [shot_6v6] (fun _ => None) = Ok rows' /\
      map row_playerId rows' = map row_playerId rows /\
      forall r, In r rows' ->
        row_playerName r = "Unknown Player" /\ row_team r = None /\
        row_Corsi_rel r = nan.
Proof.
  eexists; split; [vm_compute; reflexivity |].
  match goal with
  | |- exists rows', _ /\ _ = map row_playerId ?R /\ _ =>
      assert (E : analyze_player_corsi_5v5 (insertion_argsort true) group_mean
                    [shot_6v6] dict_two_teams = Ok R)
        by (vm_compute; reflexivity)
  end.
  destruct (proj1 (rows_of_unknown_players _ _ _ _ _ E) (fun _ => None))
    as (rows' & Hrows' & Hids & Hun).
  exists rows'; split; [exact Hrows' |]. split; [exact Hids |].
  intros r Hin; apply (Hun r Hin); reflexivity.
Defined.

(** X17. The teams line of the summary.  On the frame that the analysis
    returns, joining the team names succeeds exactly when the dictionary
    knows every player of the frame; a single unknown player makes it raise
    TypeError, so that the summary stops after its first line. *)
Theorem summary_needs_every_team :
  forall (argsort : list float -> list nat) (mean : list float -> float)
         (pbp_df : list enriched) (player_dict : player_dict_t)
         (rows : list corsi_row),
    analyze_player_corsi_5v5 argsort mean pbp_df player_dict = Ok rows ->
    ((forall r, In r rows -> player_dict (row_playerId r) <> None) ->
     exists line, joined_teams rows = Ok line)
    /\ ((exists r, In r rows /\ player_dict (row_playerId r) = None) ->
        joined_teams rows = Raise TypeError).
Proof.
  intros argsort mean pbp_df player_dict rows H.
  unfold joined_teams; split.
  - intros Hall.
    replace (forallb _ rows) with true; [eauto |].
    symmetry; apply forallb_forall; intros r Hin.
    destruct (analyze_row_shape _ _ _ _ _ H r Hin) as (_ & -> & _).
    unfold team_of.
    destruct (player_dict (row_playerId r)) eqn:E; [reflexivity |].
    exfalso; exact (Hall r Hin E).
  - intros (r & Hin & Hnone).
    replace (forallb _ rows) with false; [reflexivity |].
    symmetry; apply not_true_is_false; intros Hf.
    rewrite forallb_forall in Hf; specialize (Hf r Hin).
    destruct (analyze_row_shape _ _ _ _ _ H r Hin) as (_ & Ht & _).
    rewrite Ht in Hf; unfold team_of in Hf; rewrite Hnone in Hf; discriminate.
Qed.

Lemma summary_needs_every_team_witness :
  (exists rows,
      analyze_player_corsi_5v5 (insertion_argsort true) group_mean
        [shot_6v6] dict_two_teams = Ok rows /\
      exists line, joined_teams rows = Ok line)
  /\ (exists rows,
        analyze_player_corsi_5v5 (insertion_argsort true) group_mean
          [shot_6v6]
          (fun player_id => if player_id =? 1 then None else dict_two_teams player_id)
        = Ok rows /\
        joined_teams rows = Raise TypeError).
Proof.
  split.
  - eexists; split; [vm_compute; reflexivity |].
    match goal with
    | |- exists line, joined_teams ?R = _ =>
        assert (E : analyze_player_corsi_5v5 (insertion_argsort true) group_mean
                      [shot_6v6] dict_two_teams = Ok R)
          by (vm_compute; reflexivity)
    end.
    apply (proj1 (summary_needs_every_team _ _ _ _ _ E)).
    intros r Hr; simpl in Hr.
    repeat (destruct Hr as [<- | Hr]; [discriminate |]); destruct Hr.
  - eexists; split; [vm_compute; reflexivity |].
    match goal with
    | |- joined_teams ?R = _ =>
        assert (E : analyze_player_corsi_5v5 (insertion_argsort true) group_mean
                      [shot_6v6]
                      (fun player_id => if player_id =? 1 then None
                                        else dict_two_teams player_id) = Ok R)
          by (vm_compute; reflexivity)
    end.
    apply (proj2 (summary_needs_every_team _ _ _ _ _ E)).
    eexists; split; [left; reflexivity | reflexivity].
Defined.

(** X18. Clock strings read back.  Every clock written "MM:SS", with two
    digits for the minutes and two for the seconds, converts to
    [MM * 60 + SS] seconds. *)
Theorem clock_round_trip :
  forall m s : Z,
    0 <= m < 100 -> 0 <= s < 100 ->
    convert_time_to_seconds (Some (clock m s)) = Ok (Some (m * 60 + s)).
Proof.
  intros m s Hm Hs.
  pose proof clock_reads_back_all as H.
  rewrite forallb_forall in H.
  specialize (H (Z.to_nat m)).
  rewrite forallb_forall in H.
  specialize (H ltac:(apply in_seq; lia) (Z.to_nat s) ltac:(apply in_seq; lia)).
  unfold clock_reads_back in H; rewrite !Z2Nat.id in H by lia.
  destruct (convert_time_to_seconds (Some (clock m s))) as [[v |] | e];
    try discriminate H.
  apply Z.eqb_eq in H; subst; reflexivity.
Qed.

Lemma clock_round_trip_witness :
  clock 19 59 = "19:59" /\
  convert_time_to_seconds (Some (clock 19 59)) = Ok (Some 1199).
Proof.
  split; [reflexivity |].
  apply (clock_round_trip 19 59); lia.
Defined.

(** * Fetching with retries *)

Lemma attempts_loop_result {J : Type} (server : nat -> outcome J)
    (max_retries : Z) (len : nat) :
  forall (start : nat) (json : J),
    snd (attempts_loop server max_retries (seq start len)) = Some json <->
    exists k, (start <= k < start + len)%nat /\
              server k = Responded json /\
              forall i, (start <= i < k)%nat -> server i = ConnectionError.
Proof.
  induction len as [| len IH]; intros start json; simpl.
  - split; [discriminate | intros (k & Hk & _); lia].
  - destruct (server start) as [j | |] eqn:E; simpl.
    + split.
      * intros H; inversion H; subst j.
        exists start; split; [lia |]. split; [exact E | intros i Hi; lia].
      * intros (k & Hk & Hres & Hbefore).
        destruct (Nat.eq_dec k start) as [-> | Hne]; [congruence |].
        rewrite (Hbefore start) in E by lia; discriminate E.
    + specialize (IH (S start) json).
      destruct (attempts_loop server max_retries (seq (S start) len))
        as [trace r]; simpl in *.
      rewrite IH; split.
      * intros (k & Hk & Hres & Hbefore).
        exists k; split; [lia |]. split; [exact Hres |].
        intros i Hi; destruct (Nat.eq_dec i start) as [-> | Hne];
          [exact E | apply Hbefore; lia].
      * intros (k & Hk & Hres & Hbefore).
        destruct (Nat.eq_dec k start) as [-> | Hne]; [congruence |].
        exists k; split; [lia |]. split; [exact Hres |].
        intros i Hi; apply Hbefore; lia.
    + split; [discriminate |].
      intros (k & Hk & Hres & Hbefore).
      destruct (Nat.eq_dec k start) as [-> | Hne]; [congruence |].
      rewrite (Hbefore start) in E by lia; discriminate E.
Qed.

Lemma attempts_loop_gives_up {J : Type} (server : nat -> outcome J)
    (max_retries : Z) (len : nat) :
  forall (start k : nat),
    (start <= k < start + len)%nat ->
    server k = RequestException ->
    (forall i, (start <= i < k)%nat -> server i = ConnectionError) ->
    snd (attempts_loop server max_retries (seq start len)) = None /\
    requests (fst (attempts_loop server max_retries (seq start len)))
    = Z.of_nat (k - start) + 1.
Proof.
  induction len as [| len IH]; intros start k Hk Hres Hbefore; [lia |].
  simpl.
  destruct (Nat.eq_dec k start) as [-> | Hne].
  - rewrite Hres; simpl; split; [reflexivity |].
    rewrite Nat.sub_diag; reflexivity.
  - rewrite (Hbefore start) by lia.
    destruct (IH (S start) k ltac:(lia) Hres ltac:(intros i Hi; apply Hbefore; lia))
      as (Hnone & Hreq).
    destruct (attempts_loop server max_retries (seq (S start) len))
      as [trace r]; cbn [fst snd] in *.
    split; [exact Hnone |].
    unfold requests in *.
    destruct (Z.of_nat start <? max_retries - 1); cbn [app fold_right];
      rewrite Hreq; lia.
Qed.

Lemma last_pause (s : Z) (trace : list effect) :
  trace <> [] -> last (Get :: Sleep s :: trace) Get = last trace Get.
Proof. destruct trace as [| e trace]; [contradiction | reflexivity]. Qed.

Lemma requests_nonempty (trace : list effect) : 1 <= requests trace -> trace <> [].
Proof. intros H ->; simpl in H; lia. Qed.

Lemma attempts_loop_cons {J : Type} (server : nat -> outcome J)
    (max_retries : Z) (attempt : nat) (rest : list nat) :
  attempts_loop server max_retries (attempt :: rest)
  = match server attempt with
    | Responded json => ([Get], Some json)
    | ConnectionError =>
        (Get :: (if Z.of_nat attempt <? max_retries - 1
                 then [Sleep (2 ^ Z.of_nat attempt)]
                 else [])
             ++ fst (attempts_loop server max_retries rest),
         snd (attempts_loop server max_retries rest))
    | RequestException => ([Get], None)
    end.
Proof.
  simpl; destruct (server attempt); try reflexivity.
  destruct (attempts_loop server max_retries rest); reflexivity.
Qed.

(** The effects of the attempts from [start] on, when the last attempt of
    the loop is [start + len]. *)
Lemma attempts_loop_effort {J : Type} (server : nat -> outcome J) (len : nat) :
  forall start : nat,
    let trace :=
      fst (attempts_loop server (Z.of_nat (start + S len)) (seq start (S len))) in
    1 <= requests trace <= Z.of_nat (S len) /\
    slept trace = 2 ^ (Z.of_nat start + requests trace - 1) - 2 ^ Z.of_nat start /\
    last trace Get = Get.
Proof.
  assert (Hone : forall start : nat,
             1 <= requests [Get] <= 1 /\
             slept [Get] = 2 ^ (Z.of_nat start + requests [Get] - 1) - 2 ^ Z.of_nat start /\
             last [Get] Get = Get).
  { intros start; simpl; split; [lia |]. split; [| reflexivity].
    replace (Z.of_nat start + 1 - 1) with (Z.of_nat start) by lia; lia. }
  induction len as [| len IH]; intros start; cbv zeta.
  - change (seq start 1) with [start]; rewrite attempts_loop_cons.
    replace (Z.of_nat start <? Z.of_nat (start + 1) - 1) with false
      by (symmetry; apply Z.ltb_ge; lia).
    destruct (server start); cbn [fst app attempts_loop]; apply Hone.
  - change (seq start (S (S len))) with (start :: seq (S start) (S len)).
    rewrite attempts_loop_cons.
    replace (Z.of_nat start <? Z.of_nat (start + S (S len)) - 1) with true
      by (symmetry; apply Z.ltb_lt; lia).
    specialize (IH (S start)); cbv zeta in IH.
    replace (Z.of_nat (S start + S len)) with (Z.of_nat (start + S (S len)))
      in IH by lia.
    destruct (server start) as [j | |]; cbn [fst].
    + destruct (Hone start) as (H1 & H2 & H3).
      split; [lia |]. split; assumption.
    + set (trace := fst (attempts_loop server (Z.of_nat (start + S (S len)))
                           (seq (S start) (S len)))) in *.
      destruct IH as (Hreq & Hslept & Hlast).
      cbn [app].
      change (requests (Get :: Sleep (2 ^ Z.of_nat start) :: trace))
        with (1 + requests trace).
      change (slept (Get :: Sleep (2 ^ Z.of_nat start) :: trace))
        with (2 ^ Z.of_nat start + slept trace).
      split; [lia |]. split.
      * rewrite Hslept.
        replace (Z.of_nat start + (1 + requests trace) - 1)
          with (Z.succ (Z.of_nat start) + requests trace - 1) by lia.
        replace (Z.of_nat (S start)) with (Z.succ (Z.of_nat start)) by lia.
        assert (E : 2 ^ Z.succ (Z.of_nat start) = 2 * 2 ^ Z.of_nat start)
          by (apply Z.pow_succ_r; lia).
        lia.
      * rewrite last_pause; [exact Hlast | apply requests_nonempty; lia].
    + destruct (Hone start) as (H1 & H2 & H3).
      split; [lia |]. split; assumption.
Qed.

Lemma fetch_nhl_data_effort {J : Type} (server : nat -> outcome J) (max_retries : Z) :
  1 <= max_retries ->
  1 <= requests (fst (fetch_nhl_data server max_retries)) <= max_retries /\
  slept (fst (fetch_nhl_data server max_retries))
  = 2 ^ (requests (fst (fetch_nhl_data server max_retries)) - 1) - 1 /\
  last (fst (fetch_nhl_data server max_retries)) Get = Get.
Proof.
  intros Hmax; unfold fetch_nhl_data.
  pose proof (attempts_loop_effort server (Z.to_nat max_retries - 1) 0) as H.
  replace (S (Z.to_nat max_retries - 1)) with (Z.to_nat max_retries) in H by lia.
  replace (Z.of_nat (0 + Z.to_nat max_retries)) with max_retries in H by lia.
  cbv zeta in H; destruct H as (Hreq & Hslept & Hlast).
  split; [lia |]. split; [| exact Hlast].
  rewrite Hslept; simpl; reflexivity.
Qed.

(** X19. What a fetch returns.  The fetch returns the answer of the first
    request that is answered, provided that request is among the first
    [max_retries] and every earlier one failed with a connection error, and
    it returns nothing in every other case.  In particular another kind of
    failure (an error status, for one) ends the fetch at once: that request
    is the last one, whatever later requests would have given. *)
Theorem fetch_result :
  forall (J : Type) (server : nat -> outcome J) (max_retries : Z),
    (forall json,
        snd (fetch_nhl_data server max_retries) = Some json <->
        exists k, Z.of_nat k < max_retries /\
                  server k = Responded json /\
                  forall i, (i < k)%nat -> server i = ConnectionError)
    /\ (forall k, Z.of_nat k < max_retries ->
          server k = RequestException ->
          (forall i, (i < k)%nat -> server i = ConnectionError) ->
          snd (fetch_nhl_data server max_retries) = None /\
          requests (fst (fetch_nhl_data server max_retries)) = Z.of_nat k + 1).
Proof.
  intros J server max_retries; unfold fetch_nhl_data; split.
  - intros json; rewrite attempts_loop_result; split.
    + intros (k & Hk & Hres & Hbefore); exists k.
      split; [lia |]. split; [exact Hres | intros i Hi; apply Hbefore; lia].
    + intros (k & Hk & Hres & Hbefore); exists k.
      split; [lia |]. split; [exact Hres | intros i Hi; apply Hbefore; lia].
  - intros k Hk Hres Hbefore.
    destruct (attempts_loop_gives_up server max_retries (Z.to_nat max_retries) 0 k)
      as (Hnone & Hreq); [lia | exact Hres | intros i Hi; apply Hbefore; lia |].
    split; [exact Hnone |]. rewrite Hreq; lia.
Qed.

Lemma fetch_result_witness :
  snd (fetch_nhl_data server_third_time 3) = Some 42
  /\ snd (fetch_nhl_data server_third_time 2) = None
  /\ fetch_nhl_data server_error_status 3 = ([Get; Sleep 1; Get], None).
Proof.
  split; [| split].
  - apply (proj1 (fetch_result Z server_third_time 3)).
    exists 2%nat; split; [lia |]. split; [reflexivity |].
    intros i Hi; unfold server_third_time.
    rewrite (proj2 (Nat.ltb_lt i 2) Hi); reflexivity.
  - reflexivity.
  - destruct (proj2 (fetch_result Z server_error_status 3) 1%nat) as (Hnone & Hreq).
    + lia.
    + reflexivity.
    + intros i Hi; unfold server_error_status.
      rewrite (proj2 (Nat.ltb_lt i 1) Hi); reflexivity.
    + reflexivity.
Defined.

(** X20. What a fetch costs.  With [max_retries] at least 1 the fetch makes
    between 1 and [max_retries] requests; it pauses after every request but
    the last, for 1, 2, 4, ... seconds, so that after [r] requests it has
    paused for [2 ^ (r - 1) - 1] seconds in all, at most
    [2 ^ (max_retries - 1) - 1]; and it never pauses before returning.  With
    [max_retries] below 1 it makes no request at all and returns nothing. *)
Theorem fetch_effort :
  forall (J : Type) (server : nat -> outcome J) (max_retries : Z),
    (1 <= max_retries ->
     let trace := fst (fetch_nhl_data server max_retries) in
     1 <= requests trace <= max_retries /\
     slept trace = 2 ^ (requests trace - 1) - 1 /\
     slept trace <= 2 ^ (max_retries - 1) - 1 /\
     last trace Get = Get)
    /\ (max_retries < 1 -> fetch_nhl_data server max_retries = ([], None)).
Proof.
  intros J server max_retries; split.
  - intros Hmax; cbv zeta.
    destruct (fetch_nhl_data_effort server max_retries Hmax) as (Hreq & Hslept & Hlast).
    split; [exact Hreq |]. split; [exact Hslept |]. split; [| exact Hlast].
    rewrite Hslept.
    assert (2 ^ (requests (fst (fetch_nhl_data server max_retries)) - 1)
            <= 2 ^ (max_retries - 1)) by (apply Z.pow_le_mono_r; lia).
    lia.
  - intros Hmax; unfold fetch_nhl_data.
    replace (Z.to_nat max_retries) with 0%nat by lia; reflexivity.
Qed.

Lemma fetch_effort_witness :
  fetch_nhl_data server_down 3 = ([Get; Sleep 1; Get; Sleep 2; Get], None)
  /\ slept (fst (fetch_nhl_data server_down 3)) = 3
  /\ fetch_nhl_data server_down 0 = ([], None).
Proof.
  split; [reflexivity |]. split.
  - destruct (proj1 (fetch_effort Z server_down 3) ltac:(lia))
      as (_ & Hslept & _).
    rewrite Hslept; reflexivity.
  - apply (proj2 (fetch_effort Z server_down 0)); lia.
Defined.

(** X21. The shift fetch.  It makes at most three requests and pauses for at
    most three seconds.  It returns the rows under the key [data] of the
    first answer, and the empty list when that answer has no such key,
    provided the earlier requests failed with a connection error; in every
    other case it returns nothing. *)
Theorem shift_fetch :
  forall server : nat -> outcome (option (list shift)),
    1 <= requests (fst (fetch_shift_data server)) <= 3 /\
    slept (fst (fetch_shift_data server)) <= 3 /\
    forall rows,
      snd (fetch_shift_data server) = Some rows <->
      exists k data,
        (k < 3)%nat /\ server k = Responded data /\
        rows = match data with Some l => l | None => [] end /\
        forall i, (i < k)%nat -> server i = ConnectionError.
Proof.
  intros server; unfold fetch_shift_data.
  pose proof (fetch_nhl_data_effort server 3 ltac:(lia)) as (Hreq & Hslept & _).
  pose proof (attempts_loop_result server 3 3 0) as Hres.
  unfold fetch_nhl_data in Hreq, Hslept.
  change (Z.to_nat 3) with 3%nat in Hreq, Hslept.
  destruct (attempts_loop server 3 (seq 0 3)) as [trace r]; cbn [fst snd] in *.
  split; [exact Hreq |]. split.
  - rewrite Hslept.
    assert (2 ^ (requests trace - 1) <= 2 ^ 2) by (apply Z.pow_le_mono_r; lia).
    lia.
  - intros rows; split.
    + intros H. destruct r as [data |]; [| discriminate].
      destruct (proj1 (Hres data) eq_refl) as (k & Hk & Hk' & Hbefore).
      exists k, data; split; [lia |]. split; [exact Hk' |]. split.
      * destruct data; inversion H; reflexivity.
      * intros i Hi; apply Hbefore; lia.
    + intros (k & data & Hk & Hk' & -> & Hbefore).
      assert (Hr : r = Some data).
      { apply Hres; exists k; split; [lia |]. split; [exact Hk' |].
        intros i Hi; apply Hbefore; lia. }
      rewrite Hr; destruct data; reflexivity.
Qed.
